(** * Academic Paper Token Splitter: the extraction, normalisation and
      chunking pipeline of [app.py], embedded and verified.

    Python [str] values are sequences of Unicode code points; the regular
    expressions of [clean_academic_text] are kept as syntax trees and run by
    a backtracking matcher with the semantics of Python's [re] module
    (greedy quantifiers, leftmost match, non-overlapping substitution). *)

From Stdlib Require Import String Ascii List NArith ZArith Bool Arith Lia.
Import ListNotations.

Local Open Scope N_scope.

(** ** Python strings *)

Module Py.

(** A code point; a [str] is a list of them. *)
Definition char := N.
Definition str := list char.

Definition LF : char := 10.
Definition SPACE : char := 32.
Definition HYPHEN : char := 45.
Definition UNDERSCORE : char := 95.
Definition REPLACEMENT : char := 65533.

Definition between (lo hi c : char) : bool := (lo <=? c) && (c <=? hi).

(** [Py_UNICODE_ISSPACE]: the code points for which [str.isspace] holds;
    the class used by [str.strip()] and by [\s] in a [str] pattern. *)
Definition isspace (c : char) : bool :=
  between 9 13 c || between 28 32 c || (c =? 133) || (c =? 160)
  || (c =? 5760) || between 8192 8202 c || (c =? 8232) || (c =? 8233)
  || (c =? 8239) || (c =? 8287) || (c =? 12288).

(** [[a-z]] *)
Definition islower_az (c : char) : bool := between 97 122 c.

Definition ascii_alnum (c : char) : bool :=
  between 48 57 c || between 65 90 c || between 97 122 c.

(** The alphanumeric table of the Unicode database beyond ASCII is data of
    the interpreter, not of this program: it is an interface, with the one
    fact about it the proofs use (no alphanumeric code point is white
    space). *)
Class UnicodeDB := {
  uni_alnum : char -> bool;
  uni_alnum_not_space : forall c, uni_alnum c = true -> isspace c = false
}.

Section Classes.
Context {db : UnicodeDB}.

(** [Py_UNICODE_ISALNUM] *)
Definition isalnum (c : char) : bool :=
  if c <? 128 then ascii_alnum c else uni_alnum c.

(** [\w] in a [str] pattern: alphanumeric or underscore. *)
Definition isword (c : char) : bool := isalnum c || (c =? UNDERSCORE).

End Classes.

(** Literals: a Rocq string read as a Python literal, where a backslash
    followed by [n] stands for a line feed. *)
Fixpoint lit (s : string) : str :=
  match s with
  | EmptyString => []
  | String a s' =>
      match s' with
      | String b s'' =>
          if (Ascii.eqb a "\" && Ascii.eqb b "n")%bool
          then LF :: lit s''
          else N_of_ascii a :: lit s'
      | EmptyString => [N_of_ascii a]
      end
  end.

(** [s.lstrip()], [s.rstrip()], [s.strip()] *)
Fixpoint lstrip (s : str) : str :=
  match s with
  | c :: t => if isspace c then lstrip t else s
  | [] => []
  end.

Definition rstrip (s : str) : str := rev (lstrip (rev s)).

Definition strip (s : str) : str := rstrip (lstrip s).

(** [s.split(sep)] for a one-character separator: the pieces between the
    occurrences of [sep]; never an empty list. *)
Fixpoint split (sep : char) (s : str) : list str :=
  match s with
  | [] => [[]]
  | c :: t =>
      if c =? sep then [] :: split sep t
      else match split sep t with
           | piece :: more => (c :: piece) :: more
           | [] => [[c]]
           end
  end.

(** [sep.join(pieces)] *)
Fixpoint join (sep : str) (pieces : list str) : str :=
  match pieces with
  | [] => []
  | [p] => p
  | p :: more => p ++ sep ++ join sep more
  end.

(** Truthiness of a string. *)
Definition truthy (s : str) : bool :=
  match s with [] => false | _ => true end.

End Py.

(** ** Regular expressions *)

Module Re.
Import Py.

(** The fragment of the pattern language the program uses. *)
Inductive regex :=
| Cls (p : char -> bool)             (* one character of a class *)
| Rep (p : char -> bool) (lo : nat)  (* greedy repetition, [lo] or more *)
| Bnd                                (* the word boundary *)
| Seq (r1 r2 : regex)
| Grp (i : nat) (r : regex).         (* capturing group number [i] *)

(** Matcher state: the character before the current position, the text from
    it on, its offset from the start of the match, the spans of the groups
    closed so far. *)
Record state := State {
  prev : option char;
  rest : str;
  pos : nat;
  caps : list (nat * (nat * nat))
}.

Definition start (pv : option char) (s : str) : state := State pv s 0 [].

Section Matcher.
Context {db : UnicodeDB}.

Definition word_at (o : option char) : bool :=
  match o with Some c => isword c | None => false end.

(** [\b]: exactly one of the two neighbours is a word character. *)
Definition at_boundary (st : state) : bool :=
  xorb (word_at (prev st)) (word_at (hd_error (rest st))).

(** Greedy repetition: take as many characters of the class as there are,
    then give them back one at a time until the continuation succeeds. *)
Fixpoint rep (p : char -> bool) (k : state -> option state) (lo : nat)
    (pv : option char) (n : nat) (cs : list (nat * (nat * nat)))
    (s : str) {struct s} : option state :=
  let here := match lo with O => k (State pv s n cs) | S _ => None end in
  match s with
  | c :: t =>
      if p c then
        match rep p k (Nat.pred lo) (Some c) (S n) cs t with
        | Some r => Some r
        | None => here
        end
      else here
  | [] => here
  end.

(** Backtracking match of [r] at the current position, continuing with
    [k]; [None] when no way of matching [r] lets [k] succeed. *)
Fixpoint exec (r : regex) (k : state -> option state) (st : state)
  : option state :=
  match r with
  | Cls p =>
      match rest st with
      | c :: t => if p c then k (State (Some c) t (S (pos st)) (caps st))
                  else None
      | [] => None
      end
  | Rep p lo => rep p k lo (prev st) (pos st) (caps st) (rest st)
  | Bnd => if at_boundary st then k st else None
  | Seq r1 r2 => exec r1 (exec r2 k) st
  | Grp i r1 =>
      exec r1 (fun st' =>
        k (State (prev st') (rest st') (pos st')
                 ((i, (pos st, pos st')) :: caps st'))) st
  end.

(** [pattern.match] at a position whose left neighbour is [pv]: the length
    of the match and the spans of its groups. *)
Definition match_at (r : regex) (pv : option char) (s : str)
  : option (nat * list (nat * (nat * nat))) :=
  match exec r Some (start pv s) with
  | Some st => Some (pos st, caps st)
  | None => None
  end.

(** Replacement templates: literal characters and group references. *)
Inductive ritem :=
| RLit (c : char)
| RGrp (i : nat).

Fixpoint span_of (i : nat) (cs : list (nat * (nat * nat)))
  : option (nat * nat) :=
  match cs with
  | [] => None
  | (j, sp) :: more => if Nat.eqb i j then Some sp else span_of i more
  end.

Definition group (s : str) (cs : list (nat * (nat * nat))) (i : nat) : str :=
  match span_of i cs with
  | Some (b, e) => firstn (e - b) (skipn b s)
  | None => []
  end.

Fixpoint expand (tpl : list ritem) (s : str) (cs : list (nat * (nat * nat)))
  : str :=
  match tpl with
  | [] => []
  | RLit c :: more => c :: expand more s cs
  | RGrp i :: more => group s cs i ++ expand more s cs
  end.

(** The scan of [re.sub]: [skip] counts the characters still inside the
    match found last.  At a free position the pattern is tried; a match is
    replaced by the expanded template and the scan resumes after it, a
    failure copies one character. *)
Fixpoint scan (r : regex) (tpl : list ritem) (pv : option char)
    (skip : nat) (s : str) {struct s} : str :=
  match skip with
  | S m =>
      match s with
      | c :: t => scan r tpl (Some c) m t
      | [] => []
      end
  | O =>
      match match_at r pv s with
      | Some (len, cs) =>
          expand tpl s cs ++
          match s with
          | c :: t =>
              match len with
              | O => c :: scan r tpl (Some c) 0 t
              | S m => scan r tpl (Some c) m t
              end
          | [] => []
          end
      | None =>
          match s with
          | c :: t => c :: scan r tpl (Some c) 0 t
          | [] => []
          end
      end
  end.

(** [re.sub(pattern, repl, text)] *)
Definition sub (r : regex) (tpl : list ritem) (s : str) : str :=
  scan r tpl None 0 s.

(** Whether the pattern matches somewhere from here on ([re.search]). *)
Fixpoint found (r : regex) (pv : option char) (s : str) : bool :=
  match match_at r pv s with
  | Some _ => true
  | None =>
      match s with
      | c :: t => found r (Some c) t
      | [] => false
      end
  end.

Definition search (r : regex) (s : str) : bool := found r None s.

End Matcher.

(** The left neighbour of the position reached after reading [x]. *)
Definition prev_after (pv : option char) (x : str) : option char :=
  fold_left (fun _ c => Some c) x pv.

(** A run of class [p] cannot go on into [s]. *)
Definition stops (p : char -> bool) (s : str) : bool :=
  match s with c :: _ => negb (p c) | [] => true end.

(** Patterns without a word boundary. *)
Fixpoint bnd_free (r : regex) : bool :=
  match r with
  | Cls _ | Rep _ _ => true
  | Bnd => false
  | Seq r1 r2 => bnd_free r1 && bnd_free r2
  | Grp _ r1 => bnd_free r1
  end.

(** Two results that agree on everything but the left neighbour; two
    continuations that do not look at it. *)
Definition same_match (o1 o2 : option state) : Prop :=
  match o1, o2 with
  | None, None => True
  | Some a, Some b => rest a = rest b /\ pos a = pos b /\ caps a = caps b
  | _, _ => False
  end.

Definition blind (k1 k2 : state -> option state) : Prop :=
  forall pv1 pv2 s n cs,
    same_match (k1 (State pv1 s n cs)) (k2 (State pv2 s n cs)).

End Re.

(** ** The text normaliser (app.py, [clean_academic_text]) *)

Module Normalizer.
Import Py Re.

Section Clean.
Context {db : UnicodeDB}.

Definition is_lf (c : char) : bool := c =? LF.
Definition is_hyphen (c : char) : bool := c =? HYPHEN.

(** [\n{3,}] *)
Definition newline_run : regex := Rep is_lf 3.

(** [(\b[a-z]{2,})\s+([a-z]{2,}\b)] *)
Definition split_word : regex :=
  Seq (Grp 1 (Seq Bnd (Rep islower_az 2)))
      (Seq (Rep isspace 1)
           (Grp 2 (Seq (Rep islower_az 2) Bnd))).

(** [(\w+)-\s*\n\s*(\w+)] *)
Definition broken_hyphen : regex :=
  Seq (Grp 1 (Rep isword 1))
      (Seq (Cls is_hyphen)
           (Seq (Rep isspace 0)
                (Seq (Cls is_lf)
                     (Seq (Rep isspace 0)
                          (Grp 2 (Rep isword 1)))))).

(** [re.sub(r'\n{3,}', '\n\n', text)] *)
Definition collapse_newlines (text : str) : str :=
  sub newline_run [RLit LF; RLit LF] text.

(** [re.sub(r'(\b[a-z]{2,})\s+([a-z]{2,}\b)', r'\1\2', text)] *)
Definition merge_words (text : str) : str :=
  sub split_word [RGrp 1; RGrp 2] text.

(** [re.sub(r'(\w+)-\s*\n\s*(\w+)', r'\1\2', text)] *)
Definition rejoin_hyphens (text : str) : str :=
  sub broken_hyphen [RGrp 1; RGrp 2] text.

(** [[line.strip() for line in text.split('\n') if line.strip()]] *)
Definition stripped_lines (text : str) : list str :=
  map strip (filter (fun line => truthy (strip line)) (split LF text)).

Definition clean_academic_text (text : str) : str :=
  let text := collapse_newlines text in
  let text := merge_words text in
  let text := rejoin_hyphens text in
  let lines := stripped_lines text in
  join [LF; LF] lines.

End Clean.

(** Lowercase letters only, two or more. *)
Definition lower2 (x : str) : bool :=
  forallb islower_az x && (2 <=? length x)%nat.

(** Three line feeds at the front; three line feeds in a row somewhere. *)
Definition starts3 (s : str) : bool :=
  match s with
  | a :: b :: c :: _ => is_lf a && is_lf b && is_lf c
  | _ => false
  end.

Fixpoint lf_run3 (s : str) : bool :=
  match s with
  | [] => false
  | _ :: t => starts3 s || lf_run3 t
  end.

(** A line as the normaliser leaves it: not empty, without a line feed,
    and with nothing for [strip] to remove. *)
Definition tidy (line : str) : Prop :=
  line <> [] /\ ~ In LF line /\ strip line = line.

End Normalizer.

(** ** Exceptions and user-interface effects *)

Module Effects.
Import Py.

(** The exceptions the pipeline can meet: what the PDF library raises on a
    document or a page it cannot read, and [ValueError] (an encoding name
    the tokenizer does not know, a zero step given to [range]). *)
Inductive exn :=
| PdfError (msg : str)
| ValueError (msg : str).

(** [str(e)] *)
Definition message (e : exn) : str :=
  match e with PdfError m => m | ValueError m => m end.

(** What the page shows through [st.error]. *)
Inductive notice :=
| ExtractFailed (cause : str)     (* "Error extracting text from PDF: ..." *)
| NoText                          (* "No text could be extracted. ..." *)
| ProcessingFailed (cause : str). (* "Error processing document: ..." *)

(** The observable steps of a run, in order: calls into the PDF library
    and what is rendered on the page. *)
Inductive event :=
| FitzOpen                                   (* fitz.open(stream=...) *)
| PageText (page_num : nat)                  (* page.get_text(...) *)
| StError (n : notice)                       (* st.error(...) *)
| StException (e : exn)                      (* st.exception(e) *)
| ShowStats (chars tokens : nat)             (* the extraction results box *)
| StSuccess (num_chunks : nat)               (* "Successfully created ..." *)
| ShowChunk (i : nat) (chunk : str) (tokens : nat)  (* one chunk card *)
| Download (parts : list (nat * nat * str)). (* the bulk download: index,
                                                token count and text of
                                                each chunk *)

(** How a computation ends: with a value, with an exception, or by
    [st.stop()], which no [except Exception] clause catches. *)
Inductive outcome (A : Type) :=
| Ret (a : A)
| Raise (e : exn)
| Halt.
Arguments Ret {A} a.
Arguments Raise {A} e.
Arguments Halt {A}.

(** A computation: the events it performed and its outcome. *)
Definition io (A : Type) : Type := list event * outcome A.

Definition ret {A} (a : A) : io A := ([], Ret a).

Definition bind {A B} (m : io A) (f : A -> io B) : io B :=
  match m with
  | (ev, Ret a) => let (ev', o) := f a in (ev ++ ev', o)
  | (ev, Raise e) => (ev, Raise e)
  | (ev, Halt) => (ev, Halt)
  end.

Definition emit (e : event) : io unit := ([e], Ret tt).

Definition raise {A} (e : exn) : io A := ([], Raise e).

Definition st_stop {A} : io A := ([], Halt).

(** A call that returns or raises. *)
Definition lift {A} (r : exn + A) : io A :=
  match r with inl e => raise e | inr a => ret a end.

(** [try: body  except Exception as e: handler(e)] *)
Definition try_except {A} (body : io A) (handler : exn -> io A) : io A :=
  match body with
  | (ev, Raise e) => let (ev', o) := handler e in (ev ++ ev', o)
  | other => other
  end.

Definition trace {A} (m : io A) : list event := fst m.
Definition result {A} (m : io A) : outcome A := snd m.

Module Notations.
Notation "x <- m ;; k" := (bind m (fun x => k))
  (at level 61, m at next level, right associativity).
Notation "m ;; k" := (bind m (fun _ => k))
  (at level 61, right associativity).
End Notations.

End Effects.

(** ** The text extractor (app.py, [extract_text_from_academic_pdf]) *)

Module Extractor.
Import Py Effects Effects.Notations Normalizer.

(** The PDF library: opening a byte buffer gives the pages of the document
    or raises; reading the text of a page gives it or raises. *)
Class Fitz := {
  page : Type;
  fitz_open : list Byte.byte -> exn + list page;
  get_text : page -> exn + str
}.

Section Extract.
Context {db : UnicodeDB} {pdf : Fitz}.

(** The loop over the pages: [full_text] grows by each page whose cleaned
    text is not blank. *)
Fixpoint pages_loop (pages : list page) (page_num : nat) (full_text : str)
  : io str :=
  match pages with
  | [] => ret full_text
  | pg :: more =>
      emit (PageText page_num) ;;
      text <- lift (get_text pg) ;;
      let text := clean_academic_text text in
      let full_text :=
        if truthy (strip text) then full_text ++ text ++ [LF; LF]
        else full_text in
      pages_loop more (S page_num) full_text
  end.

Definition extract_text_from_academic_pdf (pdf_bytes : list Byte.byte)
  : io str :=
  try_except
    (emit FitzOpen ;;
     pdf_document <- lift (fitz_open pdf_bytes) ;;
     full_text <- pages_loop pdf_document 0 [] ;;
     ret (strip full_text))
    (fun e =>
       emit (StError (ExtractFailed (message e))) ;;
       ret []).

(** Whether a call raised. *)
Definition raises {A} (r : exn + A) : bool :=
  match r with inl _ => true | inr _ => false end.

(** The buffer does not open as a PDF, or one of its pages cannot be
    read. *)
Definition extraction_fails (pdf_bytes : list Byte.byte) : bool :=
  match fitz_open pdf_bytes with
  | inl _ => true
  | inr pages => existsb (fun pg => raises (get_text pg)) pages
  end.

End Extract.
End Extractor.

(** ** Token counting and chunking (app.py, [count_tokens],
       [split_text_by_tokens]) *)

Module Chunker.
Import Py Effects Effects.Notations.

Definition token := N.

(** A [tiktoken] encoding.  [encode] raises [ValueError] on a text that
    spells a special token such as [<|endoftext|>] (the default
    [disallowed_special="all"]); the empty string has no tokens. *)
Record encoding := Encoding {
  encode : str -> exn + list token;
  decode : list token -> str;
  encode_empty : encode [] = inr []
}.

(** [tiktoken.get_encoding]: the encoding of a name, or [ValueError]. *)
Class Tiktoken := {
  get_encoding : str -> exn + encoding
}.

(** [l[i:j]] for [0 <= i <= j] *)
Definition slice {A} (l : list A) (i j : nat) : list A :=
  firstn (j - i) (skipn i l).

(** The indices of [range(0, stop, step)] from [i] on, for [step > 0]. *)
Fixpoint range_from (fuel i stop step : nat) : list nat :=
  match fuel with
  | O => []
  | S fuel' =>
      if (i <? stop)%nat then i :: range_from fuel' (i + step) stop step
      else []
  end.

(** [range(0, stop, step)]: [ValueError] on a zero step, empty on a
    negative one. *)
Definition range0 (stop : nat) (step : Z) : exn + list nat :=
  if (step =? 0)%Z
  then inl (ValueError (lit "range() arg 3 must not be zero"))
  else if (step <? 0)%Z then inr []
  else inr (range_from stop 0 stop (Z.to_nat step)).

(** The windows [tokens[i:i + max_tokens]] of the loop. *)
Definition token_windows (tokens : list token) (max_tokens : nat)
  : list (list token) :=
  map (fun i => slice tokens i (i + max_tokens))
      (range_from (length tokens) 0 (length tokens) max_tokens).

Section Chunks.
Context {tk : Tiktoken}.

Definition count_tokens (text : str) (encoding_name : str) : io nat :=
  enc <- lift (get_encoding encoding_name) ;;
  tokens <- lift (encode enc text) ;;
  ret (length tokens).

Definition split_text_by_tokens (text : str) (max_tokens : Z)
    (encoding_name : str) : io (list str) :=
  enc <- lift (get_encoding encoding_name) ;;
  tokens <- lift (encode enc text) ;;
  starts <- lift (range0 (length tokens) max_tokens) ;;
  ret (map (fun i =>
              let chunk_tokens :=
                slice tokens i (i + Z.to_nat max_tokens) in
              decode enc chunk_tokens)
           starts).

End Chunks.

(** [ceil(t / m)] *)
Definition ceil_div (t m : nat) : nat := ((t + m - 1) / m)%nat.

End Chunker.

(** ** The request pipeline (app.py, [main], from the uploaded file on) *)

Module Pipeline.
Import Py Effects Effects.Notations Extractor Chunker.

Section Main.
Context {db : UnicodeDB} {pdf : Fitz} {tk : Tiktoken}.

(** The loop that renders the chunk cards, [i] counting from 1. *)
Fixpoint show_chunks (chunks : list str) (i : nat) (encoding_name : str)
  : io unit :=
  match chunks with
  | [] => ret tt
  | chunk :: more =>
      chunk_tokens <- count_tokens chunk encoding_name ;;
      emit (ShowChunk i chunk chunk_tokens) ;;
      show_chunks more (S i) encoding_name
  end.

(** The parts of the bulk download: for each chunk its number, its token
    count and its text. *)
Fixpoint export_parts (chunks : list str) (i : nat) (encoding_name : str)
  : io (list (nat * nat * str)) :=
  match chunks with
  | [] => ret []
  | chunk :: more =>
      n <- count_tokens chunk encoding_name ;;
      parts <- export_parts more (S i) encoding_name ;;
      ret ((i, n, chunk) :: parts)
  end.

Definition main (pdf_bytes : list Byte.byte) (max_tokens : Z)
    (encoding_name : str) : io unit :=
  try_except
    (extracted_text <- extract_text_from_academic_pdf pdf_bytes ;;
     (if truthy extracted_text then ret tt
      else emit (StError NoText) ;; st_stop) ;;
     let char_count := length extracted_text in
     token_count <- count_tokens extracted_text encoding_name ;;
     emit (ShowStats char_count token_count) ;;
     chunks <- split_text_by_tokens extracted_text max_tokens encoding_name ;;
     let num_chunks := length chunks in
     emit (StSuccess num_chunks) ;;
     show_chunks chunks 1 encoding_name ;;
     parts <- export_parts chunks 1 encoding_name ;;
     emit (Download parts))
    (fun e =>
       emit (StError (ProcessingFailed (message e))) ;;
       emit (StException e)).

End Main.

(** Events that are extraction work, and events that put a chunk on the
    page. *)
Definition is_extraction (e : event) : bool :=
  match e with FitzOpen | PageText _ => true | _ => false end.

Definition is_chunk_output (e : event) : bool :=
  match e with ShowChunk _ _ _ | Download _ | StSuccess _ => true
             | _ => false end.

End Pipeline.

(** ** The download link (app.py, [create_download_link]) *)

Module Download.
Import Py.

(** The UTF-8 bytes of a character; a surrogate has none
    ([UnicodeEncodeError]), and above U+10FFFF there is no character. *)
Definition utf8_char (c : char) : option (list N) :=
  if c <? 128 then Some [c]
  else if c <? 2048 then Some [192 + c / 64; 128 + c mod 64]
  else if c <? 65536 then
    if between 55296 57343 c then None
    else Some [224 + c / 4096; 128 + (c / 64) mod 64; 128 + c mod 64]
  else if c <? 1114112 then
    Some [240 + c / 262144; 128 + (c / 4096) mod 64;
          128 + (c / 64) mod 64; 128 + c mod 64]
  else None.

(** [text.encode()] *)
Fixpoint encode_utf8 (text : str) : option (list N) :=
  match text with
  | [] => Some []
  | c :: more =>
      match utf8_char c, encode_utf8 more with
      | Some bs, Some rest => Some (bs ++ rest)
      | _, _ => None
      end
  end.

(** The base64 alphabet: [A-Z], [a-z], [0-9], [+], [/]. *)
Definition b64_char (i : N) : char :=
  if i <? 26 then 65 + i
  else if i <? 52 then 71 + i
  else if i <? 62 then i - 4
  else if i =? 62 then 43
  else 47.

Definition PAD : char := 61.

(** [base64.b64encode(data).decode()]: three bytes give four characters,
    a last group of one or two bytes is padded with [=]. *)
Fixpoint b64encode (data : list N) : str :=
  match data with
  | [] => []
  | [a] => [b64_char (a / 4); b64_char ((a mod 4) * 16); PAD; PAD]
  | [a; b] =>
      [b64_char (a / 4); b64_char ((a mod 4) * 16 + b / 16);
       b64_char ((b mod 16) * 4); PAD]
  | a :: b :: c :: more =>
      b64_char (a / 4) :: b64_char ((a mod 4) * 16 + b / 16)
      :: b64_char ((b mod 16) * 4 + c / 64) :: b64_char (c mod 64)
      :: b64encode more
  end.

Definition link_prefix : str := lit "data:text/plain;base64,".

(** [create_download_link(text, filename)]; [None] when encoding the text
    raises.  The file name takes no part in the result. *)
Definition create_download_link (text : str) (filename : str)
  : option str :=
  match encode_utf8 text with
  | Some data => Some (link_prefix ++ b64encode data)
  | None => None
  end.

Definition is_surrogate (c : char) : bool := between 55296 57343 c.

(** A character a link may hold. *)
Definition b64_symbol (c : char) : bool :=
  between 65 90 c || between 97 122 c || between 48 57 c
  || (c =? 43) || (c =? 47) || (c =? PAD).

(** Reading a link back, as its receiver does: the value of a symbol,
    the bytes of a payload, the characters of the bytes. *)
Definition b64_index (c : char) : N :=
  if between 65 90 c then c - 65
  else if between 97 122 c then c - 71
  else if between 48 57 c then c + 4
  else if c =? 43 then 62
  else 63.

Fixpoint b64decode (payload : str) : list N :=
  match payload with
  | c0 :: c1 :: c2 :: c3 :: more =>
      let i0 := b64_index c0 in
      let i1 := b64_index c1 in
      let i2 := b64_index c2 in
      let i3 := b64_index c3 in
      if c2 =? PAD then [i0 * 4 + i1 / 16]
      else if c3 =? PAD
      then [i0 * 4 + i1 / 16; (i1 mod 16) * 16 + i2 / 4]
      else (i0 * 4 + i1 / 16) :: ((i1 mod 16) * 16 + i2 / 4)
           :: ((i2 mod 4) * 64 + i3) :: b64decode more
  | _ => []
  end.

Fixpoint decode_utf8 (data : list N) : str :=
  match data with
  | [] => []
  | b0 :: t =>
      if b0 <? 128 then b0 :: decode_utf8 t
      else if b0 <? 224 then
        match t with
        | b1 :: t1 => ((b0 - 192) * 64 + (b1 - 128)) :: decode_utf8 t1
        | _ => []
        end
      else if b0 <? 240 then
        match t with
        | b1 :: b2 :: t2 =>
            ((b0 - 224) * 4096 + (b1 - 128) * 64 + (b2 - 128))
            :: decode_utf8 t2
        | _ => []
        end
      else
        match t with
        | b1 :: b2 :: b3 :: t3 =>
            ((b0 - 240) * 262144 + (b1 - 128) * 4096 + (b2 - 128) * 64
             + (b3 - 128)) :: decode_utf8 t3
        | _ => []
        end
  end.

End Download.

(** ** What the page derives from the chunks (app.py, [main]) *)

Module Report.
Import Py Download.

(** [chunk[:300] + "..." if len(chunk) > 300 else chunk] *)
Definition preview (chunk : str) : str :=
  if (300 <? length chunk)%nat then firstn 300 chunk ++ lit "..."
  else chunk.

(** [token_count // num_chunks if num_chunks > 0 else 0] *)
Definition average_tokens (token_count num_chunks : nat) : nat :=
  if (0 <? num_chunks)%nat then (token_count / num_chunks)%nat else 0%nat.

(** The decimal digits of a number, as a format field [{n}] gives them. *)
Fixpoint uint_chars (u : Decimal.uint) : str :=
  match u with
  | Decimal.Nil => []
  | Decimal.D0 u => 48 :: uint_chars u
  | Decimal.D1 u => 49 :: uint_chars u
  | Decimal.D2 u => 50 :: uint_chars u
  | Decimal.D3 u => 51 :: uint_chars u
  | Decimal.D4 u => 52 :: uint_chars u
  | Decimal.D5 u => 53 :: uint_chars u
  | Decimal.D6 u => 54 :: uint_chars u
  | Decimal.D7 u => 55 :: uint_chars u
  | Decimal.D8 u => 56 :: uint_chars u
  | Decimal.D9 u => 57 :: uint_chars u
  end.

Definition str_of_nat (n : nat) : str := uint_chars (Nat.to_uint n).

Definition COMMA : char := 44.

(** A comma after every third digit, on the digits from the right. *)
Fixpoint group3 (digits : str) : str :=
  match digits with
  | a :: b :: c :: more =>
      match more with
      | [] => [a; b; c]
      | _ :: _ => a :: b :: c :: COMMA :: group3 more
      end
  | _ => digits
  end.

(** The format field [{n:,}]. *)
Definition with_commas (n : nat) : str :=
  rev (group3 (rev (str_of_nat n))).

(** [f"=== CHUNK {i+1} ({count_tokens(chunk, encoding_name):,} tokens) ===\n"],
    [i] being the number of the chunk counted from 1. *)
Definition part_header (i n : nat) : str :=
  lit "=== CHUNK " ++ str_of_nat i ++ lit " (" ++ with_commas n
  ++ lit " tokens) ===\n".

Definition part_text (part : nat * nat * str) : str :=
  let '(i, n, chunk) := part in part_header i n ++ chunk.

(** The text of the bulk download. *)
Definition all_chunks (parts : list (nat * nat * str)) : str :=
  [LF; LF] ++ join [LF; LF] (map part_text parts).

End Report.

(** ** Concrete libraries, for running the pipeline on examples *)

Module Examples.
Import Py Effects Extractor Chunker.

(** The alphanumeric code points of Latin-1 beyond ASCII; nothing above. *)
Definition latin1_alnum (c : char) : bool :=
  (c =? 170) || (c =? 178) || (c =? 179) || (c =? 181) || (c =? 185)
  || (c =? 186) || between 188 190 c || between 192 214 c
  || between 216 246 c || between 248 255 c.

#[export] Program Instance latin1 : UnicodeDB :=
  {| uni_alnum := latin1_alnum |}.
Next Obligation.
  unfold latin1_alnum, isspace, between in *.
  repeat match goal with
  | H : (_ || _)%bool = true |- _ => apply orb_true_iff in H; destruct H
  | H : (_ && _)%bool = true |- _ => apply andb_true_iff in H; destruct H
  | H : (_ =? _) = true |- _ => apply N.eqb_eq in H
  | H : (_ <=? _) = true |- _ => apply N.leb_le in H
  end;
  repeat match goal with
  | |- (_ || _)%bool = false => apply orb_false_iff; split
  | |- (_ && _)%bool = false => apply andb_false_iff
  | |- (_ =? _) = false => apply N.eqb_neq; lia
  end;
  try (left; apply N.leb_gt; lia); try (right; apply N.leb_gt; lia).
Qed.

(** A PDF library for examples: a buffer that starts with the byte [%]
    opens as a one-page document whose text is the rest of the buffer; a
    page whose text starts with NUL cannot be read. *)
Definition sample_open (b : list Byte.byte) : exn + list str :=
  match b with
  | Byte.x25 :: more => inr [map Byte.to_N more]
  | _ => inl (PdfError (lit "cannot open broken document"))
  end.

Definition sample_get_text (pg : str) : exn + str :=
  match pg with
  | 0 :: _ => inl (PdfError (lit "cannot read page"))
  | _ => inr pg
  end.

#[export] Instance sample_fitz : Fitz :=
  {| page := str; fitz_open := sample_open; get_text := sample_get_text |}.

(** An encoding with byte fallback: an ASCII character is one token, any
    other character a lead token followed by a trail token; a text in
    which the special token [<|endoftext|>] is spelled out is refused;
    decoding puts U+FFFD where a lead token has no trail or a trail no
    lead, as [errors="replace"] does. *)
Definition sample_encode_char (c : char) : list token :=
  if c <? 128 then [c] else [256 + c / 64; 128 + c mod 64].

Definition sample_tokens (s : str) : list token :=
  flat_map sample_encode_char s.

Fixpoint starts_with (p s : str) : bool :=
  match p, s with
  | [], _ => true
  | a :: p', b :: s' => (a =? b) && starts_with p' s'
  | _ :: _, [] => false
  end.

Fixpoint occurs (p s : str) : bool :=
  starts_with p s
  || match s with [] => false | _ :: t => occurs p t end.

Definition SPECIAL : str := lit "<|endoftext|>".

Definition sample_encode (s : str) : exn + list token :=
  if occurs SPECIAL s
  then inl (ValueError
              (lit "Encountered text corresponding to disallowed special token '<|endoftext|>'."))
  else inr (sample_tokens s).

Fixpoint sample_decode (ts : list token) : str :=
  match ts with
  | [] => []
  | t :: more =>
      if t <? 128 then t :: sample_decode more
      else if 256 <=? t then
        match more with
        | l :: more' =>
            if between 128 191 l
            then ((t - 256) * 64 + (l - 128)) :: sample_decode more'
            else REPLACEMENT :: sample_decode more
        | [] => [REPLACEMENT]
        end
      else REPLACEMENT :: sample_decode more
  end.

Definition sample_encoding : encoding :=
  Encoding sample_encode sample_decode eq_refl.

Fixpoint str_eqb (a b : str) : bool :=
  match a, b with
  | [], [] => true
  | x :: a', y :: b' => (x =? y) && str_eqb a' b'
  | _, _ => false
  end.

(** The three names the page offers; every other name is unknown. *)
Definition sample_get_encoding (name : str) : exn + encoding :=
  if str_eqb name (lit "cl100k_base") || str_eqb name (lit "p50k_base")
     || str_eqb name (lit "r50k_base")
  then inr sample_encoding
  else inl (ValueError (lit "Unknown encoding")).

#[export] Instance sample_tiktoken : Tiktoken :=
  {| get_encoding := sample_get_encoding |}.

End Examples.

(** * Verification *)

(** ** The chunker *)

Module ChunkerFacts.
Import Py Effects Chunker Examples.
Local Open Scope nat_scope.

Lemma ceil_div_zero (m : nat) : 1 <= m -> ceil_div 0 m = 0.
Proof.
  intros Hm. unfold ceil_div. apply Nat.div_small. lia.
Qed.

Lemma ceil_div_step (d m : nat) :
  1 <= d -> 1 <= m -> ceil_div d m = S (ceil_div (d - m) m).
Proof.
  intros Hd Hm. unfold ceil_div.
  replace (d + m - 1) with ((d - 1) + 1 * m) by lia.
  rewrite Nat.div_add by lia.
  destruct (Nat.le_gt_cases m d) as [Hle | Hgt].
  - replace (d - m + m - 1) with (d - 1) by lia. lia.
  - replace (d - m + m - 1) with (m - 1) by lia.
    rewrite (Nat.div_small (d - 1)) by lia.
    rewrite (Nat.div_small (m - 1)) by lia. reflexivity.
Qed.

Lemma ceil_div_covers (t m : nat) : 1 <= m -> t <= ceil_div t m * m.
Proof.
  intros Hm. unfold ceil_div.
  pose proof (Nat.div_mod_eq (t + m - 1) m) as E.
  pose proof (Nat.mod_upper_bound (t + m - 1) m) as B.
  nia.
Qed.

Lemma ceil_div_tight (t m k : nat) :
  1 <= m -> k < ceil_div t m -> k * m < t.
Proof.
  intros Hm Hk. unfold ceil_div in Hk.
  pose proof (Nat.div_mod_eq (t + m - 1) m) as E.
  pose proof (Nat.mod_upper_bound (t + m - 1) m) as B.
  nia.
Qed.

(** The loop indices are the multiples of the step below the stop. *)
Lemma range_from_multiples (fuel i stop m : nat) :
  1 <= m -> stop - i <= fuel ->
  range_from fuel i stop m =
  map (fun k => i + k * m) (seq 0 (ceil_div (stop - i) m)).
Proof.
  intros Hm. revert i.
  induction fuel as [| fuel IH]; intros i Hf; simpl.
  - replace (stop - i) with 0 by lia. now rewrite ceil_div_zero.
  - destruct (Nat.ltb_spec i stop) as [Hlt | Hge].
    + rewrite (ceil_div_step (stop - i) m) by lia.
      rewrite IH by lia. simpl. f_equal.
      * lia.
      * rewrite <- seq_shift, map_map.
        replace (stop - (i + m)) with (stop - i - m) by lia.
        apply map_ext. intros k. lia.
    + replace (stop - i) with 0 by lia. now rewrite ceil_div_zero.
Qed.

Lemma token_windows_slices (tokens : list token) (m : nat) :
  1 <= m ->
  token_windows tokens m =
  map (fun k => slice tokens (k * m) (k * m + m))
      (seq 0 (ceil_div (length tokens) m)).
Proof.
  intros Hm. unfold token_windows.
  rewrite range_from_multiples by lia.
  rewrite map_map, Nat.sub_0_r. reflexivity.
Qed.

Lemma firstn_then_slice {A} (l : list A) (a b : nat) :
  firstn a l ++ slice l a (a + b) = firstn (a + b) l.
Proof.
  unfold slice. replace (a + b - a) with b by lia.
  revert l. induction a as [| a IH]; intros l; simpl.
  - reflexivity.
  - destruct l as [| x l]; simpl.
    + now rewrite firstn_nil.
    + now rewrite IH.
Qed.

Lemma concat_slices {A} (l : list A) (m n : nat) :
  concat (map (fun k => slice l (k * m) (k * m + m)) (seq 0 n))
  = firstn (n * m) l.
Proof.
  induction n as [| n IH].
  - reflexivity.
  - rewrite seq_S, map_app, concat_app, IH. simpl.
    rewrite app_nil_r, firstn_then_slice. f_equal. lia.
Qed.

Lemma token_windows_concat (tokens : list token) (m : nat) :
  1 <= m -> concat (token_windows tokens m) = tokens.
Proof.
  intros Hm. rewrite token_windows_slices, concat_slices by assumption.
  apply firstn_all2. now apply ceil_div_covers.
Qed.

Lemma token_windows_length (tokens : list token) (m : nat) :
  1 <= m -> length (token_windows tokens m) = ceil_div (length tokens) m.
Proof.
  intros Hm. rewrite token_windows_slices by assumption.
  now rewrite length_map, length_seq.
Qed.

Lemma slice_length {A} (l : list A) (a b : nat) :
  length (slice l a (a + b)) = Nat.min b (length l - a).
Proof.
  unfold slice. rewrite length_firstn, length_skipn. f_equal. lia.
Qed.

Lemma token_windows_nth (tokens : list token) (m k : nat) :
  1 <= m -> k < length (token_windows tokens m) ->
  nth k (token_windows tokens m) [] = slice tokens (k * m) (k * m + m).
Proof.
  intros Hm Hk. rewrite token_windows_length in Hk by assumption.
  rewrite token_windows_slices by assumption.
  rewrite (nth_indep _ [] (slice tokens (0 * m) (0 * m + m)))
    by now rewrite length_map, length_seq.
  rewrite (map_nth (fun k => slice tokens (k * m) (k * m + m))).
  now rewrite seq_nth.
Qed.

Section WithTiktoken.
Context {tk : Tiktoken}.

(** With a known encoding, a text the tokenizer encodes and a positive
    window size the chunker returns, without raising, the decoded
    windows. *)
Lemma split_text_by_tokens_returns (text : str) (max_tokens : Z)
    (name : str) (enc : encoding) (tokens : list token) :
  (1 <= max_tokens)%Z -> get_encoding name = inr enc ->
  encode enc text = inr tokens ->
  split_text_by_tokens text max_tokens name =
  ([], Ret (map (decode enc) (token_windows tokens (Z.to_nat max_tokens)))).
Proof.
  intros Hm Henc Ht. unfold split_text_by_tokens, range0.
  rewrite Henc. unfold bind, lift, ret, raise. rewrite Ht.
  destruct (Z.eqb_spec max_tokens 0) as [E | _]; [lia |].
  destruct (Z.ltb_spec max_tokens 0) as [E | _]; [lia |].
  cbn [app]. unfold token_windows. now rewrite map_map.
Qed.

(** A text the tokenizer refuses: the chunker raises what the tokenizer
    raised, whatever the window size. *)
Lemma split_text_by_tokens_refused (text : str) (max_tokens : Z)
    (name : str) (enc : encoding) (e : exn) :
  get_encoding name = inr enc -> encode enc text = inl e ->
  split_text_by_tokens text max_tokens name = ([], Raise e).
Proof.
  intros Henc Ht. unfold split_text_by_tokens.
  rewrite Henc. unfold bind, lift, ret, raise. now rewrite Ht.
Qed.

End WithTiktoken.

Lemma sample_decode_char (c : char) (more : list token) :
  sample_decode (sample_encode_char c ++ more) = c :: sample_decode more.
Proof.
  unfold sample_encode_char.
  destruct (N.ltb_spec c 128) as [Hlo | Hhi].
  - cbn [app sample_decode].
    destruct (N.ltb_spec c 128); [reflexivity | lia].
  - cbn [app sample_decode].
    pose proof (N.div_mod c 64 ltac:(discriminate)) as E.
    assert (Hm : (c mod 64 < 64)%N) by (apply N.mod_lt; discriminate).
    revert E Hm. generalize (c / 64)%N (c mod 64)%N. intros q r E Hm.
    destruct (N.ltb_spec (256 + q) 128); [lia |].
    destruct (N.leb_spec 256 (256 + q)); [| lia].
    unfold between.
    destruct (N.leb_spec 128 (128 + r)); [| lia].
    destruct (N.leb_spec (128 + r) 191); [| lia].
    cbn [andb]. f_equal. lia.
Qed.

Lemma sample_roundtrip (s : str) (ts : list token) :
  sample_encode s = inr ts -> sample_decode ts = s.
Proof.
  unfold sample_encode. destruct (occurs SPECIAL s); [discriminate |].
  intros H. injection H as <-.
  induction s as [| c s IH]; [reflexivity |].
  unfold sample_tokens in *. cbn [flat_map].
  now rewrite sample_decode_char, IH.
Qed.

(** C1, as stated, fails: an encoding that decodes every text it encoded
    back to that text, a one-character text and windows of one token; the
    two chunks are cut inside the character, each decodes to U+FFFD, and
    their re-encodings do not add up to the tokens of the text. *)
Lemma reencoded_chunks_differ :
  (forall s ts, encode sample_encoding s = inr ts ->
                decode sample_encoding ts = s) /\
  exists tokens chunks reencoded,
    encode sample_encoding [233%N] = inr tokens /\
    split_text_by_tokens [233%N] 1 (lit "cl100k_base") = ([], Ret chunks) /\
    chunks = [[REPLACEMENT]; [REPLACEMENT]] /\
    map (encode sample_encoding) chunks = map inr reencoded /\
    concat reencoded <> tokens.
Proof.
  split; [exact sample_roundtrip |].
  exists [259%N; 169%N], [[REPLACEMENT]; [REPLACEMENT]],
    [[1279%N; 189%N]; [1279%N; 189%N]].
  split; [reflexivity |]. split; [reflexivity |]. split; [reflexivity |].
  split; [reflexivity |]. discriminate.
Qed.

(** C1 (amended): for every [max_tokens >= 1] and every text the
    tokenizer encodes, the chunker returns the decoded windows of the
    token sequence; the windows are the consecutive slices
    [tokens[k*M : k*M + M]], none empty, and their concatenation is the
    token sequence, no token twice and none missing; re-encoding the chunk
    texts gives the windows back whenever each window is what its decoded
    text encodes to.  On a text the tokenizer refuses the chunker raises
    the tokenizer's error and returns nothing. *)
Theorem chunk_partition {tk : Tiktoken} (text : str) (max_tokens : Z)
    (name : str) (enc : encoding) :
  (1 <= max_tokens)%Z -> get_encoding name = inr enc ->
  match encode enc text with
  | inl e => split_text_by_tokens text max_tokens name = ([], Raise e)
  | inr tokens =>
      let m := Z.to_nat max_tokens in
      let windows := token_windows tokens m in
      split_text_by_tokens text max_tokens name
        = ([], Ret (map (decode enc) windows)) /\
      concat windows = tokens /\
      (forall k, k < length windows ->
         nth k windows [] = slice tokens (k * m) (k * m + m) /\
         nth k windows [] <> []) /\
      (Forall (fun w => encode enc (decode enc w) = inr w) windows ->
       map (encode enc) (map (decode enc) windows) = map inr windows)
  end.
Proof.
  intros Hm Henc.
  destruct (encode enc text) as [e | tokens] eqn:Ht.
  - now apply (split_text_by_tokens_refused text max_tokens name enc).
  - intros m windows.
    assert (Hm' : 1 <= m) by (unfold m; lia).
    split; [now apply split_text_by_tokens_returns |].
    split; [now apply token_windows_concat |].
    split.
    + intros k Hk. split; [now apply token_windows_nth |].
      unfold windows in *. rewrite token_windows_nth by assumption.
      rewrite token_windows_length in Hk by assumption.
      apply ceil_div_tight in Hk; [| assumption].
      intros E. apply (f_equal (@length _)) in E.
      rewrite slice_length in E. simpl in E. lia.
    + intros Hrt. rewrite map_map.
      apply map_ext_in. intros w Hw.
      rewrite Forall_forall in Hrt. now apply Hrt.
Qed.

Lemma chunk_partition_witness :
  match encode sample_encoding (lit "hello world") with
  | inl e =>
      split_text_by_tokens (lit "hello world") 4 (lit "cl100k_base")
      = ([], Raise e)
  | inr tokens =>
      let m := Z.to_nat 4 in
      let windows := token_windows tokens m in
      split_text_by_tokens (lit "hello world") 4 (lit "cl100k_base")
        = ([], Ret (map (decode sample_encoding) windows)) /\
      concat windows = tokens /\
      (forall k, k < length windows ->
         nth k windows [] = slice tokens (k * m) (k * m + m) /\
         nth k windows [] <> []) /\
      (Forall (fun w => encode sample_encoding (decode sample_encoding w)
                        = inr w) windows ->
       map (encode sample_encoding) (map (decode sample_encoding) windows)
       = map inr windows)
  end.
Proof.
  apply (chunk_partition (tk := sample_tiktoken) (lit "hello world") 4
           (lit "cl100k_base") sample_encoding).
  - lia.
  - reflexivity.
Defined.

(** C2: for every text and every [max_tokens >= 1], every window the
    chunker decodes has at most [max_tokens] tokens, and every window but
    the last has exactly [max_tokens]; a text the tokenizer refuses gives
    no chunk, the chunker raises the tokenizer's error. *)
Theorem chunk_size_bound {tk : Tiktoken} (text : str) (max_tokens : Z)
    (name : str) (enc : encoding) :
  (1 <= max_tokens)%Z -> get_encoding name = inr enc ->
  match encode enc text with
  | inl e => split_text_by_tokens text max_tokens name = ([], Raise e)
  | inr tokens =>
      let m := Z.to_nat max_tokens in
      let windows := token_windows tokens m in
      split_text_by_tokens text max_tokens name
        = ([], Ret (map (decode enc) windows)) /\
      Forall (fun w => length w <= m) windows /\
      (forall k, S k < length windows -> length (nth k windows []) = m)
  end.
Proof.
  intros Hm Henc.
  destruct (encode enc text) as [e | tokens] eqn:Ht.
  - now apply (split_text_by_tokens_refused text max_tokens name enc).
  - intros m windows.
    assert (Hm' : 1 <= m) by (unfold m; lia).
    split; [now apply split_text_by_tokens_returns |].
    split.
    + unfold windows. rewrite token_windows_slices by assumption.
      apply Forall_forall. intros w Hw.
      apply in_map_iff in Hw. destruct Hw as [k [<- _]].
      rewrite slice_length. lia.
    + intros k Hk. unfold windows in *.
      rewrite token_windows_nth by lia.
      rewrite token_windows_length in Hk by assumption.
      apply ceil_div_tight in Hk; [| assumption].
      rewrite slice_length. simpl in Hk. lia.
Qed.

Lemma chunk_size_bound_witness :
  match encode sample_encoding (lit "hello world") with
  | inl e =>
      split_text_by_tokens (lit "hello world") 4 (lit "cl100k_base")
      = ([], Raise e)
  | inr tokens =>
      let m := Z.to_nat 4 in
      let windows := token_windows tokens m in
      split_text_by_tokens (lit "hello world") 4 (lit "cl100k_base")
        = ([], Ret (map (decode sample_encoding) windows)) /\
      Forall (fun w => length w <= m) windows /\
      (forall k, S k < length windows -> length (nth k windows []) = m)
  end.
Proof.
  apply (chunk_size_bound (tk := sample_tiktoken) (lit "hello world") 4
           (lit "cl100k_base") sample_encoding).
  - lia.
  - reflexivity.
Defined.

(** C4: for a token sequence of length T and a window size M >= 1 the
    chunker returns exactly ceil(T / M) chunks, none when there is no
    token; the empty text gives no chunk at all.  (A text the tokenizer
    refuses has no token sequence: the chunker raises.) *)
Theorem chunk_count {tk : Tiktoken} (text : str) (max_tokens : Z)
    (name : str) (enc : encoding) :
  (1 <= max_tokens)%Z -> get_encoding name = inr enc ->
  match encode enc text with
  | inl e => split_text_by_tokens text max_tokens name = ([], Raise e)
  | inr tokens =>
      exists chunks,
        split_text_by_tokens text max_tokens name = ([], Ret chunks) /\
        length chunks = ceil_div (length tokens) (Z.to_nat max_tokens) /\
        (tokens = [] -> chunks = [])
  end /\
  split_text_by_tokens [] max_tokens name = ([], Ret []).
Proof.
  intros Hm Henc.
  assert (Hm' : 1 <= Z.to_nat max_tokens) by lia.
  split.
  - destruct (encode enc text) as [e | tokens] eqn:Ht.
    + now apply (split_text_by_tokens_refused text max_tokens name enc).
    + eexists.
      split; [exact (split_text_by_tokens_returns text max_tokens name enc
                       tokens Hm Henc Ht) |].
      split.
      * rewrite length_map. apply token_windows_length. exact Hm'.
      * intros E. rewrite E. reflexivity.
  - rewrite (split_text_by_tokens_returns [] max_tokens name enc []
               Hm Henc (encode_empty enc)).
    reflexivity.
Qed.

Lemma chunk_count_witness :
  match encode sample_encoding (lit "hello world") with
  | inl e =>
      split_text_by_tokens (lit "hello world") 4 (lit "cl100k_base")
      = ([], Raise e)
  | inr tokens =>
      exists chunks,
        split_text_by_tokens (lit "hello world") 4 (lit "cl100k_base")
          = ([], Ret chunks) /\
        length chunks = ceil_div (length tokens) (Z.to_nat 4) /\
        (tokens = [] -> chunks = [])
  end /\
  split_text_by_tokens [] 4 (lit "cl100k_base") = ([], Ret []).
Proof.
  apply (chunk_count (tk := sample_tiktoken) (lit "hello world") 4
           (lit "cl100k_base") sample_encoding).
  - lia.
  - reflexivity.
Defined.

End ChunkerFacts.

(** ** The extractor and the request pipeline *)

Module PipelineFacts.
Import Py Effects Effects.Notations Extractor Chunker Pipeline Examples.
Local Open Scope nat_scope.

Section Runs.
Context {db : UnicodeDB} {pdf : Fitz}.

(** The page loop raises exactly when a page cannot be read; it never
    stops the script and shows nothing but page reads. *)
Lemma pages_loop_outcome (pages : list page) (n : nat) (acc : str) :
  exists ev,
    Forall (fun e => is_chunk_output e = false) ev /\
    if existsb (fun pg => raises (get_text pg)) pages
    then exists e, pages_loop pages n acc = (ev, Raise e)
    else exists s, pages_loop pages n acc = (ev, Ret s).
Proof.
  revert n acc. induction pages as [| pg more IH]; intros n acc.
  - exists []. split; [constructor |]. simpl. now exists acc.
  - cbn [pages_loop existsb].
    destruct (get_text pg) as [e | text] eqn:Hpg; cbn [raises orb].
    + exists [PageText n]. split; [repeat constructor |].
      exists e. reflexivity.
    + set (acc' := if truthy (strip (Normalizer.clean_academic_text text))
                   then acc ++ Normalizer.clean_academic_text text
                            ++ [LF; LF]
                   else acc).
      destruct (IH (S n) acc') as [ev [Hev Hres]].
      exists (PageText n :: ev). split; [constructor; [reflexivity | exact Hev] |].
      destruct (existsb _ more).
      * destruct Hres as [e He]. exists e.
        unfold bind, emit, lift, ret. cbn. fold acc'. now rewrite He.
      * destruct Hres as [s Hs]. exists s.
        unfold bind, emit, lift, ret. cbn. fold acc'. now rewrite Hs.
Qed.

(** The extractor never raises: it returns the stripped text, or reports
    the failure with [st.error] and returns the empty string. *)
Lemma extract_outcome (b : list Byte.byte) :
  exists ev,
    Forall (fun e => is_chunk_output e = false) ev /\
    if extraction_fails b
    then exists cause,
           extract_text_from_academic_pdf b
           = (FitzOpen :: ev ++ [StError (ExtractFailed cause)], Ret [])
    else exists text,
           extract_text_from_academic_pdf b = (FitzOpen :: ev, Ret text).
Proof.
  unfold extraction_fails, extract_text_from_academic_pdf.
  destruct (fitz_open b) as [e | pages] eqn:Hopen.
  - exists []. split; [constructor |]. exists (message e). reflexivity.
  - destruct (pages_loop_outcome pages 0 []) as [ev [Hev Hres]].
    exists ev. split; [exact Hev |].
    destruct (existsb _ pages).
    + destruct Hres as [e He]. exists (message e).
      unfold bind, emit, lift, ret, try_except. cbn. now rewrite He.
    + destruct Hres as [s Hs]. exists (strip s).
      unfold bind, emit, lift, ret, try_except. cbn. rewrite Hs.
      cbn. now rewrite app_nil_r.
Qed.

Context {tk : Tiktoken}.

(** No text: the page says so and the script stops. *)
Lemma main_no_text (b : list Byte.byte) (max_tokens : Z) (name : str)
    (ev : list event) :
  extract_text_from_academic_pdf b = (ev, Ret []) ->
  main b max_tokens name = (ev ++ [StError NoText], Halt).
Proof.
  intros H. unfold main. rewrite H.
  unfold bind, emit, st_stop, try_except. cbn. reflexivity.
Qed.

(** Some text and an encoding name the tokenizer rejects: the error
    surfaces at the first token count and is shown on the page. *)
Lemma main_unknown_encoding (b : list Byte.byte) (max_tokens : Z)
    (name : str) (ev : list event) (text : str) (e : exn) :
  extract_text_from_academic_pdf b = (ev, Ret text) ->
  truthy text = true ->
  get_encoding name = inl e ->
  main b max_tokens name
  = (ev ++ [StError (ProcessingFailed (message e)); StException e], Ret tt).
Proof.
  intros H Ht He. unfold main. rewrite H.
  unfold count_tokens. rewrite He.
  unfold bind, emit, lift, raise, ret, try_except. rewrite Ht. cbn.
  now rewrite !app_nil_r.
Qed.

End Runs.

Lemma no_chunk_output_app (ev ev' : list event) :
  Forall (fun e => is_chunk_output e = false) ev ->
  existsb is_chunk_output ev' = false ->
  existsb is_chunk_output (ev ++ ev') = false.
Proof.
  intros H H'. rewrite existsb_app, H', orb_false_r.
  induction H as [| e ev He _ IH]; [reflexivity |].
  simpl. now rewrite He, IH.
Qed.

(** C3, as stated, fails: a buffer that does not open as a PDF; the
    extractor shows the failure on the page and returns the empty string
    to its caller, it does not raise. *)
Lemma extractor_returns_on_failure :
  fitz_open [Byte.x00]
    = inl (PdfError (lit "cannot open broken document")) /\
  extract_text_from_academic_pdf [Byte.x00]
    = ([FitzOpen;
        StError (ExtractFailed (lit "cannot open broken document"))],
       Ret []) /\
  forall e, result (extract_text_from_academic_pdf [Byte.x00]) <> Raise e.
Proof.
  split; [reflexivity |]. split; [reflexivity |].
  intros e. vm_compute. discriminate.
Qed.

Section Failure.
Context {db : UnicodeDB} {pdf : Fitz}.

(** Among pages one of which cannot be read there is a first such page. *)
Lemma first_unreadable (pages : list page) :
  existsb (fun pg => raises (get_text pg)) pages = true ->
  exists read pg more e,
    pages = read ++ pg :: more /\
    existsb (fun p => raises (get_text p)) read = false /\
    get_text pg = inl e.
Proof.
  induction pages as [| p pages IH]; [discriminate |].
  cbn [existsb]. destruct (get_text p) as [e | t] eqn:Hp.
  - intros _. exists [], p, pages, e. now repeat split.
  - cbn [raises orb]. intros H.
    destruct (IH H) as [read [pg [more [e [-> [Hr Hg]]]]]].
    exists (p :: read), pg, more, e. repeat split; [| exact Hg].
    cbn [existsb]. now rewrite Hp, Hr.
Qed.

(** The loop reads the pages up to the first one that cannot be read and
    raises what that page raised. *)
Lemma pages_loop_fails (read : list page) (pg : page) (more : list page)
    (e : exn) (n : nat) (acc : str) :
  existsb (fun p => raises (get_text p)) read = false ->
  get_text pg = inl e ->
  pages_loop (read ++ pg :: more) n acc
  = (map PageText (seq n (S (length read))), Raise e).
Proof.
  intros Hr Hg. revert n acc.
  induction read as [| p read IH]; intros n acc.
  - cbn [app pages_loop]. rewrite Hg. reflexivity.
  - cbn [existsb] in Hr. apply orb_false_iff in Hr. destruct Hr as [Hp Hr].
    destruct (get_text p) as [e' | t] eqn:Hpt; [discriminate |].
    cbn [app pages_loop]. rewrite Hpt.
    unfold bind, emit, lift, ret. rewrite (IH Hr).
    reflexivity.
Qed.

Lemma page_reads_no_output (l : list nat) :
  Forall (fun e => is_chunk_output e = false) (map PageText l).
Proof.
  induction l as [| n l IH]; constructor; [reflexivity | exact IH].
Qed.

End Failure.

(** C3 (amended): for every buffer that does not open as a PDF or has a
    page that cannot be read, the extractor catches the exception (that
    of [fitz.open], or that of the first page that cannot be read, after
    the pages before it were read), shows its message with [st.error],
    drops whatever text the earlier pages gave and returns the empty
    string; the pipeline then reports that no text could be extracted and
    stops, and no chunk is put on the page. *)
Theorem extraction_failure_stops_pipeline {db : UnicodeDB} {pdf : Fitz}
    {tk : Tiktoken} (b : list Byte.byte) (max_tokens : Z) (name : str) :
  extraction_fails b = true ->
  exists ev e,
    (fitz_open b = inl e /\ ev = [FitzOpen] \/
     exists read pg more,
       fitz_open b = inr (read ++ pg :: more) /\
       existsb (fun p => raises (get_text p)) read = false /\
       get_text pg = inl e /\
       ev = FitzOpen :: map PageText (seq 0 (S (length read)))) /\
    extract_text_from_academic_pdf b
      = (ev ++ [StError (ExtractFailed (message e))], Ret []) /\
    main b max_tokens name
      = (ev ++ [StError (ExtractFailed (message e)); StError NoText],
         Halt) /\
    existsb is_chunk_output (trace (main b max_tokens name)) = false.
Proof.
  intros Hfail.
  assert (Hx : exists ev e,
            (fitz_open b = inl e /\ ev = [FitzOpen] \/
             exists read pg more,
               fitz_open b = inr (read ++ pg :: more) /\
               existsb (fun p => raises (get_text p)) read = false /\
               get_text pg = inl e /\
               ev = FitzOpen :: map PageText (seq 0 (S (length read)))) /\
            Forall (fun x => is_chunk_output x = false) ev /\
            extract_text_from_academic_pdf b
              = (ev ++ [StError (ExtractFailed (message e))], Ret [])).
  { unfold extraction_fails in Hfail.
    unfold extract_text_from_academic_pdf.
    destruct (fitz_open b) as [e | pages] eqn:Hopen.
    - exists [FitzOpen], e. split; [now left |].
      split; [repeat constructor | reflexivity].
    - destruct (first_unreadable pages Hfail)
        as [read [pg [more [e [-> [Hr Hg]]]]]].
      exists (FitzOpen :: map PageText (seq 0 (S (length read)))), e.
      split; [right; now exists read, pg, more |].
      split; [constructor; [reflexivity | apply page_reads_no_output] |].
      unfold bind, emit, lift, ret, try_except.
      rewrite (pages_loop_fails read pg more e 0 [] Hr Hg).
      reflexivity. }
  destruct Hx as [ev [e [Hcause [Hev Hx]]]].
  exists ev, e. split; [exact Hcause |]. split; [exact Hx |].
  assert (Hmain : main b max_tokens name
            = (ev ++ [StError (ExtractFailed (message e)); StError NoText],
               Halt)).
  { rewrite (main_no_text b max_tokens name _ Hx).
    now rewrite <- app_assoc. }
  split; [exact Hmain |].
  rewrite Hmain. unfold trace, fst.
  apply no_chunk_output_app; [exact Hev | reflexivity].
Qed.

Lemma extraction_failure_stops_pipeline_witness :
  exists ev e,
    (fitz_open [Byte.x25; Byte.x00; Byte.x41] = inl e /\ ev = [FitzOpen] \/
     exists read pg more,
       fitz_open [Byte.x25; Byte.x00; Byte.x41]
         = inr (read ++ pg :: more) /\
       existsb (fun p => raises (get_text p)) read = false /\
       get_text pg = inl e /\
       ev = FitzOpen :: map PageText (seq 0 (S (length read)))) /\
    extract_text_from_academic_pdf [Byte.x25; Byte.x00; Byte.x41]
      = (ev ++ [StError (ExtractFailed (message e))], Ret []) /\
    main [Byte.x25; Byte.x00; Byte.x41] 8192 (lit "cl100k_base")
      = (ev ++ [StError (ExtractFailed (message e)); StError NoText],
         Halt) /\
    existsb is_chunk_output
      (trace (main [Byte.x25; Byte.x00; Byte.x41] 8192
                (lit "cl100k_base")))
      = false.
Proof.
  apply (extraction_failure_stops_pipeline (db := latin1)
           (pdf := sample_fitz) (tk := sample_tiktoken)
           [Byte.x25; Byte.x00; Byte.x41] 8192 (lit "cl100k_base")).
  reflexivity.
Defined.

(** C8, as stated, fails: a request with an encoding name outside the
    supported set; the document is opened and its page read before the
    name is looked up, and only then the error is shown. *)
Lemma encoding_checked_after_extraction :
  get_encoding (lit "bogus") = inl (ValueError (lit "Unknown encoding")) /\
  main [Byte.x25; Byte.x68; Byte.x69] 8192 (lit "bogus")
    = ([FitzOpen; PageText 0;
        StError (ProcessingFailed (lit "Unknown encoding"));
        StException (ValueError (lit "Unknown encoding"))], Ret tt) /\
  existsb is_extraction
    (trace (main [Byte.x25; Byte.x68; Byte.x69] 8192 (lit "bogus"))) = true.
Proof.
  split; [reflexivity |]. split; vm_compute; reflexivity.
Qed.

(** C8 (amended): for every request whose encoding name the tokenizer
    rejects, the extractor runs first and to its end; if it gave text, the
    error of the name surfaces at the first token count and is shown on
    the page, otherwise the script has stopped before the name is looked
    up; in both cases no chunk is put on the page. *)
Theorem unknown_encoding_after_extraction {db : UnicodeDB} {pdf : Fitz}
    {tk : Tiktoken} (b : list Byte.byte) (max_tokens : Z) (name : str)
    (e : exn) :
  get_encoding name = inl e ->
  exists ev text,
    extract_text_from_academic_pdf b = (FitzOpen :: ev, Ret text) /\
    main b max_tokens name
      = (if truthy text
         then (FitzOpen :: ev ++
                 [StError (ProcessingFailed (message e)); StException e],
               Ret tt)
         else (FitzOpen :: ev ++ [StError NoText], Halt)) /\
    existsb is_chunk_output (trace (main b max_tokens name)) = false.
Proof.
  intros He.
  destruct (extract_outcome b) as [ev [Hev Hres]].
  assert (Hx : exists ev' text,
             Forall (fun e => is_chunk_output e = false) ev' /\
             extract_text_from_academic_pdf b = (FitzOpen :: ev', Ret text)).
  { destruct (extraction_fails b).
    - destruct Hres as [cause Hx].
      exists (ev ++ [StError (ExtractFailed cause)]), []. split; [| exact Hx].
      apply Forall_app. split; [exact Hev | repeat constructor].
    - destruct Hres as [text Hx]. exists ev, text. now split. }
  clear ev Hev Hres. destruct Hx as [ev [text [Hev Hx]]].
  exists ev, text. split; [exact Hx |].
  assert (Hmain : main b max_tokens name
            = (if truthy text
               then (FitzOpen :: ev ++
                       [StError (ProcessingFailed (message e));
                        StException e], Ret tt)
               else (FitzOpen :: ev ++ [StError NoText], Halt))).
  { destruct text as [| c text].
    - exact (main_no_text b max_tokens name _ Hx).
    - exact (main_unknown_encoding b max_tokens name _ (c :: text) e
               Hx eq_refl He). }
  split; [exact Hmain |].
  rewrite Hmain.
  destruct (truthy text); unfold trace, fst;
    apply (no_chunk_output_app (FitzOpen :: ev));
    try reflexivity; constructor; try reflexivity; exact Hev.
Qed.

Lemma unknown_encoding_after_extraction_witness :
  exists ev text,
    extract_text_from_academic_pdf [Byte.x25; Byte.x68; Byte.x69]
      = (FitzOpen :: ev, Ret text) /\
    main [Byte.x25; Byte.x68; Byte.x69] 8192 (lit "bogus")
      = (if truthy text
         then (FitzOpen :: ev ++
                 [StError (ProcessingFailed
                    (message (ValueError (lit "Unknown encoding"))));
                  StException (ValueError (lit "Unknown encoding"))],
               Ret tt)
         else (FitzOpen :: ev ++ [StError NoText], Halt)) /\
    existsb is_chunk_output
      (trace (main [Byte.x25; Byte.x68; Byte.x69] 8192 (lit "bogus")))
      = false.
Proof.
  apply (unknown_encoding_after_extraction (db := latin1)
           (pdf := sample_fitz) (tk := sample_tiktoken)
           [Byte.x25; Byte.x68; Byte.x69] 8192 (lit "bogus")
           (ValueError (lit "Unknown encoding"))).
  reflexivity.
Defined.

End PipelineFacts.

(** ** The matcher *)

Module ReFacts.
Import Py Re.
Local Open Scope nat_scope.

Lemma prev_after_app (pv : option char) (x y : str) :
  prev_after pv (x ++ y) = prev_after (prev_after pv x) y.
Proof. unfold prev_after. apply fold_left_app. Qed.

Lemma prev_after_cons (pv : option char) (c : char) (x : str) :
  prev_after pv (c :: x) = prev_after (Some c) x.
Proof. reflexivity. Qed.

Lemma prev_after_last (pv : option char) (x : str) (c : char) :
  prev_after pv (x ++ [c]) = Some c.
Proof. now rewrite prev_after_app. Qed.

(** Every string is a run of a class followed by a rest the run cannot
    enter. *)
Lemma run_split (p : char -> bool) (s : str) :
  exists x r, s = x ++ r /\ forallb p x = true /\ stops p r = true.
Proof.
  induction s as [| c s [x [r [E [Hx Hr]]]]].
  - now exists [], [].
  - destruct (p c) eqn:Hc.
    + exists (c :: x), r. subst s. simpl. now rewrite Hc.
    + exists [], (c :: s). simpl. now rewrite Hc.
Qed.

Lemma stops_forallb (p : char -> bool) (x r : str) :
  forallb p x = true -> stops p r = true ->
  forallb p (x ++ r) = match r with [] => true | _ => false end.
Proof.
  intros Hx Hr. rewrite forallb_app, Hx. destruct r as [| c r]; simpl.
  - reflexivity.
  - simpl in Hr. apply negb_true_iff in Hr. now rewrite Hr.
Qed.

Lemma firstn_length_app {A} (x r : list A) : firstn (length x) (x ++ r) = x.
Proof.
  rewrite firstn_app, Nat.sub_diag, firstn_all. simpl. apply app_nil_r.
Qed.

Lemma skipn_length_app {A} (x r : list A) : skipn (length x) (x ++ r) = r.
Proof.
  rewrite skipn_app, Nat.sub_diag, skipn_all. reflexivity.
Qed.

Section Engine.
Context {db : UnicodeDB}.

(** *** The greedy repetition *)

Section Rep.
Variables (p : char -> bool) (k : state -> option state).
Variable cs : list (nat * (nat * nat)).

(** Where the continuation fails in front of every character of the
    class, the repetition takes the whole run or fails. *)
Lemma rep_whole_run (lo : nat) (pv : option char) (n : nat) (x r : str) :
  (forall pv' c t n', p c = true -> k (State pv' (c :: t) n' cs) = None) ->
  forallb p x = true -> stops p r = true ->
  rep p k lo pv n cs (x ++ r)
  = if lo <=? length x
    then k (State (prev_after pv x) r (n + length x) cs)
    else None.
Proof.
  intros Hk Hx Hr. revert lo pv n Hx.
  induction x as [| c x IH]; intros lo pv n Hx.
  - cbn [app length]. rewrite Nat.add_0_r.
    destruct r as [| c r]; destruct lo; cbn; try reflexivity.
    simpl in Hr. apply negb_true_iff in Hr. now rewrite Hr.
    simpl in Hr. apply negb_true_iff in Hr. now rewrite Hr.
  - simpl in Hx. apply andb_true_iff in Hx. destruct Hx as [Hc Hx].
    cbn [app rep]. rewrite Hc, (IH _ _ _ Hx).
    rewrite prev_after_cons.
    replace (S n + length x) with (n + length (c :: x)) by (simpl; lia).
    destruct lo as [| lo]; cbn [Nat.pred length Nat.leb].
    + rewrite (Hk pv c (x ++ r) n Hc).
      now destruct (k _).
    + now destruct (lo <=? length x); [destruct (k _) |].
Qed.

(** The same where the continuation fails between two characters of the
    class (a word boundary after letters), for a repetition that must
    take at least one. *)
Lemma rep_whole_run_inner (lo : nat) (pv : option char) (n : nat)
    (x r : str) :
  (forall c0 c t n', p c0 = true -> p c = true ->
     k (State (Some c0) (c :: t) n' cs) = None) ->
  (1 <= lo \/ exists c0, pv = Some c0 /\ p c0 = true) ->
  forallb p x = true -> stops p r = true ->
  rep p k lo pv n cs (x ++ r)
  = if lo <=? length x
    then k (State (prev_after pv x) r (n + length x) cs)
    else None.
Proof.
  intros Hk Hlo Hx Hr. revert lo pv n Hlo Hx.
  induction x as [| c x IH]; intros lo pv n Hlo Hx.
  - cbn [app length]. rewrite Nat.add_0_r.
    destruct r as [| c r]; destruct lo; cbn; try reflexivity.
    simpl in Hr. apply negb_true_iff in Hr. now rewrite Hr.
    simpl in Hr. apply negb_true_iff in Hr. now rewrite Hr.
  - simpl in Hx. apply andb_true_iff in Hx. destruct Hx as [Hc Hx].
    cbn [app rep]. rewrite Hc.
    rewrite (IH (Nat.pred lo) (Some c) (S n)); [| right; now exists c | exact Hx].
    rewrite prev_after_cons.
    replace (S n + length x) with (n + length (c :: x)) by (simpl; lia).
    destruct lo as [| lo]; cbn [Nat.pred length Nat.leb].
    + destruct Hlo as [Hlo | [c0 [-> Hc0]]]; [lia |].
      rewrite (Hk c0 c (x ++ r) n Hc0 Hc).
      now destruct (k _).
    + now destruct (lo <=? length x); [destruct (k _) |].
Qed.

(** Greedy: if the continuation succeeds after the whole run, that is the
    result. *)
Lemma rep_greedy (lo : nat) (pv : option char) (n : nat) (x r : str)
    (res : state) :
  forallb p x = true -> stops p r = true -> lo <= length x ->
  k (State (prev_after pv x) r (n + length x) cs) = Some res ->
  rep p k lo pv n cs (x ++ r) = Some res.
Proof.
  revert lo pv n. induction x as [| c x IH]; intros lo pv n Hx Hr Hlo Hres.
  - simpl in Hlo. assert (lo = 0) by lia. subst lo.
    cbn [app length prev_after fold_left] in *. rewrite Nat.add_0_r in Hres.
    destruct r as [| c r]; cbn; [exact Hres |].
    simpl in Hr. apply negb_true_iff in Hr. now rewrite Hr.
  - simpl in Hx. apply andb_true_iff in Hx. destruct Hx as [Hc Hx].
    cbn [app rep]. rewrite Hc.
    rewrite (IH (Nat.pred lo) (Some c) (S n) Hx Hr); [reflexivity | |].
    + simpl in Hlo. lia.
    + rewrite prev_after_cons in Hres.
      now replace (S n + length x) with (n + length (c :: x))
        by (simpl; lia).
Qed.

(** A prefix of the class is absorbed: what succeeds after it succeeds
    from the start. *)
Lemma rep_absorb (lo : nat) (pv : option char) (n : nat) (a z : str)
    (res : state) :
  forallb p a = true -> lo <= length a ->
  rep p k 0 (prev_after pv a) (n + length a) cs z = Some res ->
  rep p k lo pv n cs (a ++ z) = Some res.
Proof.
  revert lo pv n. induction a as [| c a IH]; intros lo pv n Ha Hlo Hres.
  - simpl in Hlo. assert (lo = 0) by lia. subst lo.
    cbn [app length prev_after fold_left] in *.
    now rewrite Nat.add_0_r in Hres.
  - simpl in Ha. apply andb_true_iff in Ha. destruct Ha as [Hc Ha].
    cbn [app rep]. rewrite Hc.
    rewrite (IH (Nat.pred lo) (Some c) (S n) Ha); [reflexivity | |].
    + simpl in Hlo. lia.
    + rewrite prev_after_cons in Hres.
      now replace (S n + length a) with (n + length (c :: a))
        by (simpl; lia).
Qed.

(** Where the continuation fails at every point of the run, so does the
    repetition. *)
Lemma rep_fails (lo : nat) (pv : option char) (n : nat) (x r : str) :
  (forall pv' n' a b, x = a ++ b -> k (State pv' (b ++ r) n' cs) = None) ->
  forallb p x = true -> stops p r = true ->
  rep p k lo pv n cs (x ++ r) = None.
Proof.
  revert lo pv n. induction x as [| c x IH]; intros lo pv n Hk Hx Hr.
  - cbn [app]. pose proof (Hk pv n [] [] eq_refl) as H0. cbn [app] in H0.
    destruct r as [| c r]; destruct lo; cbn; try reflexivity; try exact H0.
    simpl in Hr. apply negb_true_iff in Hr. now rewrite Hr.
    simpl in Hr. apply negb_true_iff in Hr. now rewrite Hr.
  - simpl in Hx. apply andb_true_iff in Hx. destruct Hx as [Hc Hx].
    cbn [app rep]. rewrite Hc.
    rewrite IH; [| | exact Hx | exact Hr].
    + destruct lo; [| reflexivity].
      exact (Hk pv n [] (c :: x) eq_refl).
    + intros pv' n' a b E. apply (Hk pv' n' (c :: a) b). now rewrite E.
Qed.

End Rep.

(** *** Substitution *)

(** A text the pattern matches nowhere is left as it is. *)
Lemma scan_unmatched (r : regex) (tpl : list ritem) (pv : option char)
    (s : str) :
  found r pv s = false -> scan r tpl pv 0 s = s.
Proof.
  revert pv. induction s as [| c s IH]; intros pv H; simpl in *.
  - now destruct (match_at r pv []).
  - destruct (match_at r pv (c :: s)); [discriminate |].
    now rewrite IH.
Qed.

(** Inside a match nothing is tried. *)
Lemma scan_skip (r : regex) (tpl : list ritem) (pv : option char)
    (x s : str) :
  scan r tpl pv (length x) (x ++ s) = scan r tpl (prev_after pv x) 0 s.
Proof.
  revert pv. induction x as [| c x IH]; intros pv.
  - reflexivity.
  - cbn [length app scan]. now rewrite IH.
Qed.

(** A match is replaced by its expansion, and the scan resumes after it. *)
Lemma scan_matched (r : regex) (tpl : list ritem) (pv : option char)
    (x s : str) (cs : list (nat * (nat * nat))) :
  x <> [] ->
  match_at r pv (x ++ s) = Some (length x, cs) ->
  scan r tpl pv 0 (x ++ s)
  = expand tpl (x ++ s) cs ++ scan r tpl (prev_after pv x) 0 s.
Proof.
  intros Hx Hm. destruct x as [| c x]; [congruence |].
  cbn [app] in *. cbn [scan]. rewrite Hm. cbn [length]. f_equal.
  now rewrite scan_skip.
Qed.

Lemma found_cons_unmatched (r : regex) (pv : option char) (c : char)
    (s : str) :
  match_at r pv (c :: s) = None ->
  found r pv (c :: s) = found r (Some c) s.
Proof. intros H. cbn [found]. now rewrite H. Qed.

(** *** Patterns without a word boundary do not look behind *)

Lemma rep_blind (p : char -> bool) (k1 k2 : state -> option state) :
  blind k1 k2 ->
  forall s lo pv1 pv2 n cs,
    same_match (rep p k1 lo pv1 n cs s) (rep p k2 lo pv2 n cs s).
Proof.
  intros Hk. induction s as [| c s IH]; intros lo pv1 pv2 n cs.
  - cbn. destruct lo; [apply Hk | exact I].
  - cbn [rep]. destruct (p c).
    + specialize (IH (Nat.pred lo) (Some c) (Some c) (S n) cs).
      destruct (rep p k1 _ _ _ _ s), (rep p k2 _ _ _ _ s);
        cbn in IH; try contradiction; [exact IH |].
      destruct lo; [apply Hk | exact I].
    + destruct lo; [apply Hk | exact I].
Qed.

Lemma exec_blind (r : regex) :
  bnd_free r = true ->
  forall k1 k2, blind k1 k2 -> blind (exec r k1) (exec r k2).
Proof.
  induction r as [p | p lo | | r1 IH1 r2 IH2 | i r1 IH1];
    intros Hr k1 k2 Hk pv1 pv2 s n cs; cbn [exec rest pos caps prev].
  - destruct s as [| c s]; [exact I |].
    destruct (p c); [apply Hk | exact I].
  - now apply rep_blind.
  - discriminate.
  - simpl in Hr. apply andb_true_iff in Hr. destruct Hr as [H1 H2].
    apply IH1; [exact H1 |]. now apply IH2.
  - apply IH1; [exact Hr |].
    intros pv1' pv2' s' n' cs'. cbn [rest pos caps prev]. apply Hk.
Qed.

Lemma match_at_blind (r : regex) (pv1 pv2 : option char) (s : str) :
  bnd_free r = true -> match_at r pv1 s = match_at r pv2 s.
Proof.
  intros Hr. unfold match_at, start.
  assert (H : blind Some Some).
  { intros a b s' n cs. cbn. auto. }
  pose proof (exec_blind r Hr Some Some H pv1 pv2 s 0 []) as E.
  destruct (exec r Some (State pv1 s 0 [])) as [a |],
           (exec r Some (State pv2 s 0 [])) as [b |];
    cbn in E; try contradiction; [| reflexivity].
  destruct E as [_ [-> ->]]. reflexivity.
Qed.

Lemma scan_blind (r : regex) (tpl : list ritem) (s : str) :
  bnd_free r = true ->
  forall pv1 pv2 skip, scan r tpl pv1 skip s = scan r tpl pv2 skip s.
Proof.
  intros Hr. induction s as [| c s IH]; intros pv1 pv2 skip.
  - destruct skip; cbn [scan]; [| reflexivity].
    now rewrite (match_at_blind r pv1 pv2 [] Hr).
  - destruct skip; cbn [scan]; [| apply IH].
    now rewrite (match_at_blind r pv1 pv2 (c :: s) Hr).
Qed.

End Engine.
End ReFacts.

(** ** Character classes *)

Module CharFacts.
Import Py Normalizer.
Local Open Scope N_scope.

Ltac split_true :=
  repeat match goal with
  | H : (_ || _)%bool = true |- _ => apply orb_true_iff in H; destruct H
  | H : (_ && _)%bool = true |- _ => apply andb_true_iff in H; destruct H
  | H : (_ =? _) = true |- _ => apply N.eqb_eq in H
  | H : (_ <=? _) = true |- _ => apply N.leb_le in H
  | H : (_ <? _) = true |- _ => apply N.ltb_lt in H
  end.

Ltac show_false :=
  repeat match goal with
  | |- (_ || _)%bool = false => apply orb_false_iff; split
  | |- (_ =? _) = false => apply N.eqb_neq; lia
  | |- (_ && _)%bool = false =>
      apply andb_false_iff;
      first [ left; apply N.leb_gt; lia | right; apply N.leb_gt; lia ]
  end.

Lemma lower_not_space (c : char) :
  islower_az c = true -> isspace c = false.
Proof.
  unfold islower_az, isspace, between. intros H. split_true. show_false.
Qed.

Lemma space_not_lower (c : char) :
  isspace c = true -> islower_az c = false.
Proof.
  intros H. destruct (islower_az c) eqn:E; [| reflexivity].
  apply lower_not_space in E. congruence.
Qed.

Lemma lf_is_space (c : char) : is_lf c = true -> isspace c = true.
Proof.
  unfold is_lf, LF. intros H. apply N.eqb_eq in H. now subst c.
Qed.

Section WithDB.
Context {db : UnicodeDB}.

Lemma lower_is_word (c : char) : islower_az c = true -> isword c = true.
Proof.
  unfold islower_az, isword, isalnum, ascii_alnum, between. intros H.
  split_true. destruct (N.ltb_spec c 128); [| lia].
  apply orb_true_iff. left. apply orb_true_iff. right.
  apply andb_true_iff. split; apply N.leb_le; lia.
Qed.

Lemma word_not_space (c : char) : isword c = true -> isspace c = false.
Proof.
  unfold isword, isalnum. intros H.
  apply orb_true_iff in H. destruct H as [H | H].
  - destruct (N.ltb_spec c 128).
    + unfold ascii_alnum, isspace, between in *. split_true; show_false.
    + now apply uni_alnum_not_space.
  - unfold UNDERSCORE, isspace, between in *. split_true. show_false.
Qed.

Lemma space_not_word (c : char) : isspace c = true -> isword c = false.
Proof.
  intros H. destruct (isword c) eqn:E; [| reflexivity].
  apply word_not_space in E. congruence.
Qed.

Lemma word_not_lf (c : char) : isword c = true -> is_lf c = false.
Proof.
  intros H. destruct (is_lf c) eqn:E; [| reflexivity].
  apply lf_is_space in E. apply word_not_space in H. congruence.
Qed.

Lemma word_not_hyphen (c : char) : isword c = true -> is_hyphen c = false.
Proof.
  unfold is_hyphen, HYPHEN. intros H.
  destruct (N.eqb_spec c 45) as [-> |]; [| reflexivity].
  vm_compute in H. discriminate.
Qed.

Lemma not_word_not_lower (c : char) :
  isword c = false -> islower_az c = false.
Proof.
  intros H. destruct (islower_az c) eqn:E; [| reflexivity].
  apply lower_is_word in E. congruence.
Qed.

End WithDB.
End CharFacts.

(** ** Strings: strip, split, join *)

Module StrFacts.
Import Py.
Local Open Scope nat_scope.

Lemma lstrip_idem (s : str) : lstrip (lstrip s) = lstrip s.
Proof.
  induction s as [| c s IH]; [reflexivity |].
  simpl. destruct (isspace c) eqn:E; [exact IH |]. simpl. now rewrite E.
Qed.

Lemma lstrip_head (s : str) (c : char) (t : str) :
  lstrip s = c :: t -> isspace c = false.
Proof.
  induction s as [| d s IH]; simpl; [discriminate |].
  destruct (isspace d) eqn:E; [exact IH |].
  intros H. injection H as -> _. exact E.
Qed.

Lemma lstrip_fixed (c : char) (t : str) :
  isspace c = false -> lstrip (c :: t) = c :: t.
Proof. intros H. simpl. now rewrite H. Qed.

Lemma lstrip_in (s : str) (c : char) : In c (lstrip s) -> In c s.
Proof.
  induction s as [| d s IH]; simpl; [tauto |].
  destruct (isspace d); [auto | tauto].
Qed.

Lemma lstrip_snoc (a : str) (c : char) :
  isspace c = false -> lstrip (a ++ [c]) = lstrip a ++ [c].
Proof.
  intros H. induction a as [| d a IH]; simpl.
  - now rewrite H.
  - now destruct (isspace d).
Qed.

Lemma rstrip_cons (c : char) (t : str) :
  isspace c = false -> rstrip (c :: t) = c :: rstrip t.
Proof.
  intros H. unfold rstrip. simpl.
  rewrite lstrip_snoc by exact H. rewrite rev_app_distr. reflexivity.
Qed.

Lemma rstrip_idem (s : str) : rstrip (rstrip s) = rstrip s.
Proof.
  unfold rstrip. now rewrite rev_involutive, lstrip_idem.
Qed.

Lemma rstrip_in (s : str) (c : char) : In c (rstrip s) -> In c s.
Proof.
  unfold rstrip. intros H. apply in_rev in H. apply lstrip_in in H.
  now apply in_rev.
Qed.

(** The last character of a right-stripped string is not white space. *)
Lemma rstrip_last (s : str) (a : str) (c : char) :
  rstrip s = a ++ [c] -> isspace c = false.
Proof.
  unfold rstrip. intros H.
  apply (f_equal (@rev char)) in H.
  rewrite rev_involutive, rev_app_distr in H. simpl in H.
  now apply lstrip_head in H.
Qed.

Lemma strip_idem (s : str) : strip (strip s) = strip s.
Proof.
  unfold strip.
  destruct (lstrip s) as [| c t] eqn:E.
  - reflexivity.
  - pose proof (lstrip_head s c t E) as Hc.
    rewrite rstrip_cons by exact Hc.
    rewrite lstrip_fixed by exact Hc.
    rewrite rstrip_cons by exact Hc.
    now rewrite rstrip_idem.
Qed.

Lemma strip_in (s : str) (c : char) : In c (strip s) -> In c s.
Proof.
  unfold strip. intros H. apply rstrip_in in H. now apply lstrip_in.
Qed.

(** A stripped string neither starts nor ends with white space. *)
Lemma strip_head (s : str) (c : char) (t : str) :
  strip s = c :: t -> isspace c = false.
Proof.
  unfold strip. destruct (lstrip s) as [| d u] eqn:E.
  - discriminate.
  - pose proof (lstrip_head s d u E) as Hd.
    rewrite rstrip_cons by exact Hd.
    intros H. injection H as -> _. exact Hd.
Qed.

Lemma strip_last (s : str) (a : str) (c : char) :
  strip s = a ++ [c] -> isspace c = false.
Proof. unfold strip. apply rstrip_last. Qed.

(** *** split *)

Lemma split_not_nil (sep : char) (s : str) : split sep s <> [].
Proof.
  destruct s as [| c s]; simpl; [discriminate |].
  destruct (c =? sep)%N; [discriminate |].
  destruct (split sep s); discriminate.
Qed.

Lemma split_pieces_free (sep : char) (s : str) :
  Forall (fun piece => ~ In sep piece) (split sep s).
Proof.
  induction s as [| c s IH]; simpl.
  - constructor; [tauto | constructor].
  - destruct (N.eqb_spec c sep) as [E | E].
    + constructor; [tauto | exact IH].
    + destruct (split sep s) as [| piece more].
      * constructor; [| constructor]. simpl. intuition.
      * inversion IH as [| ? ? Hp Hm]; subst.
        constructor; [| exact Hm]. simpl. intuition.
Qed.

Lemma split_free (sep : char) (s : str) :
  ~ In sep s -> split sep s = [s].
Proof.
  induction s as [| c s IH]; intros H; simpl; [reflexivity |].
  destruct (N.eqb_spec c sep) as [E | E].
  - exfalso. apply H. now left.
  - rewrite IH; [reflexivity |]. intros Hin. apply H. now right.
Qed.

Lemma split_at_sep (sep : char) (a r : str) :
  ~ In sep a -> split sep (a ++ sep :: r) = a :: split sep r.
Proof.
  induction a as [| c a IH]; intros H; simpl.
  - now rewrite N.eqb_refl.
  - destruct (N.eqb_spec c sep) as [E | E].
    + exfalso. apply H. now left.
    + rewrite IH; [reflexivity |]. intros Hin. apply H. now right.
Qed.

(** *** join *)

Lemma join_cons (sep : str) (p : str) (q : str) (more : list str) :
  join sep (p :: q :: more) = p ++ sep ++ join sep (q :: more).
Proof. reflexivity. Qed.

End StrFacts.

(** ** The normaliser: shape of the output *)

Module ShapeFacts.
Import Py Re Normalizer ReFacts CharFacts StrFacts Examples.
Local Open Scope nat_scope.

Lemma is_lf_true (c : char) : is_lf c = true <-> c = LF.
Proof. unfold is_lf. apply N.eqb_eq. Qed.

Lemma is_lf_false (c : char) : is_lf c = false <-> c <> LF.
Proof. unfold is_lf. apply N.eqb_neq. Qed.

Lemma tidy_head (l : str) :
  tidy l -> exists c t, l = c :: t /\ is_lf c = false.
Proof.
  intros [Hne [Hlf _]]. destruct l as [| c t]; [congruence |].
  exists c, t. split; [reflexivity |].
  apply is_lf_false. intros ->. apply Hlf. now left.
Qed.

Section Shape.
Context {db : UnicodeDB}.

(** The lines kept by the normaliser are tidy. *)
Lemma stripped_lines_tidy (text : str) : Forall tidy (stripped_lines text).
Proof.
  unfold stripped_lines. apply Forall_forall. intros l Hl.
  apply in_map_iff in Hl. destruct Hl as [l0 [<- Hl0]].
  apply filter_In in Hl0. destruct Hl0 as [Hin Htruthy].
  pose proof (split_pieces_free LF text) as Hfree.
  rewrite Forall_forall in Hfree. specialize (Hfree l0 Hin).
  split; [| split].
  - intros E. rewrite E in Htruthy. discriminate.
  - intros H. apply Hfree. now apply strip_in.
  - apply strip_idem.
Qed.

End Shape.

Lemma join_tidy_head (l : str) (more : list str) :
  tidy l ->
  exists c t, join [LF; LF] (l :: more) = c :: t /\ is_lf c = false.
Proof.
  intros H. destruct (tidy_head l H) as [c [t [-> Hc]]].
  destruct more as [| q more].
  - now exists c, t.
  - rewrite join_cons. cbn [app]. eauto.
Qed.

(** Splitting the joined lines gives them back, with one empty piece
    between two lines. *)
Lemma split_join_pieces (ls : list str) :
  Forall tidy ls ->
  Forall (fun piece => piece = [] \/ tidy piece)
         (split LF (join [LF; LF] ls)).
Proof.
  induction ls as [| l ls IH]; intros H.
  - cbn. constructor; [now left | constructor].
  - inversion H as [| ? ? Hl Hls]; subst.
    destruct ls as [| q more].
    + cbn [join]. rewrite split_free by apply Hl.
      constructor; [now right | constructor].
    + rewrite join_cons. cbn [app].
      rewrite split_at_sep by apply Hl.
      constructor; [now right |].
      cbn [split]. rewrite N.eqb_refl.
      constructor; [now left |]. now apply IH.
Qed.

Lemma stripped_lines_join (ls : list str) :
  Forall tidy ls -> stripped_lines (join [LF; LF] ls) = ls.
Proof.
  unfold stripped_lines.
  induction ls as [| l ls IH]; intros H.
  - reflexivity.
  - inversion H as [| ? ? Hl Hls]; subst.
    assert (Hkeep : truthy (strip l) = true).
    { destruct Hl as [Hne [_ ->]]. now destruct l. }
    assert (Hstrip : strip l = l) by apply Hl.
    destruct ls as [| q more].
    + cbn [join]. rewrite split_free by apply Hl.
      cbn [filter]. rewrite Hkeep. cbn [map]. now rewrite Hstrip.
    + rewrite join_cons. cbn [app].
      rewrite split_at_sep by apply Hl.
      cbn [split]. rewrite N.eqb_refl.
      cbn [filter]. rewrite Hkeep.
      change (truthy (strip [])) with false. cbn [map].
      rewrite Hstrip. f_equal. now apply IH.
Qed.

Lemma join_stripped_lines (ls : list str) :
  Forall tidy ls ->
  join [LF; LF] (stripped_lines (join [LF; LF] ls)) = join [LF; LF] ls.
Proof. intros H. now rewrite stripped_lines_join. Qed.

(** *** Runs of line feeds *)

Lemma starts3_false_head (c : char) (s : str) :
  is_lf c = false -> starts3 (c :: s) = false.
Proof.
  intros H. destruct s as [| b [| d s]]; cbn; try reflexivity.
  now rewrite H.
Qed.

Lemma lf_run3_free_app (l r : str) :
  ~ In LF l -> lf_run3 (l ++ r) = lf_run3 r.
Proof.
  induction l as [| c l IH]; intros H; [reflexivity |].
  cbn [app lf_run3]. rewrite starts3_false_head.
  - apply IH. intros Hin. apply H. now right.
  - apply is_lf_false. intros ->. apply H. now left.
Qed.

Lemma lf_run3_join (ls : list str) :
  Forall tidy ls -> lf_run3 (join [LF; LF] ls) = false.
Proof.
  induction ls as [| l ls IH]; intros H; [reflexivity |].
  inversion H as [| ? ? Hl Hls]; subst.
  destruct ls as [| q more].
  - cbn [join]. rewrite <- (app_nil_r l).
    rewrite lf_run3_free_app by apply Hl. reflexivity.
  - rewrite join_cons. rewrite lf_run3_free_app by apply Hl.
    inversion Hls as [| ? ? Hq _]; subst.
    destruct (join_tidy_head q more Hq) as [c [t [E Hc]]].
    specialize (IH Hls). rewrite E in *.
    cbn [app]. cbn [lf_run3] in *.
    apply orb_false_iff in IH. destruct IH as [_ IH].
    rewrite IH, (starts3_false_head c t Hc).
    cbn [starts3]. rewrite Hc, !andb_false_r.
    destruct t; cbn; now rewrite ?Hc, ?andb_false_r.
Qed.

Lemma lf_run3_complete (a b : str) :
  lf_run3 (a ++ [LF; LF; LF] ++ b) = true.
Proof.
  induction a as [| c a IH].
  - reflexivity.
  - cbn [app lf_run3] in *. rewrite IH. apply orb_true_r.
Qed.

Section Collapse.
Context {db : UnicodeDB}.

Lemma newline_run_unmatched (pv : option char) (s : str) :
  starts3 s = false -> match_at newline_run pv s = None.
Proof.
  unfold match_at, newline_run, start. cbn [exec prev rest pos caps].
  destruct s as [| a [| b [| c t]]]; cbn [rep starts3 Nat.pred].
  - reflexivity.
  - now destruct (is_lf a).
  - now destruct (is_lf a), (is_lf b).
  - destruct (is_lf a), (is_lf b), (is_lf c); cbn;
      try reflexivity; discriminate.
Qed.

Lemma newline_run_not_found (pv : option char) (s : str) :
  lf_run3 s = false -> found newline_run pv s = false.
Proof.
  revert pv. induction s as [| c s IH]; intros pv H.
  - cbn [found]. now rewrite newline_run_unmatched.
  - cbn [lf_run3] in H. apply orb_false_iff in H. destruct H as [H3 Hr].
    cbn [found]. rewrite newline_run_unmatched by exact H3. now apply IH.
Qed.

Lemma collapse_newlines_fixed (s : str) :
  lf_run3 s = false -> collapse_newlines s = s.
Proof.
  intros H. unfold collapse_newlines, sub.
  apply scan_unmatched. now apply newline_run_not_found.
Qed.

(** C9: for every text, the output of the normaliser has no three line
    feeds in a row; each of its lines is left unchanged by [strip], so
    neither starts nor ends with white space; and it is the list of its
    non-empty, stripped lines joined by one blank line. *)
Theorem clean_output_shape (text : str) :
  let out := clean_academic_text text in
  (forall a b, out <> a ++ [LF; LF; LF] ++ b) /\
  Forall (fun line =>
            strip line = line /\
            (forall c t, line = c :: t -> isspace c = false) /\
            (forall a c, line = a ++ [c] -> isspace c = false))
         (split LF out) /\
  exists lines,
    out = join [LF; LF] lines /\
    Forall (fun l => l <> [] /\ ~ In LF l /\ strip l = l) lines.
Proof.
  intros out.
  set (lines := stripped_lines
                  (rejoin_hyphens (merge_words (collapse_newlines text)))).
  assert (Hout : out = join [LF; LF] lines) by reflexivity.
  assert (Htidy : Forall tidy lines) by apply stripped_lines_tidy.
  split; [| split].
  - intros a b E.
    pose proof (lf_run3_join lines Htidy) as H. rewrite <- Hout, E in H.
    rewrite lf_run3_complete in H. discriminate.
  - rewrite Hout.
    eapply Forall_impl; [| apply (split_join_pieces lines Htidy)].
    intros piece [-> | [Hne [Hlf Hs]]].
    + split; [reflexivity |]. split.
      * intros c t E. discriminate.
      * intros a c E. destruct a; discriminate.
    + split; [exact Hs |]. split.
      * intros c t E. rewrite E in Hs. now apply strip_head in Hs.
      * intros a c E. rewrite E in Hs. now apply strip_last in Hs.
  - exists lines. split; [exact Hout | exact Htidy].
Qed.

(** C5 (amended): for every text, a second application of the normaliser
    collapses no further line feeds and strips or drops no further line;
    it returns the normalised text unchanged whenever neither the
    word-merge pattern nor the hyphen pattern matches in it. *)
Theorem clean_twice (text : str) :
  let once := clean_academic_text text in
  collapse_newlines once = once /\
  join [LF; LF] (stripped_lines once) = once /\
  (search split_word once = false ->
   search broken_hyphen once = false ->
   clean_academic_text once = once).
Proof.
  intros once.
  set (lines := stripped_lines
                  (rejoin_hyphens (merge_words (collapse_newlines text)))).
  assert (Hout : once = join [LF; LF] lines) by reflexivity.
  assert (Htidy : Forall tidy lines) by apply stripped_lines_tidy.
  assert (H1 : collapse_newlines once = once).
  { apply collapse_newlines_fixed. rewrite Hout. now apply lf_run3_join. }
  assert (H2 : join [LF; LF] (stripped_lines once) = once).
  { rewrite Hout. now apply join_stripped_lines. }
  split; [exact H1 |]. split; [exact H2 |].
  intros Hw Hh. unfold clean_academic_text at 1.
  rewrite H1.
  assert (H3 : merge_words once = once).
  { unfold merge_words, sub. now apply scan_unmatched. }
  rewrite H3.
  assert (H4 : rejoin_hyphens once = once).
  { unfold rejoin_hyphens, sub. now apply scan_unmatched. }
  rewrite H4. exact H2.
Qed.

End Collapse.

(** C5, as stated, fails: the word merge joins "ab cd" and leaves "ef",
    which a second pass joins to the result of the first. *)
Lemma clean_not_idempotent :
  clean_academic_text (lit "ab cd ef") = lit "abcd ef" /\
  clean_academic_text (clean_academic_text (lit "ab cd ef")) = lit "abcdef" /\
  clean_academic_text (clean_academic_text (lit "ab cd ef"))
    <> clean_academic_text (lit "ab cd ef").
Proof.
  split; [vm_compute; reflexivity |].
  split; [vm_compute; reflexivity |].
  vm_compute. discriminate.
Qed.

Lemma clean_twice_witness :
  clean_academic_text
    (clean_academic_text (lit "Hello  World\n\n\n\nfoo"))
  = clean_academic_text (lit "Hello  World\n\n\n\nfoo").
Proof.
  apply (clean_twice (db := latin1) (lit "Hello  World\n\n\n\nfoo"));
    vm_compute; reflexivity.
Defined.

(** C6: on the input of scenario C the normaliser returns
    "random accessmemory": the white space of the word-merge pattern takes
    the blank line between "access" and "memory" as well. *)
Theorem scenario_c_output {db : UnicodeDB} :
  clean_academic_text (lit "ran dom access\n\n\n\nmemory")
  = lit "random accessmemory".
Proof. vm_compute. reflexivity. Qed.

End ShapeFacts.

(** ** The normaliser: the word merge and the hyphen rejoin *)

Module MergeFacts.
Import Py Re Normalizer ReFacts CharFacts StrFacts ShapeFacts Examples.
Local Open Scope nat_scope.

Section Merge.
Context {db : UnicodeDB}.

Lemma stops_nil (p : char -> bool) : stops p [] = true.
Proof. reflexivity. Qed.

Lemma stops_app (p : char -> bool) (a r : str) :
  a <> [] -> stops p (a ++ r) = stops p a.
Proof. destruct a; [congruence | reflexivity]. Qed.

Lemma prev_after_class (p : char -> bool) (pv : option char) (x : str) :
  x <> [] -> forallb p x = true ->
  exists c, prev_after pv x = Some c /\ p c = true.
Proof.
  intros Hne Hx. destruct (exists_last Hne) as [a [c ->]].
  exists c. rewrite prev_after_last. split; [reflexivity |].
  rewrite forallb_app in Hx. apply andb_true_iff in Hx.
  destruct Hx as [_ Hc]. simpl in Hc. now rewrite andb_true_r in Hc.
Qed.

Lemma word_head (v r : str) :
  v <> [] -> forallb isword v = true ->
  word_at (hd_error (v ++ r)) = true.
Proof.
  destruct v as [| c v]; [congruence |]. intros _ H. simpl in *.
  now apply andb_true_iff in H.
Qed.

(** *** The second fragment: [([a-z]{2,}\b)] *)

Lemma exec_second_fragment (pv : option char) (y r : str) (n : nat)
    (cs : list (nat * (nat * nat))) :
  forallb islower_az y = true -> stops islower_az r = true ->
  exec (Grp 2 (Seq (Rep islower_az 2) Bnd)) Some (State pv (y ++ r) n cs)
  = if (2 <=? length y) && negb (word_at (hd_error r))
    then Some (State (prev_after pv y) r (n + length y)
                     ((2, (n, n + length y)) :: cs))
    else None.
Proof.
  intros Hy Hr. cbn [exec prev rest pos caps].
  rewrite rep_whole_run_inner; [| | left; lia | exact Hy | exact Hr].
  - destruct (Nat.leb_spec 2 (length y)) as [H2 | H2]; [| reflexivity].
    cbn [exec andb]. unfold at_boundary. cbn [prev rest pos caps].
    destruct (prev_after_class islower_az pv y) as [c [-> Hc]];
      [destruct y; [simpl in H2; lia | discriminate] | exact Hy |].
    cbn [word_at]. rewrite (lower_is_word c Hc).
    now destruct (word_at (hd_error r)).
  - intros c0 c t n' H0 Hc. cbn [exec]. unfold at_boundary.
    cbn [prev rest hd_error word_at].
    now rewrite (lower_is_word c0 H0), (lower_is_word c Hc).
Qed.

Lemma second_fragment_needs_lower (pv : option char) (s : str) (n : nat)
    (cs : list (nat * (nat * nat))) :
  stops islower_az s = true ->
  exec (Grp 2 (Seq (Rep islower_az 2) Bnd)) Some (State pv s n cs) = None.
Proof.
  intros H.
  exact (exec_second_fragment pv [] s n cs eq_refl H).
Qed.

(** *** The separator and the second fragment: [\s+([a-z]{2,}\b)] *)

Lemma exec_separator (pv : option char) (ws r : str) (n : nat)
    (cs : list (nat * (nat * nat))) :
  forallb isspace ws = true -> stops isspace r = true ->
  exec (Seq (Rep isspace 1) (Grp 2 (Seq (Rep islower_az 2) Bnd))) Some
       (State pv (ws ++ r) n cs)
  = if 1 <=? length ws
    then exec (Grp 2 (Seq (Rep islower_az 2) Bnd)) Some
              (State (prev_after pv ws) r (n + length ws) cs)
    else None.
Proof.
  intros Hw Hr.
  change (exec (Seq (Rep isspace 1) (Grp 2 (Seq (Rep islower_az 2) Bnd)))
            Some (State pv (ws ++ r) n cs))
    with (rep isspace (exec (Grp 2 (Seq (Rep islower_az 2) Bnd)) Some)
            1 pv n cs (ws ++ r)).
  rewrite rep_whole_run; [reflexivity | | exact Hw | exact Hr].
  intros pv' c t n' Hc. apply second_fragment_needs_lower.
  cbn [stops]. now rewrite (space_not_lower c Hc).
Qed.

Lemma separator_needs_space (pv : option char) (s : str) (n : nat)
    (cs : list (nat * (nat * nat))) :
  stops isspace s = true ->
  exec (Seq (Rep isspace 1) (Grp 2 (Seq (Rep islower_az 2) Bnd))) Some
       (State pv s n cs) = None.
Proof.
  intros H. exact (exec_separator pv [] s n cs eq_refl H).
Qed.

(** *** The whole pattern *)

Lemma match_split_word (pv : option char) (x r : str) :
  forallb islower_az x = true -> stops islower_az r = true ->
  match_at split_word pv (x ++ r)
  = if xorb (word_at pv) (word_at (hd_error (x ++ r)))
       && (2 <=? length x)
    then match exec (Seq (Rep isspace 1)
                         (Grp 2 (Seq (Rep islower_az 2) Bnd))) Some
                    (State (prev_after pv x) r (length x)
                           [(1, (0, length x))]) with
         | Some st => Some (pos st, caps st)
         | None => None
         end
    else None.
Proof.
  intros Hx Hr. unfold match_at, start.
  change (exec split_word Some (State pv (x ++ r) 0 []))
    with (if xorb (word_at pv) (word_at (hd_error (x ++ r)))
          then rep islower_az
                 (fun st' =>
                    exec (Seq (Rep isspace 1)
                              (Grp 2 (Seq (Rep islower_az 2) Bnd))) Some
                         (State (prev st') (rest st') (pos st')
                                ((1, (0, pos st')) :: caps st')))
                 2 pv 0 [] (x ++ r)
          else None).
  destruct (xorb (word_at pv) (word_at (hd_error (x ++ r))));
    [| reflexivity].
  cbn [andb].
  rewrite rep_whole_run; [| | exact Hx | exact Hr].
  - cbn [prev rest pos caps Nat.add].
    now destruct (2 <=? length x).
  - intros pv' c t n' Hc. cbn [prev rest pos caps].
    apply separator_needs_space.
    cbn [stops]. now rewrite (lower_not_space c Hc).
Qed.

Lemma split_word_needs_lower (pv : option char) (s : str) :
  stops islower_az s = true -> match_at split_word pv s = None.
Proof.
  intros H. pose proof (match_split_word pv [] s eq_refl H) as E.
  cbn [app length Nat.leb] in E. now rewrite andb_false_r in E.
Qed.

Lemma split_word_needs_boundary (c0 c : char) (s : str) :
  isword c0 = true -> isword c = true ->
  match_at split_word (Some c0) (c :: s) = None.
Proof.
  intros H0 Hc. unfold match_at, split_word, start.
  cbn [exec prev rest pos caps]. unfold at_boundary.
  cbn [prev rest hd_error word_at]. now rewrite H0, Hc.
Qed.

(** *** Two fragments and what separates them *)

Lemma second_fragment_on_word (pv : option char) (v : str) (n : nat)
    (cs : list (nat * (nat * nat))) :
  forallb isword v = true ->
  exec (Grp 2 (Seq (Rep islower_az 2) Bnd)) Some (State pv v n cs)
  = if lower2 v
    then Some (State (prev_after pv v) [] (n + length v)
                     ((2, (n, n + length v)) :: cs))
    else None.
Proof.
  intros Hv. destruct (run_split islower_az v) as [y [r [E [Hy Hr]]]].
  subst v. rewrite (exec_second_fragment pv y r n cs Hy Hr).
  unfold lower2. rewrite (stops_forallb islower_az y r Hy Hr).
  destruct r as [| c r].
  - rewrite app_nil_r. cbn [hd_error word_at negb].
    now rewrite andb_true_r.
  - rewrite forallb_app in Hv. apply andb_true_iff in Hv.
    destruct Hv as [_ Hv]. simpl in Hv. apply andb_true_iff in Hv.
    destruct Hv as [Hc _]. cbn [hd_error word_at]. rewrite Hc.
    cbn [negb andb]. now rewrite andb_false_r.
Qed.

Lemma separator_on_fragments (pv : option char) (w v : str) (n : nat)
    (cs : list (nat * (nat * nat))) :
  w <> [] -> v <> [] ->
  forallb (fun c => negb (isword c)) w = true ->
  forallb isword v = true ->
  exec (Seq (Rep isspace 1) (Grp 2 (Seq (Rep islower_az 2) Bnd))) Some
       (State pv (w ++ v) n cs)
  = if forallb isspace w && lower2 v
    then Some (State (prev_after pv (w ++ v)) [] (n + length w + length v)
                     ((2, (n + length w, n + length w + length v)) :: cs))
    else None.
Proof.
  intros Hw0 Hv0 Hw Hv.
  destruct (run_split isspace w) as [ws [r [E [Hws Hr]]]]. subst w.
  rewrite (stops_forallb isspace ws r Hws Hr).
  rewrite <- app_assoc.
  destruct r as [| c r].
  - cbn [app]. rewrite app_nil_r in *.
    rewrite exec_separator; [| exact Hws |].
    + destruct ws as [| c ws]; [congruence |]. cbn [length Nat.leb].
      rewrite (second_fragment_on_word _ v _ cs Hv).
      cbn [andb]. now rewrite prev_after_app.
    + destruct v as [| c v]; [congruence |]. cbn [stops].
      simpl in Hv. apply andb_true_iff in Hv. destruct Hv as [Hc _].
      now rewrite (word_not_space c Hc).
  - cbn [andb]. rewrite exec_separator; [| exact Hws | exact Hr].
    destruct (1 <=? length ws); [| reflexivity].
    apply second_fragment_needs_lower. cbn [app stops].
    rewrite forallb_app in Hw. apply andb_true_iff in Hw.
    destruct Hw as [_ Hw]. simpl in Hw. apply andb_true_iff in Hw.
    destruct Hw as [Hc _]. apply negb_true_iff in Hc.
    now rewrite (not_word_not_lower c Hc).
Qed.

Lemma match_two_fragments (pv : option char) (u w v : str) :
  u <> [] -> w <> [] -> v <> [] ->
  forallb isword u = true ->
  forallb (fun c => negb (isword c)) w = true ->
  forallb isword v = true ->
  match_at split_word pv (u ++ w ++ v)
  = if negb (word_at pv) && lower2 u && (forallb isspace w && lower2 v)
    then Some (length u + length w + length v,
               [(2, (length u + length w,
                     length u + length w + length v));
                (1, (0, length u))])
    else None.
Proof.
  intros Hu0 Hw0 Hv0 Hu Hw Hv.
  destruct (run_split islower_az u) as [x [r [E [Hx Hr]]]]. subst u.
  unfold lower2 at 1. rewrite (stops_forallb islower_az x r Hx Hr).
  assert (Hhd : word_at (hd_error ((x ++ r) ++ w ++ v)) = true)
    by now apply word_head.
  rewrite <- app_assoc in *.
  destruct r as [| c r].
  - cbn [app] in *. rewrite app_nil_r in *.
    rewrite match_split_word; [| exact Hx |].
    + rewrite Hhd.
      replace (xorb (word_at pv) true) with (negb (word_at pv))
        by now destruct (word_at pv).
      cbn [andb].
      destruct (negb (word_at pv) && (2 <=? length x)); [| reflexivity].
      rewrite (separator_on_fragments _ w v _ _ Hw0 Hv0 Hw Hv).
      cbn [andb]. now destruct (forallb isspace w && lower2 v).
    + destruct w as [| c w]; [congruence |]. cbn [app stops].
      simpl in Hw. apply andb_true_iff in Hw. destruct Hw as [Hc _].
      apply negb_true_iff in Hc. now rewrite (not_word_not_lower c Hc).
  - rewrite match_split_word; [| exact Hx | exact Hr].
    rewrite separator_needs_space.
    + cbn [andb]. rewrite andb_false_r. cbn [andb].
      now destruct (xorb _ _ && _).
    + cbn [app stops].
      rewrite forallb_app in Hu. apply andb_true_iff in Hu.
      destruct Hu as [_ Hu]. simpl in Hu. apply andb_true_iff in Hu.
      destruct Hu as [Hc _]. now rewrite (word_not_space c Hc).
Qed.

(** *** The other positions of the scan *)

Lemma found_through_word (c0 : char) (z more : str) :
  isword c0 = true -> forallb isword z = true ->
  found split_word (Some c0) (z ++ more)
  = found split_word (prev_after (Some c0) z) more.
Proof.
  revert c0. induction z as [| c z IH]; intros c0 H0 Hz; [reflexivity |].
  simpl in Hz. apply andb_true_iff in Hz. destruct Hz as [Hc Hz].
  cbn [app]. rewrite found_cons_unmatched
    by now apply split_word_needs_boundary.
  rewrite prev_after_cons. now apply IH.
Qed.

Lemma found_through_separator (pv : option char) (w more : str) :
  forallb (fun c => negb (isword c)) w = true ->
  found split_word pv (w ++ more)
  = found split_word (prev_after pv w) more.
Proof.
  revert pv. induction w as [| c w IH]; intros pv Hw; [reflexivity |].
  simpl in Hw. apply andb_true_iff in Hw. destruct Hw as [Hc Hw].
  apply negb_true_iff in Hc.
  cbn [app]. rewrite found_cons_unmatched.
  - rewrite prev_after_cons. now apply IH.
  - apply split_word_needs_lower. cbn [stops].
    now rewrite (not_word_not_lower c Hc).
Qed.

Lemma last_word_unmatched (pv : option char) (v : str) :
  forallb isword v = true -> match_at split_word pv v = None.
Proof.
  intros Hv. destruct (run_split islower_az v) as [x [r [E [Hx Hr]]]].
  subst v. rewrite match_split_word; [| exact Hx | exact Hr].
  rewrite separator_needs_space; [now destruct (xorb _ _ && _) |].
  destruct r as [| c r]; [reflexivity |]. cbn [stops].
  rewrite forallb_app in Hv. apply andb_true_iff in Hv.
  destruct Hv as [_ Hv]. simpl in Hv. apply andb_true_iff in Hv.
  destruct Hv as [Hc _]. now rewrite (word_not_space c Hc).
Qed.

Lemma not_found_in_last_word (pv : option char) (v : str) :
  forallb isword v = true -> found split_word pv v = false.
Proof.
  intros Hv. destruct v as [| c v].
  - cbn [found]. now rewrite split_word_needs_lower.
  - rewrite found_cons_unmatched by now apply last_word_unmatched.
    simpl in Hv. apply andb_true_iff in Hv. destruct Hv as [Hc Hv].
    rewrite <- (app_nil_r v), found_through_word by assumption.
    cbn [found]. now rewrite split_word_needs_lower.
Qed.

Lemma expand_two_groups (x w y r : str) :
  expand [RGrp 1; RGrp 2] (x ++ w ++ y ++ r)
    [(2, (length x + length w, length x + length w + length y));
     (1, (0, length x))]
  = x ++ y.
Proof.
  cbn [expand]. unfold group. cbn [span_of Nat.eqb].
  rewrite Nat.sub_0_r. cbn [skipn]. rewrite firstn_length_app.
  rewrite app_nil_r. f_equal.
  replace (length x + length w + length y - (length x + length w))
    with (length y) by lia.
  rewrite <- length_app, app_assoc, skipn_length_app.
  apply firstn_length_app.
Qed.

(** C7 (amended): two fragments, each a whole word, with a separator
    free of word characters and of line feeds between them: the word
    merge joins them if and only if both are made of lowercase letters
    only, two or more each, and the separator is white space only, be
    it one space or several; otherwise it leaves the text as it is. *)
Theorem merge_words_two_fragments (u w v : str) :
  u <> [] -> w <> [] -> v <> [] ->
  forallb isword u = true ->
  forallb (fun c => negb (isword c) && negb (is_lf c)) w = true ->
  forallb isword v = true ->
  merge_words (u ++ w ++ v)
  = if lower2 u && lower2 v && forallb isspace w
    then u ++ v
    else u ++ w ++ v.
Proof.
  intros Hu0 Hw0 Hv0 Hu Hw' Hv.
  assert (Hw : forallb (fun c => negb (isword c)) w = true).
  { apply forallb_forall. intros c Hc.
    rewrite forallb_forall in Hw'. specialize (Hw' c Hc).
    now apply andb_true_iff in Hw'. }
  pose proof (match_two_fragments None u w v Hu0 Hw0 Hv0 Hu Hw Hv) as Hm.
  cbn [word_at negb andb] in Hm.
  replace (lower2 u && lower2 v && forallb isspace w)
    with (lower2 u && (forallb isspace w && lower2 v))
    by (destruct (lower2 u), (lower2 v), (forallb isspace w); reflexivity).
  unfold merge_words, sub.
  destruct (lower2 u && (forallb isspace w && lower2 v)).
  - rewrite <- (app_nil_r (u ++ w ++ v)) at 1.
    rewrite scan_matched with
      (cs := [(2, (length u + length w,
                   length u + length w + length v));
              (1, (0, length u))]).
    + rewrite app_nil_r.
      pose proof (expand_two_groups u w v []) as E.
      rewrite app_nil_r in E. rewrite E.
      cbn [scan]. rewrite split_word_needs_lower by reflexivity.
      now rewrite app_nil_r.
    + destruct u; [congruence | discriminate].
    + rewrite app_nil_r, Hm. now rewrite !length_app, Nat.add_assoc.
  - apply scan_unmatched.
    destruct u as [| c u]; [congruence |].
    simpl in Hu. apply andb_true_iff in Hu. destruct Hu as [Hc Hu].
    cbn [app] in *. rewrite found_cons_unmatched by exact Hm.
    rewrite found_through_word by assumption.
    rewrite found_through_separator by exact Hw.
    now apply not_found_in_last_word.
Qed.

End Merge.

(** C7, as stated, fails: two lowercase fragments with two spaces
    between them are merged all the same. *)
Lemma merge_words_not_single_space_only :
  ~ (forall u w v : str,
       u <> [] -> w <> [] -> v <> [] ->
       forallb isword u = true ->
       forallb (fun c => negb (isword c)) w = true ->
       forallb isword v = true ->
       (merge_words (u ++ w ++ v) = u ++ v <->
        w = [SPACE] /\ lower2 u = true /\ lower2 v = true)).
Proof.
  intros H.
  destruct (H (lit "ab") (lit "  ") (lit "cd")) as [H1 _];
    try discriminate; try reflexivity.
  destruct H1 as [Hw _]; [vm_compute; reflexivity | discriminate].
Qed.

Lemma merge_words_two_fragments_witness :
  merge_words (lit "ran" ++ lit "  " ++ lit "dom")
  = if lower2 (lit "ran") && lower2 (lit "dom")
       && forallb isspace (lit "  ")
    then lit "ran" ++ lit "dom"
    else lit "ran" ++ lit "  " ++ lit "dom".
Proof.
  apply (merge_words_two_fragments (db := latin1)
           (lit "ran") (lit "  ") (lit "dom"));
    try discriminate; reflexivity.
Defined.

End MergeFacts.

(** ** The normaliser: hyphens at line breaks *)

Module HyphenFacts.
Import Py Re Normalizer ReFacts CharFacts StrFacts ShapeFacts MergeFacts.
Import Examples.
Local Open Scope nat_scope.

(** The last line feed of a string that has one. *)
Lemma last_lf_split (w : str) :
  In LF w -> exists a b, w = a ++ LF :: b /\ ~ In LF b.
Proof.
  induction w as [| c w IH]; intros H; [contradiction |].
  destruct (in_dec N.eq_dec LF w) as [Hin | Hout].
  - destruct (IH Hin) as [a [b [-> Hb]]]. now exists (c :: a), b.
  - destruct H as [-> | H]; [| contradiction]. now exists [], w.
Qed.

Section Hyphen.
Context {db : UnicodeDB}.

Lemma word_stops_space (v r : str) :
  v <> [] -> forallb isword v = true -> stops isspace (v ++ r) = true.
Proof.
  destruct v as [| c v]; [congruence |]. intros _ H. simpl in H.
  apply andb_true_iff in H. destruct H as [Hc _].
  cbn [app stops]. now rewrite (word_not_space c Hc).
Qed.

Lemma exec_class_step (p : char -> bool) (r : regex)
    (k : state -> option state) (pv : option char) (c : char) (t : str)
    (n : nat) (cs : list (nat * (nat * nat))) :
  p c = true ->
  exec (Seq (Cls p) r) k (State pv (c :: t) n cs)
  = exec r k (State (Some c) t (S n) cs).
Proof. intros H. cbn [exec rest pos caps]. now rewrite H. Qed.

(** [(\w+)] at the end of the pattern takes the whole word. *)
Lemma exec_continuation_word (pv : option char) (v post : str) (n : nat)
    (cs : list (nat * (nat * nat))) :
  v <> [] -> forallb isword v = true -> stops isword post = true ->
  exec (Grp 2 (Rep isword 1)) Some (State pv (v ++ post) n cs)
  = Some (State (prev_after pv v) post (n + length v)
                ((2, (n, n + length v)) :: cs)).
Proof.
  intros Hv0 Hv Hp. cbn [exec prev rest pos caps].
  apply rep_greedy; try assumption.
  - destruct v; [congruence | simpl; lia].
  - reflexivity.
Qed.

(** [\s*(\w+)]: the white space after the line feed, then the word. *)
Lemma exec_indent_word (pv : option char) (b v post : str) (n : nat)
    (cs : list (nat * (nat * nat))) :
  forallb isspace b = true ->
  v <> [] -> forallb isword v = true -> stops isword post = true ->
  exec (Seq (Rep isspace 0) (Grp 2 (Rep isword 1))) Some
       (State pv (b ++ v ++ post) n cs)
  = Some (State (prev_after (prev_after pv b) v) post
                (n + length b + length v)
                ((2, (n + length b, n + length b + length v)) :: cs)).
Proof.
  intros Hb Hv0 Hv Hp.
  change (exec (Seq (Rep isspace 0) (Grp 2 (Rep isword 1))) Some
            (State pv (b ++ v ++ post) n cs))
    with (rep isspace (exec (Grp 2 (Rep isword 1)) Some) 0 pv n cs
            (b ++ v ++ post)).
  apply rep_greedy.
  - exact Hb.
  - now apply word_stops_space.
  - lia.
  - now apply exec_continuation_word.
Qed.

(** [\s*\n\s*(\w+)]: the white space is given back up to its last line
    feed. *)
Lemma exec_line_break (pv : option char) (a b v post : str) (n : nat)
    (cs : list (nat * (nat * nat))) :
  forallb isspace a = true -> forallb isspace b = true -> ~ In LF b ->
  v <> [] -> forallb isword v = true -> stops isword post = true ->
  exec (Seq (Rep isspace 0)
            (Seq (Cls is_lf)
                 (Seq (Rep isspace 0) (Grp 2 (Rep isword 1))))) Some
       (State pv ((a ++ LF :: b) ++ v ++ post) n cs)
  = Some (State (prev_after (prev_after (Some LF) b) v) post
                (n + length (a ++ LF :: b) + length v)
                ((2, (n + length (a ++ LF :: b),
                      n + length (a ++ LF :: b) + length v)) :: cs)).
Proof.
  intros Ha Hb Hlf Hv0 Hv Hp.
  change (exec (Seq (Rep isspace 0)
                    (Seq (Cls is_lf)
                         (Seq (Rep isspace 0) (Grp 2 (Rep isword 1)))))
            Some (State pv ((a ++ LF :: b) ++ v ++ post) n cs))
    with (rep isspace
            (exec (Seq (Cls is_lf)
                       (Seq (Rep isspace 0) (Grp 2 (Rep isword 1)))) Some)
            0 pv n cs ((a ++ LF :: b) ++ v ++ post)).
  rewrite <- app_assoc. apply rep_absorb; [exact Ha | lia |].
  cbn [app rep]. change (isspace LF) with true. cbv iota.
  rewrite rep_fails.
  - rewrite exec_class_step by reflexivity.
    rewrite (exec_indent_word (Some LF) b v post _ cs Hb Hv0 Hv Hp).
    rewrite length_app. cbn [length].
    f_equal. f_equal; [lia |]. f_equal. f_equal. f_equal; lia.
  - intros pv' n' a' b' E. cbn [exec rest].
    destruct b' as [| c b'].
    + destruct v as [| c v]; [congruence |].
      simpl in Hv. apply andb_true_iff in Hv. destruct Hv as [Hc _].
      cbn [app]. now rewrite (word_not_lf c Hc).
    + cbn [app].
      assert (Hc : is_lf c = false).
      { apply is_lf_false. intros ->. apply Hlf. rewrite E.
        apply in_or_app. right. now left. }
      now rewrite Hc.
  - exact Hb.
  - now apply word_stops_space.
Qed.

(** The whole pattern on a hyphenated word broken across lines. *)
Lemma match_broken_hyphen (pv : option char) (u w v post : str) :
  u <> [] -> v <> [] ->
  forallb isword u = true -> forallb isword v = true ->
  forallb isspace w = true -> In LF w ->
  stops isword post = true ->
  match_at broken_hyphen pv (u ++ (HYPHEN :: w) ++ v ++ post)
  = Some (length u + length (HYPHEN :: w) + length v,
          [(2, (length u + length (HYPHEN :: w),
                length u + length (HYPHEN :: w) + length v));
           (1, (0, length u))]).
Proof.
  intros Hu0 Hv0 Hu Hv Hw Hlf Hp.
  destruct (last_lf_split w Hlf) as [a [b [E Hb]]]. subst w.
  rewrite forallb_app in Hw. apply andb_true_iff in Hw.
  destruct Hw as [Ha Hw]. cbn [forallb] in Hw.
  apply andb_true_iff in Hw. destruct Hw as [_ Hbs].
  unfold match_at, start.
  change (exec broken_hyphen Some
            (State pv (u ++ (HYPHEN :: a ++ LF :: b) ++ v ++ post) 0 []))
    with (rep isword
            (fun st' =>
               exec (Seq (Cls is_hyphen)
                      (Seq (Rep isspace 0)
                        (Seq (Cls is_lf)
                          (Seq (Rep isspace 0) (Grp 2 (Rep isword 1))))))
                    Some
                    (State (prev st') (rest st') (pos st')
                           ((1, (0, pos st')) :: caps st')))
            1 pv 0 [] (u ++ (HYPHEN :: a ++ LF :: b) ++ v ++ post)).
  erewrite rep_greedy; [| exact Hu | reflexivity | |]; cycle 1.
  - destruct u; [congruence | simpl; lia].
  - cbn [prev rest pos caps app Nat.add].
    change (exec (Seq (Cls is_hyphen)
                   (Seq (Rep isspace 0)
                     (Seq (Cls is_lf)
                       (Seq (Rep isspace 0) (Grp 2 (Rep isword 1))))))
              Some
              (State (prev_after pv u)
                     (HYPHEN :: (a ++ LF :: b) ++ v ++ post) (length u)
                     [(1, (0, length u))]))
      with (exec (Seq (Rep isspace 0)
                   (Seq (Cls is_lf)
                     (Seq (Rep isspace 0) (Grp 2 (Rep isword 1)))))
              Some
              (State (Some HYPHEN) ((a ++ LF :: b) ++ v ++ post)
                     (S (length u)) [(1, (0, length u))])).
    exact (exec_line_break (Some HYPHEN) a b v post _ _
             Ha Hbs Hb Hv0 Hv Hp).
  - cbn [pos caps length].
    f_equal. f_equal; [lia |]. f_equal. f_equal. f_equal; lia.
Qed.

(** A broken word at the start of the text: the hyphen and the white
    space go, and the scan resumes after the second run. *)
Lemma rejoin_first_broken_word (u w v post : str) :
  u <> [] -> v <> [] ->
  forallb isword u = true -> forallb isword v = true ->
  forallb isspace w = true -> In LF w ->
  stops isword post = true ->
  rejoin_hyphens (u ++ [HYPHEN] ++ w ++ v ++ post)
  = u ++ v ++ rejoin_hyphens post.
Proof.
  intros Hu0 Hv0 Hu Hv Hw Hlf Hp.
  pose proof (match_broken_hyphen None u w v post
                Hu0 Hv0 Hu Hv Hw Hlf Hp) as Hm.
  unfold rejoin_hyphens, sub.
  change (u ++ [HYPHEN] ++ w ++ v ++ post)
    with (u ++ (HYPHEN :: w) ++ v ++ post).
  replace (u ++ (HYPHEN :: w) ++ v ++ post)
    with ((u ++ (HYPHEN :: w) ++ v) ++ post)
    by now rewrite <- !app_assoc.
  rewrite scan_matched with
    (cs := [(2, (length u + length (HYPHEN :: w),
                 length u + length (HYPHEN :: w) + length v));
            (1, (0, length u))]).
  - replace ((u ++ (HYPHEN :: w) ++ v) ++ post)
      with (u ++ (HYPHEN :: w) ++ v ++ post)
      by now rewrite <- !app_assoc.
    rewrite expand_two_groups, <- app_assoc. f_equal. f_equal.
    now apply scan_blind.
  - destruct u; [congruence | discriminate].
  - replace ((u ++ (HYPHEN :: w) ++ v) ++ post)
      with (u ++ (HYPHEN :: w) ++ v ++ post)
      by now rewrite <- !app_assoc.
    rewrite Hm. now rewrite !length_app, Nat.add_assoc.
Qed.

End Hyphen.

(** The examples of the claim, through the whole normaliser. *)
Example blank_line_after_hyphen :
  clean_academic_text (lit "multi- \n\n word") = lit "multiword".
Proof. vm_compute. reflexivity. Qed.

Example uppercase_and_digits :
  rejoin_hyphens (lit "AB1-\nC2d and x_y- \n \n9Z.")
  = lit "AB1C2d and x_y9Z.".
Proof. vm_compute. reflexivity. Qed.

End HyphenFacts.

(** ** The chunker at the edges of its window size *)

Module WindowFacts.
Import Py Effects Chunker ChunkerFacts Examples.
Local Open Scope nat_scope.

(** A window size of zero makes [range] raise, a negative one makes the
    loop run no round: in a known encoding the chunker then raises
    [ValueError], respectively returns no chunk, for every text the
    tokenizer encodes; on a text it refuses the tokenizer's error comes
    first. *)
Theorem split_without_window {tk : Tiktoken} (text : str) (max_tokens : Z)
    (name : str) (enc : encoding) :
  get_encoding name = inr enc -> (max_tokens <= 0)%Z ->
  split_text_by_tokens text max_tokens name
  = match encode enc text with
    | inl e => ([], Raise e)
    | inr _ =>
        if (max_tokens =? 0)%Z
        then ([], Raise (ValueError (lit "range() arg 3 must not be zero")))
        else ([], Ret [])
    end.
Proof.
  intros Henc Hm. unfold split_text_by_tokens, range0. rewrite Henc.
  unfold bind, lift, ret, raise.
  destruct (encode enc text) as [e | tokens]; [reflexivity |].
  destruct (Z.eqb_spec max_tokens 0) as [E | E]; [reflexivity |].
  destruct (Z.ltb_spec max_tokens 0) as [L | L]; [reflexivity | lia].
Qed.

Lemma split_without_window_witness :
  split_text_by_tokens (lit "a <|endoftext|> b") (-5) (lit "p50k_base")
  = match encode sample_encoding (lit "a <|endoftext|> b") with
    | inl e => ([], Raise e)
    | inr _ =>
        if (-5 =? 0)%Z
        then ([], Raise (ValueError (lit "range() arg 3 must not be zero")))
        else ([], Ret [])
    end.
Proof.
  apply (split_without_window (tk := sample_tiktoken)
           (lit "a <|endoftext|> b") (-5) (lit "p50k_base")
           sample_encoding).
  - reflexivity.
  - lia.
Defined.

(** A text with at least one token and no more than [max_tokens] comes
    back as exactly one chunk, the decoding of all its tokens. *)
Theorem split_single_chunk {tk : Tiktoken} (text : str) (max_tokens : Z)
    (name : str) (enc : encoding) (tokens : list token) :
  get_encoding name = inr enc ->
  encode enc text = inr tokens ->
  1 <= length tokens ->
  (Z.of_nat (length tokens) <= max_tokens)%Z ->
  split_text_by_tokens text max_tokens name
  = ([], Ret [decode enc tokens]).
Proof.
  intros Henc Ht H1 Hm.
  rewrite (split_text_by_tokens_returns text max_tokens name enc tokens)
    by (assumption || lia).
  set (m := Z.to_nat max_tokens).
  assert (Hm' : length tokens <= m) by (unfold m; lia).
  rewrite token_windows_slices by lia.
  assert (Hc : ceil_div (length tokens) m = 1).
  { unfold ceil_div.
    replace (length tokens + m - 1) with ((length tokens - 1) + 1 * m)
      by lia.
    rewrite Nat.div_add by lia. rewrite Nat.div_small by lia.
    reflexivity. }
  rewrite Hc. cbn [seq map]. unfold slice.
  cbn [Nat.mul Nat.add skipn]. rewrite Nat.sub_0_r.
  now rewrite firstn_all2 by exact Hm'.
Qed.

Lemma split_single_chunk_witness :
  split_text_by_tokens (lit "short") 8192 (lit "cl100k_base")
  = ([], Ret [decode sample_encoding (sample_tokens (lit "short"))]).
Proof.
  apply (split_single_chunk (tk := sample_tiktoken) (lit "short") 8192
           (lit "cl100k_base") sample_encoding
           (sample_tokens (lit "short"))).
  - reflexivity.
  - reflexivity.
  - vm_compute. lia.
  - vm_compute. discriminate.
Defined.

End WindowFacts.

(** ** The extractor on documents it can read *)

Module ExtractFacts.
Import Py Re Normalizer Effects Effects.Notations Extractor.
Import StrFacts ShapeFacts PipelineFacts Examples.
Local Open Scope nat_scope.

Lemma rstrip_fixed_snoc (a : str) (d : char) :
  isspace d = false -> rstrip (a ++ [d]) = a ++ [d].
Proof.
  intros H. unfold rstrip. rewrite rev_app_distr. cbn [rev app].
  rewrite lstrip_fixed by exact H.
  change (d :: rev a) with ([d] ++ rev a).
  now rewrite rev_app_distr, rev_involutive.
Qed.

(** A non-empty string that [strip] leaves alone starts and ends with a
    character that is not white space. *)
Lemma trimmed_ends (s : str) :
  s <> [] -> strip s = s ->
  (exists c t, s = c :: t /\ isspace c = false) /\
  (exists a d, s = a ++ [d] /\ isspace d = false).
Proof.
  intros Hne Hs. split.
  - destruct s as [| c t]; [congruence |]. exists c, t.
    split; [reflexivity |]. now apply (strip_head (c :: t) c t).
  - destruct (exists_last Hne) as [a [d E]]. exists a, d.
    split; [exact E |]. rewrite E in Hs. exact (strip_last (a ++ [d]) a d Hs).
Qed.

Lemma strip_between (a m b : str) :
  a <> [] -> strip a = a -> b <> [] -> strip b = b ->
  strip (a ++ m ++ b) = a ++ m ++ b.
Proof.
  intros Ha0 Ha Hb0 Hb.
  destruct (trimmed_ends a Ha0 Ha) as [[c [t [-> Hc]]] _].
  destruct (trimmed_ends b Hb0 Hb) as [_ [b' [d [-> Hd]]]].
  unfold strip. cbn [app]. rewrite lstrip_fixed by exact Hc.
  replace (c :: t ++ m ++ b' ++ [d]) with ((c :: t ++ m ++ b') ++ [d])
    by (cbn [app]; now rewrite <- !app_assoc).
  now apply rstrip_fixed_snoc.
Qed.

Lemma strip_trailing_break (a : str) :
  a <> [] -> strip a = a -> strip (a ++ [LF; LF]) = a.
Proof.
  intros Ha0 Ha.
  destruct (trimmed_ends a Ha0 Ha) as [[c [t [E Hc]]] [a' [d [E' Hd]]]].
  unfold strip.
  assert (Hl : lstrip (a ++ [LF; LF]) = a ++ [LF; LF]).
  { rewrite E. cbn [app]. now apply lstrip_fixed. }
  rewrite Hl. unfold rstrip. rewrite rev_app_distr. cbn [rev app lstrip].
  change (isspace LF) with true. cbv iota.
  rewrite E', rev_app_distr. cbn [rev app].
  rewrite lstrip_fixed by exact Hd.
  change (d :: rev a') with ([d] ++ rev a').
  now rewrite rev_app_distr, rev_involutive.
Qed.

(** Joining trimmed strings by a blank line gives a trimmed string. *)
Lemma strip_join (cs : list str) :
  Forall (fun c => c <> [] /\ strip c = c) cs ->
  strip (join [LF; LF] cs) = join [LF; LF] cs /\
  (cs <> [] -> join [LF; LF] cs <> []).
Proof.
  induction cs as [| c cs IH]; intros H.
  - split; [reflexivity | congruence].
  - inversion H as [| ? ? [Hc0 Hc] Hcs]; subst.
    destruct cs as [| q more].
    + cbn [join]. split; [exact Hc | intros _; exact Hc0].
    + destruct (IH Hcs) as [IH1 IH2].
      rewrite join_cons. split.
      * apply strip_between; try assumption. apply IH2. discriminate.
      * intros _. destruct c; [congruence | discriminate].
Qed.

Lemma concat_breaks (cs : list str) :
  cs <> [] ->
  concat (map (fun c => c ++ [LF; LF]) cs) = join [LF; LF] cs ++ [LF; LF].
Proof.
  induction cs as [| c cs IH]; intros H; [congruence |].
  destruct cs as [| q more].
  - cbn. now rewrite app_nil_r.
  - cbn [map concat]. rewrite join_cons.
    cbn [map concat] in IH. rewrite IH by discriminate.
    now rewrite <- !app_assoc.
Qed.

Lemma join_app (sep : str) (l1 l2 : list str) :
  l1 <> [] -> l2 <> [] ->
  join sep (l1 ++ l2) = join sep l1 ++ sep ++ join sep l2.
Proof.
  induction l1 as [| a l1 IH]; intros H1 H2; [congruence |].
  destruct l1 as [| b l1].
  - destruct l2 as [| c l2]; [congruence |]. reflexivity.
  - cbn [app]. rewrite !join_cons. cbn [app] in IH.
    rewrite IH by (discriminate || assumption).
    now rewrite <- !app_assoc.
Qed.

Lemma join_of_joins (sep : str) (lss : list (list str)) :
  Forall (fun ls => ls <> []) lss ->
  join sep (map (join sep) lss) = join sep (concat lss).
Proof.
  induction lss as [| ls lss IH]; intros H; [reflexivity |].
  inversion H as [| ? ? Hls Hlss]; subst.
  destruct lss as [| ls2 lss].
  - cbn. now rewrite app_nil_r.
  - cbn [map]. rewrite join_cons. cbn [map] in IH. rewrite IH by exact Hlss.
    change (concat (ls :: ls2 :: lss)) with (ls ++ concat (ls2 :: lss)).
    rewrite join_app; [reflexivity | exact Hls |].
    inversion Hlss as [| ? ? Hls2 _]; subst.
    destruct ls2; [congruence | discriminate].
Qed.

Section Reads.
Context {db : UnicodeDB}.

Lemma tidy_trimmed (ls : list str) :
  Forall tidy ls -> Forall (fun c => c <> [] /\ strip c = c) ls.
Proof.
  intros H. eapply Forall_impl; [| exact H].
  intros l [H0 [_ Hs]]. now split.
Qed.

(** What the normaliser returns is left alone by [strip]: the page test
    of the extractor asks whether the cleaned text is empty. *)
Lemma strip_clean (text : str) :
  strip (clean_academic_text text) = clean_academic_text text.
Proof.
  unfold clean_academic_text.
  apply strip_join, tidy_trimmed, stripped_lines_tidy.
Qed.

Lemma clean_trimmed (texts : list str) :
  Forall (fun c => c <> [] /\ strip c = c)
         (filter truthy (map clean_academic_text texts)).
Proof.
  apply Forall_forall. intros c Hc. apply filter_In in Hc.
  destruct Hc as [Hin Ht]. apply in_map_iff in Hin.
  destruct Hin as [t [<- _]]. split.
  - intros E. rewrite E in Ht. discriminate.
  - apply strip_clean.
Qed.

(** The texts of the pages kept by the extractor are lists of tidy lines. *)
Lemma clean_pages_lines (texts : list str) :
  exists lss,
    Forall (fun ls => ls <> [] /\ Forall tidy ls) lss /\
    filter truthy (map clean_academic_text texts) = map (join [LF; LF]) lss.
Proof.
  induction texts as [| t texts [lss [Hlss E]]].
  - now exists [].
  - cbn [map filter].
    set (ls := stripped_lines
                 (rejoin_hyphens (merge_words (collapse_newlines t)))).
    change (clean_academic_text t) with (join [LF; LF] ls).
    destruct ls as [| l ls'] eqn:El.
    + cbn [join truthy]. now exists lss.
    + assert (Ht : truthy (join [LF; LF] (l :: ls')) = true).
      { assert (Hl : tidy l).
        { pose proof (stripped_lines_tidy
                        (rejoin_hyphens (merge_words (collapse_newlines t))))
            as H. fold ls in H. rewrite El in H. now inversion H. }
        destruct (join_tidy_head l ls' Hl) as [c [u [-> _]]]. reflexivity. }
      rewrite Ht. exists ((l :: ls') :: lss). split.
      * constructor; [| exact Hlss]. split; [discriminate |].
        rewrite <- El. apply stripped_lines_tidy.
      * cbn [map]. now rewrite E.
Qed.

Context {pdf : Fitz}.

Lemma pages_loop_reads (pages : list page) (texts : list str) (n : nat)
    (acc : str) :
  map get_text pages = map inr texts ->
  pages_loop pages n acc
  = (map PageText (seq n (length pages)),
     Ret (acc ++ concat (map (fun c => c ++ [LF; LF])
                           (filter truthy
                              (map clean_academic_text texts))))).
Proof.
  revert texts n acc.
  induction pages as [| pg pages IH]; intros texts n acc H.
  - destruct texts; [| discriminate]. cbn. now rewrite app_nil_r.
  - destruct texts as [| t texts]; [discriminate |].
    cbn [map] in H. injection H as Hpg Hrest.
    cbn [pages_loop length seq map filter]. rewrite Hpg.
    unfold bind, emit, lift, ret. cbn [app].
    rewrite strip_clean.
    rewrite (IH texts (S n) _ Hrest). cbn [app].
    destruct (truthy (clean_academic_text t)).
    + cbn [map concat]. now rewrite <- !app_assoc.
    + reflexivity.
Qed.

Lemma extract_reads (b : list Byte.byte) (pages : list page)
    (texts : list str) :
  fitz_open b = inr pages ->
  map get_text pages = map inr texts ->
  extract_text_from_academic_pdf b
  = (FitzOpen :: map PageText (seq 0 (length pages)),
     Ret (join [LF; LF] (filter truthy (map clean_academic_text texts)))).
Proof.
  intros Hopen Hpages. unfold extract_text_from_academic_pdf.
  rewrite Hopen. unfold bind, emit, lift, ret, try_except. cbn [app].
  rewrite (pages_loop_reads pages texts 0 [] Hpages). cbn [app].
  rewrite app_nil_r. f_equal. f_equal.
  set (cs := filter truthy (map clean_academic_text texts)).
  destruct cs as [| c cs'] eqn:E; [reflexivity |].
  rewrite concat_breaks by discriminate.
  pose proof (clean_trimmed texts) as Ht. fold cs in Ht. rewrite E in Ht.
  destruct (strip_join (c :: cs') Ht) as [Hs Hne].
  apply strip_trailing_break; [apply Hne; discriminate | exact Hs].
Qed.

(** Every page is read once and in order; the text returned is the
    cleaned texts of the pages that are not blank, joined by one blank
    line. *)
Theorem extract_readable (b : list Byte.byte) (pages : list page)
    (texts : list str) :
  fitz_open b = inr pages ->
  map get_text pages = map inr texts ->
  extract_text_from_academic_pdf b
  = (FitzOpen :: map PageText (seq 0 (length pages)),
     Ret (join [LF; LF] (filter truthy (map clean_academic_text texts)))).
Proof.
  intros Hopen Hpages. now apply extract_reads.
Qed.

Lemma all_pages_read (pages : list page) :
  existsb (fun pg => raises (get_text pg)) pages = false ->
  exists texts, map get_text pages = map inr texts.
Proof.
  induction pages as [| pg pages IH]; intros H.
  - now exists [].
  - cbn [existsb] in H. apply orb_false_iff in H. destruct H as [Hpg H].
    destruct (IH H) as [texts E].
    destruct (get_text pg) as [e | t] eqn:G; [discriminate |].
    exists (t :: texts). cbn [map]. now rewrite G, E.
Qed.

(** For every buffer the extractor returns a text, it raises nothing;
    the text is a list of tidy lines joined by one blank line each, so it
    neither starts nor ends with white space and has no three line feeds
    in a row. *)
Theorem extract_output_shape (b : list Byte.byte) :
  exists ev text lines,
    extract_text_from_academic_pdf b = (ev, Ret text) /\
    text = join [LF; LF] lines /\
    Forall (fun l => l <> [] /\ ~ In LF l /\ strip l = l) lines /\
    strip text = text /\
    (forall x y, text <> x ++ [LF; LF; LF] ++ y).
Proof.
  assert (Hshape : forall lines, Forall tidy lines ->
            strip (join [LF; LF] lines) = join [LF; LF] lines /\
            (forall x y, join [LF; LF] lines <> x ++ [LF; LF; LF] ++ y)).
  { intros lines Hl. split.
    - now apply strip_join, tidy_trimmed.
    - intros x y E. pose proof (lf_run3_join lines Hl) as H.
      rewrite E, lf_run3_complete in H. discriminate. }
  destruct (extraction_fails b) eqn:Hf.
  - destruct (extract_outcome b) as [ev [_ Hres]]. rewrite Hf in Hres.
    destruct Hres as [cause Hx].
    exists (FitzOpen :: ev ++ [StError (ExtractFailed cause)]), [], [].
    split; [exact Hx |]. split; [reflexivity |].
    split; [constructor |]. apply (Hshape []). constructor.
  - unfold extraction_fails in Hf.
    destruct (fitz_open b) as [e | pages] eqn:Hopen; [discriminate |].
    destruct (all_pages_read pages Hf) as [texts Hpages].
    destruct (clean_pages_lines texts) as [lss [Hlss E]].
    exists (FitzOpen :: map PageText (seq 0 (length pages))),
           (join [LF; LF] (concat lss)), (concat lss).
    assert (Htidy : Forall tidy (concat lss)).
    { apply Forall_concat. eapply Forall_impl; [| exact Hlss].
      intros ls [_ H]. exact H. }
    split.
    + rewrite (extract_reads b pages texts Hopen Hpages), E.
      rewrite join_of_joins; [reflexivity |].
      eapply Forall_impl; [| exact Hlss]. intros ls [H _]. exact H.
    + split; [reflexivity |]. split; [exact Htidy |]. now apply Hshape.
Qed.

End Reads.

Lemma extract_readable_witness :
  extract_text_from_academic_pdf [Byte.x25; Byte.x68; Byte.x69]
  = (FitzOpen :: map PageText (seq 0 (length [lit "hi"])),
     Ret (join [LF; LF]
            (filter truthy (map clean_academic_text [lit "hi"])))).
Proof.
  apply (extract_readable (db := latin1) (pdf := sample_fitz)
           [Byte.x25; Byte.x68; Byte.x69] [lit "hi"] [lit "hi"]);
    reflexivity.
Defined.

End ExtractFacts.

(** ** A request that succeeds *)

Module RunFacts.
Import Py Effects Effects.Notations Extractor Chunker Pipeline.
Import ChunkerFacts PipelineFacts Examples.
Local Open Scope nat_scope.

Section Success.
Context {tk : Tiktoken}.
Variables (name : str) (enc : encoding).
Hypothesis known : get_encoding name = inr enc.

Lemma count_tokens_known (text : str) (tokens : list token) :
  encode enc text = inr tokens ->
  count_tokens text name = ([], Ret (length tokens)).
Proof.
  intros Ht. unfold count_tokens. rewrite known.
  unfold bind, lift, ret. now rewrite Ht.
Qed.

Lemma count_tokens_refused (text : str) (e : exn) :
  encode enc text = inl e -> count_tokens text name = ([], Raise e).
Proof.
  intros Ht. unfold count_tokens. rewrite known.
  unfold bind, lift, ret, raise. now rewrite Ht.
Qed.

Lemma show_chunks_known (chunks : list str) (retokens : list (list token))
    (i : nat) :
  map (encode enc) chunks = map inr retokens ->
  show_chunks chunks i name
  = (map (fun part => ShowChunk (fst (fst part)) (snd part)
                        (snd (fst part)))
         (combine (combine (seq i (length chunks))
                     (map (@length token) retokens)) chunks),
     Ret tt).
Proof.
  revert retokens i.
  induction chunks as [| c chunks IH]; intros retokens i H;
    [reflexivity |].
  destruct retokens as [| ts retokens]; [discriminate |].
  cbn [map] in H. injection H as Hc H.
  cbn [show_chunks length seq combine map fst snd].
  rewrite (count_tokens_known c ts Hc). unfold bind, emit. cbn [app].
  now rewrite (IH retokens (S i) H).
Qed.

Lemma export_parts_known (chunks : list str)
    (retokens : list (list token)) (i : nat) :
  map (encode enc) chunks = map inr retokens ->
  export_parts chunks i name
  = ([], Ret (combine (combine (seq i (length chunks))
                         (map (@length token) retokens)) chunks)).
Proof.
  revert retokens i.
  induction chunks as [| c chunks IH]; intros retokens i H;
    [reflexivity |].
  destruct retokens as [| ts retokens]; [discriminate |].
  cbn [map] in H. injection H as Hc H.
  cbn [export_parts length seq combine map fst snd].
  rewrite (count_tokens_known c ts Hc). unfold bind, ret. cbn [app].
  now rewrite (IH retokens (S i) H).
Qed.

End Success.

(** A request with extracted text that the tokenizer encodes, in a known
    encoding and with a positive window size, whose chunks the tokenizer
    encodes as well, runs to its end: the page shows the size of the text
    in characters and tokens, the number of chunks, then the chunks in
    order, numbered from 1, each with the token count of its own text,
    and the download is made of the same chunks with the same numbers and
    counts; the number of chunks is ceil(T / M). *)
Theorem main_success {db : UnicodeDB} {pdf : Fitz} {tk : Tiktoken}
    (b : list Byte.byte) (max_tokens : Z) (name : str) (enc : encoding)
    (ev : list event) (text : str) (tokens : list token)
    (retokens : list (list token)) :
  extract_text_from_academic_pdf b = (ev, Ret text) ->
  truthy text = true ->
  get_encoding name = inr enc ->
  (1 <= max_tokens)%Z ->
  encode enc text = inr tokens ->
  let chunks :=
    map (decode enc) (token_windows tokens (Z.to_nat max_tokens)) in
  map (encode enc) chunks = map inr retokens ->
  let parts :=
    combine (combine (seq 1 (length chunks))
               (map (@length token) retokens)) chunks in
  main b max_tokens name
  = (ev ++ [ShowStats (length text) (length tokens);
            StSuccess (length chunks)]
        ++ map (fun part => ShowChunk (fst (fst part)) (snd part)
                              (snd (fst part))) parts
        ++ [Download parts],
     Ret tt) /\
  length chunks = ceil_div (length tokens) (Z.to_nat max_tokens).
Proof.
  intros Hx Ht Henc Hm Htok chunks Hre parts. split.
  - unfold main, bind, emit, ret, st_stop. rewrite Hx, Ht.
    rewrite (count_tokens_known name enc Henc text tokens Htok).
    rewrite (split_text_by_tokens_returns text max_tokens name enc tokens
               Hm Henc Htok).
    fold chunks.
    rewrite (show_chunks_known name enc Henc chunks retokens 1 Hre).
    rewrite (export_parts_known name enc Henc chunks retokens 1 Hre).
    fold parts. unfold try_except. cbn [app].
    now rewrite ?app_nil_r.
  - unfold chunks. rewrite length_map.
    apply token_windows_length. lia.
Qed.

Lemma main_success_witness :
  let b := [Byte.x25; Byte.x68; Byte.x69] in
  let enc := sample_encoding in
  let tokens := [104%N; 105%N] in
  let retokens := [[104%N]; [105%N]] in
  let chunks := map (decode enc) (token_windows tokens (Z.to_nat 1)) in
  let parts :=
    combine (combine (seq 1 (length chunks))
               (map (@length token) retokens)) chunks in
  main b 1 (lit "cl100k_base")
  = ([FitzOpen; PageText 0]
        ++ [ShowStats (length (lit "hi")) (length tokens);
            StSuccess (length chunks)]
        ++ map (fun part => ShowChunk (fst (fst part)) (snd part)
                              (snd (fst part))) parts
        ++ [Download parts],
     Ret tt) /\
  length chunks = ceil_div (length tokens) (Z.to_nat 1).
Proof.
  apply (main_success (db := latin1) (pdf := sample_fitz)
           (tk := sample_tiktoken) [Byte.x25; Byte.x68; Byte.x69] 1
           (lit "cl100k_base") sample_encoding [FitzOpen; PageText 0]
           (lit "hi") [104%N; 105%N] [[104%N]; [105%N]]).
  - reflexivity.
  - reflexivity.
  - reflexivity.
  - lia.
  - reflexivity.
  - reflexivity.
Defined.

(** A document whose text the tokenizer refuses (it spells a special
    token): the error surfaces at the first token count, the page shows
    it, and neither the statistics nor any chunk appear. *)
Theorem main_text_refused {db : UnicodeDB} {pdf : Fitz} {tk : Tiktoken}
    (b : list Byte.byte) (max_tokens : Z) (name : str) (enc : encoding)
    (ev : list event) (text : str) (e : exn) :
  extract_text_from_academic_pdf b = (ev, Ret text) ->
  truthy text = true ->
  get_encoding name = inr enc ->
  encode enc text = inl e ->
  main b max_tokens name
  = (ev ++ [StError (ProcessingFailed (message e)); StException e],
     Ret tt).
Proof.
  intros Hx Ht Henc Htok.
  unfold main, bind, emit, ret, st_stop. rewrite Hx, Ht.
  rewrite (count_tokens_refused name enc Henc text e Htok).
  unfold try_except. cbn [app]. now rewrite ?app_nil_r.
Qed.

Lemma main_text_refused_witness :
  main (Byte.x25 :: map (fun c => match Byte.of_N c with
                                  | Some x => x
                                  | None => Byte.x00
                                  end) SPECIAL)
       8192 (lit "cl100k_base")
  = ([FitzOpen; PageText 0]
       ++ [StError (ProcessingFailed
             (message (ValueError
                (lit "Encountered text corresponding to disallowed special token '<|endoftext|>'."))));
           StException (ValueError
             (lit "Encountered text corresponding to disallowed special token '<|endoftext|>'."))],
     Ret tt).
Proof.
  apply (main_text_refused (db := latin1) (pdf := sample_fitz)
           (tk := sample_tiktoken) _ 8192 (lit "cl100k_base")
           sample_encoding [FitzOpen; PageText 0] SPECIAL).
  - reflexivity.
  - reflexivity.
  - reflexivity.
  - reflexivity.
Defined.

End RunFacts.

(** ** The normaliser, step 1: runs of line feeds *)

Module CollapseFacts.
Import Py Re Normalizer ReFacts CharFacts StrFacts ShapeFacts Examples.
Local Open Scope nat_scope.

Lemma all_lf (x : str) (c : char) :
  forallb is_lf x = true -> In c x -> c = LF.
Proof.
  intros H Hc. rewrite forallb_forall in H. now apply is_lf_true, H.
Qed.

Lemma starts3_short_run (x r : str) :
  stops is_lf r = true -> length x < 3 -> starts3 (x ++ r) = false.
Proof.
  intros Hr Hx.
  assert (Hh : forall t, starts3 (r ++ t) = false \/ r = []).
  { intros t. destruct r as [| c r]; [now right | left].
    cbn [stops] in Hr. apply negb_true_iff in Hr.
    now apply starts3_false_head. }
  destruct x as [| a [| b [| c x]]]; cbn [length] in Hx; try lia;
    cbn [app starts3].
  - destruct r as [| c r]; [reflexivity |].
    cbn [stops] in Hr. apply negb_true_iff in Hr.
    now apply starts3_false_head.
  - destruct r as [| c [| d r]]; try reflexivity;
      cbn [stops] in Hr; apply negb_true_iff in Hr;
      now rewrite Hr, andb_false_r.
  - destruct r as [| c r]; [reflexivity |].
    cbn [stops] in Hr. apply negb_true_iff in Hr.
    now rewrite Hr, andb_false_r.
Qed.

Section Collapse.
Context {db : UnicodeDB}.

Lemma match_newline_run (pv : option char) (x r : str) :
  forallb is_lf x = true -> stops is_lf r = true -> 3 <= length x ->
  match_at newline_run pv (x ++ r) = Some (length x, []).
Proof.
  intros Hx Hr H3. unfold match_at, newline_run, start.
  cbn [exec prev rest pos caps].
  now rewrite (rep_greedy is_lf Some [] 3 pv 0 x r
                 (State (prev_after pv x) r (0 + length x) []) Hx Hr H3
                 eq_refl).
Qed.

Lemma collapse_other (c : char) (t : str) :
  is_lf c = false ->
  collapse_newlines (c :: t) = c :: collapse_newlines t.
Proof.
  intros Hc. unfold collapse_newlines, sub. cbn [scan].
  rewrite newline_run_unmatched by now apply starts3_false_head.
  f_equal. now apply scan_blind.
Qed.

Lemma scan_short_run (pv : option char) (x r : str) :
  forallb is_lf x = true -> stops is_lf r = true -> length x < 3 ->
  scan newline_run [RLit LF; RLit LF] pv 0 (x ++ r)
  = x ++ scan newline_run [RLit LF; RLit LF] (prev_after pv x) 0 r.
Proof.
  revert pv. induction x as [| a x IH]; intros pv Hx Hr H3; [reflexivity |].
  cbn [forallb] in Hx. apply andb_true_iff in Hx. destruct Hx as [_ Hx].
  assert (H0 : starts3 ((a :: x) ++ r) = false)
    by now apply starts3_short_run.
  cbn [app] in *. cbn [scan].
  rewrite (newline_run_unmatched pv _ H0).
  rewrite IH; [reflexivity | exact Hx | exact Hr |].
  cbn [length] in H3. lia.
Qed.

Lemma collapse_run (x r : str) :
  forallb is_lf x = true -> stops is_lf r = true ->
  collapse_newlines (x ++ r)
  = (if 3 <=? length x then [LF; LF] else x) ++ collapse_newlines r.
Proof.
  intros Hx Hr. unfold collapse_newlines, sub.
  destruct (Nat.leb_spec 3 (length x)) as [H3 | H3].
  - rewrite scan_matched with (cs := []).
    + cbn [expand app]. f_equal. f_equal. now apply scan_blind.
    + destruct x; [simpl in H3; lia | discriminate].
    + now apply match_newline_run.
  - rewrite scan_short_run by assumption. f_equal. now apply scan_blind.
Qed.

Lemma stops_rev_tail (p : char -> bool) (u t : str) :
  stops p (rev (u ++ t)) = true -> stops p (rev t) = true.
Proof.
  rewrite rev_app_distr. now destruct (rev t).
Qed.

Lemma run_ends_in_lf (x : str) :
  forallb is_lf x = true -> stops is_lf (rev x) = true -> x = [].
Proof.
  intros Hx Hs. destruct (rev x) as [| c l] eqn:E.
  - apply (f_equal (@rev char)) in E. now rewrite rev_involutive in E.
  - cbn [stops] in Hs. rewrite forallb_forall in Hx.
    rewrite (Hx c) in Hs; [discriminate |].
    apply in_rev. rewrite E. now left.
Qed.

(** The step works on the two sides of a place where no run of line
    feeds goes through. *)
Lemma collapse_app (a s : str) :
  stops is_lf (rev a) = true ->
  collapse_newlines (a ++ s) = collapse_newlines a ++ collapse_newlines s.
Proof.
  remember (length a) as n eqn:En. revert a En.
  induction n as [n IH] using lt_wf_ind. intros a En Ha.
  destruct (run_split is_lf a) as [x [r [E [Hx Hr]]]]. subst a.
  destruct r as [| c t].
  - rewrite app_nil_r in Ha |- *.
    rewrite (run_ends_in_lf x Hx Ha). reflexivity.
  - cbn [stops] in Hr. apply negb_true_iff in Hr.
    assert (Hr' : forall u, stops is_lf (c :: u) = true)
      by (intros u; cbn [stops]; now rewrite Hr).
    rewrite <- app_assoc. cbn [app].
    rewrite (collapse_run x (c :: t ++ s) Hx (Hr' _)).
    rewrite (collapse_run x (c :: t) Hx (Hr' _)).
    rewrite !(collapse_other c _ Hr).
    rewrite (IH (length t)); [| | reflexivity |].
    + now rewrite <- app_assoc.
    + subst n. rewrite length_app. cbn [length]. lia.
    + apply (stops_rev_tail is_lf (x ++ [c]) t).
      now rewrite <- app_assoc.
Qed.

(** Wherever it stands in the text, a maximal run of three or more line
    feeds becomes two and a shorter one stays; the text before the run
    and the text behind it are treated on their own. *)
Theorem collapse_newlines_run (a x r : str) :
  stops is_lf (rev a) = true ->
  forallb is_lf x = true -> stops is_lf r = true ->
  collapse_newlines (a ++ x ++ r)
  = collapse_newlines a
    ++ (if 3 <=? length x then [LF; LF] else x) ++ collapse_newlines r.
Proof.
  intros Ha Hx Hr. rewrite (collapse_app a (x ++ r) Ha).
  now rewrite (collapse_run x r Hx Hr).
Qed.

(** What holds of a run and its image, and goes through one more
    character, holds of every text and its image. *)
Lemma collapse_newlines_ind (P : str -> str -> Prop) :
  (forall x, forallb is_lf x = true ->
     P x (if 3 <=? length x then [LF; LF] else x)) ->
  (forall x c t out, forallb is_lf x = true -> is_lf c = false ->
     P t out ->
     P (x ++ c :: t) ((if 3 <=? length x then [LF; LF] else x) ++ c :: out)) ->
  forall s, P s (collapse_newlines s).
Proof.
  intros Hrun Hstep s.
  remember (length s) as n eqn:En. revert s En.
  induction n as [n IH] using lt_wf_ind. intros s En.
  destruct (run_split is_lf s) as [x [r [E [Hx Hr]]]]. subst s.
  rewrite (collapse_run x r Hx Hr).
  destruct r as [| c t].
  - change (collapse_newlines []) with (@nil char).
    rewrite !app_nil_r. now apply Hrun.
  - cbn [stops] in Hr. apply negb_true_iff in Hr.
    rewrite (collapse_other c t Hr).
    apply Hstep; [exact Hx | exact Hr |].
    apply (IH (length t)); [| reflexivity].
    subst n. rewrite length_app. cbn [length]. lia.
Qed.

Lemma lf_run3_short_run (y : str) (c : char) (out : str) :
  forallb is_lf y = true -> length y < 3 -> is_lf c = false ->
  lf_run3 (y ++ c :: out) = lf_run3 out.
Proof.
  intros Hy H3 Hc.
  assert (H1 : forall s, starts3 (c :: s) = false)
    by (intros s; now apply starts3_false_head).
  assert (H2 : forall a s, starts3 (a :: c :: s) = false).
  { intros a s. destruct s; cbn [starts3]; [reflexivity |].
    now rewrite Hc, andb_false_r. }
  assert (H3' : forall a b s, starts3 (a :: b :: c :: s) = false).
  { intros a b s. cbn [starts3]. now rewrite Hc, andb_false_r. }
  destruct y as [| a [| b [| d y]]]; cbn [length] in H3; try lia;
    cbn [app lf_run3]; now rewrite ?H1, ?H2, ?H3'.
Qed.

(** After the step no three line feeds stand in a row, so that a second
    application changes nothing. *)
Theorem collapse_newlines_settles (s : str) :
  (forall a b, collapse_newlines s <> a ++ [LF; LF; LF] ++ b) /\
  collapse_newlines (collapse_newlines s) = collapse_newlines s.
Proof.
  assert (H : lf_run3 (collapse_newlines s) = false).
  { apply (collapse_newlines_ind (fun _ out => lf_run3 out = false)).
    - intros x Hx. destruct (Nat.leb_spec 3 (length x)); [reflexivity |].
      destruct x as [| a [| b [| c x]]]; cbn [length] in *; try lia;
        reflexivity.
    - intros x c t out Hx Hc Hout.
      rewrite lf_run3_short_run; try assumption.
      + now destruct (3 <=? length x).
      + destruct (Nat.leb_spec 3 (length x)); [simpl; lia | assumption]. }
  split.
  - intros a b E. rewrite E, lf_run3_complete in H. discriminate.
  - now apply collapse_newlines_fixed.
Qed.

Lemma filter_lf_run (q : char -> bool) (x : str) :
  q LF = false -> forallb is_lf x = true -> filter q x = [].
Proof.
  intros Hq Hx. induction x as [| c x IH]; [reflexivity |].
  cbn [forallb] in Hx. apply andb_true_iff in Hx. destruct Hx as [Hc Hx].
  apply is_lf_true in Hc. subst c. cbn [filter]. rewrite Hq. now apply IH.
Qed.

(** Characters of a class without the line feed pass through the step. *)
Lemma collapse_newlines_filter (q : char -> bool) (s : str) :
  q LF = false -> filter q (collapse_newlines s) = filter q s.
Proof.
  intros Hq.
  apply (collapse_newlines_ind (fun s out => filter q out = filter q s)).
  - intros x Hx. rewrite (filter_lf_run q x Hq Hx).
    destruct (3 <=? length x).
    + cbn [filter]. now rewrite Hq.
    + now apply filter_lf_run.
  - intros x c t out Hx Hc Hout. rewrite !filter_app.
    rewrite (filter_lf_run q x Hq Hx).
    replace (filter q (if 3 <=? length x then [LF; LF] else x))
      with (@nil char).
    + cbn [filter app]. now rewrite Hout.
    + destruct (3 <=? length x).
      * cbn [filter]. now rewrite Hq.
      * symmetry. now apply filter_lf_run.
Qed.

Lemma collapse_newlines_incl (s : str) (c : char) :
  In c (collapse_newlines s) -> In c s.
Proof.
  revert c.
  apply (collapse_newlines_ind
           (fun s out => forall c, In c out -> In c s)).
  - intros x Hx c Hc. destruct (Nat.leb_spec 3 (length x)) as [H3 | H3];
      [| exact Hc].
    assert (c = LF) by (cbn in Hc; intuition). subst c.
    destruct x as [| a x]; [simpl in H3; lia |].
    left. apply (all_lf (a :: x)); [exact Hx | now left].
  - intros x c t out Hx Hc IH d Hd.
    apply in_app_or in Hd. apply in_or_app. destruct Hd as [Hd | Hd].
    + left. destruct (Nat.leb_spec 3 (length x)) as [H3 | H3]; [| exact Hd].
      assert (d = LF) by (cbn in Hd; intuition). subst d.
      destruct x as [| a x]; [simpl in H3; lia |].
      left. apply (all_lf (a :: x)); [exact Hx | now left].
    + right. destruct Hd as [-> | Hd]; [now left | right; now apply IH].
Qed.

(** The step removes line feeds and nothing else: the other characters
    are the same, in the same order, and the text does not grow. *)
Theorem collapse_newlines_keeps (s : str) :
  filter (fun c => negb (is_lf c)) (collapse_newlines s)
    = filter (fun c => negb (is_lf c)) s /\
  length (collapse_newlines s) <= length s.
Proof.
  split.
  - now apply collapse_newlines_filter.
  - apply (collapse_newlines_ind (fun s out => length out <= length s)).
    + intros x Hx. destruct (Nat.leb_spec 3 (length x)); [simpl; lia | lia].
    + intros x c t out Hx Hc Hout. rewrite !length_app. cbn [length].
      destruct (Nat.leb_spec 3 (length x)); simpl; lia.
Qed.

End Collapse.

Lemma collapse_newlines_run_witness :
  collapse_newlines
    (lit "a\n\nb" ++ lit "\n\n\n\n\n" ++ lit "c\n\n\nd")
  = collapse_newlines (lit "a\n\nb")
    ++ (if 3 <=? length (lit "\n\n\n\n\n") then [LF; LF]
        else lit "\n\n\n\n\n")
    ++ collapse_newlines (lit "c\n\n\nd").
Proof.
  apply (collapse_newlines_run (db := latin1)
           (lit "a\n\nb") (lit "\n\n\n\n\n") (lit "c\n\n\nd"));
    reflexivity.
Defined.

End CollapseFacts.

(** ** The normaliser, steps 2 and 3: what a substitution deletes *)

Module DeleteFacts.
Import Py Re Normalizer ReFacts CharFacts StrFacts ShapeFacts MergeFacts.
Import HyphenFacts Examples.
Local Open Scope nat_scope.

Section Deleting.
Context {db : UnicodeDB}.

(** A substitution by [\1\2] whose matches are a first group, a middle
    and a second group rewrites a text by deleting middles: what holds of
    the empty text, goes through a copied character and through a
    deleted middle, holds of every text and its image. *)
Lemma scan_deleting (r : regex) (D : str -> str -> str -> Prop)
    (P : str -> str -> Prop) :
  (forall pv s,
     match_at r pv s = None \/
     exists x m y more,
       s = x ++ m ++ y ++ more /\ x <> [] /\ D x m y /\
       match_at r pv s
       = Some (length x + length m + length y,
               [(2, (length x + length m, length x + length m + length y));
                (1, (0, length x))])) ->
  P [] [] ->
  (forall c t out, P t out -> P (c :: t) (c :: out)) ->
  (forall x m y more out,
     D x m y -> P more out -> P (x ++ m ++ y ++ more) (x ++ y ++ out)) ->
  forall s pv, P s (scan r [RGrp 1; RGrp 2] pv 0 s).
Proof.
  intros Hshape Hnil Hcons Hdel s.
  remember (length s) as n eqn:En. revert s En.
  induction n as [n IH] using lt_wf_ind. intros s En pv.
  destruct (Hshape pv s) as [Hnone | [x [m [y [more [E [Hx [Hm Hmatch]]]]]]]].
  - destruct s as [| c t]; cbn [scan]; rewrite Hnone; [exact Hnil |].
    apply Hcons. apply (IH (length t)); [| reflexivity].
    subst n. cbn [length]. lia.
  - subst s.
    replace (x ++ m ++ y ++ more) with ((x ++ m ++ y) ++ more) in Hmatch |- *
      by now rewrite <- !app_assoc.
    rewrite scan_matched with
      (cs := [(2, (length x + length m, length x + length m + length y));
              (1, (0, length x))]).
    + replace ((x ++ m ++ y) ++ more) with (x ++ m ++ y ++ more)
        by now rewrite <- !app_assoc.
      rewrite expand_two_groups, <- app_assoc.
      apply Hdel; [exact Hm |].
      apply (IH (length more)); [| reflexivity].
      subst n. rewrite !length_app.
      destruct x; [congruence | cbn [length]; lia].
    + destruct x; [congruence | discriminate].
    + rewrite Hmatch. now rewrite !length_app, Nat.add_assoc.
Qed.

(** *** The word merge deletes white space between lowercase words *)

Lemma split_word_shape (pv : option char) (s : str) :
  match_at split_word pv s = None \/
  exists x m y more,
    s = x ++ m ++ y ++ more /\ x <> [] /\
    (m <> [] /\ forallb isspace m = true /\
     lower2 x = true /\ lower2 y = true) /\
    match_at split_word pv s
    = Some (length x + length m + length y,
            [(2, (length x + length m, length x + length m + length y));
             (1, (0, length x))]).
Proof.
  destruct (run_split islower_az s) as [x [r1 [E1 [Hx Hr1]]]].
  destruct (run_split isspace r1) as [m [r2 [E2 [Hm Hr2]]]].
  destruct (run_split islower_az r2) as [y [r3 [E3 [Hy Hr3]]]].
  subst r2 r1 s.
  rewrite (match_split_word pv x _ Hx Hr1).
  destruct (xorb _ _); [| now left]. cbn [andb].
  destruct (Nat.leb_spec 2 (length x)) as [H2x | H2x]; [| now left].
  rewrite (exec_separator _ m _ _ _ Hm Hr2).
  destruct (Nat.leb_spec 1 (length m)) as [H1m | H1m]; [| now left].
  rewrite (exec_second_fragment _ y r3 _ _ Hy Hr3).
  destruct (Nat.leb_spec 2 (length y)) as [H2y | H2y]; [| now left].
  cbn [andb]. destruct (negb (word_at (hd_error r3))); [| now left].
  right. exists x, m, y, r3. split; [reflexivity |].
  split; [destruct x; [simpl in H2x; lia | discriminate] |].
  split.
  - split; [destruct m; [simpl in H1m; lia | discriminate] |].
    split; [exact Hm |]. unfold lower2. rewrite Hx, Hy.
    split; apply Nat.leb_le; assumption.
  - reflexivity.
Qed.

(** What the word merge does to a text: it copies characters and, between
    two runs of lowercase letters, drops a run of white space. *)
Lemma merge_words_ind (P : str -> str -> Prop) :
  P [] [] ->
  (forall c t out, P t out -> P (c :: t) (c :: out)) ->
  (forall x m y more out,
     m <> [] -> forallb isspace m = true ->
     lower2 x = true -> lower2 y = true ->
     P more out -> P (x ++ m ++ y ++ more) (x ++ y ++ out)) ->
  forall s, P s (merge_words s).
Proof.
  intros Hnil Hcons Hdel s. unfold merge_words, sub.
  apply (scan_deleting split_word
           (fun x m y => m <> [] /\ forallb isspace m = true /\
                         lower2 x = true /\ lower2 y = true)).
  - exact split_word_shape.
  - exact Hnil.
  - exact Hcons.
  - intros x m y more out [Hm0 [Hm [Hlx Hly]]] Hout. now apply Hdel.
Qed.

Lemma filter_none (q : char -> bool) (p : char -> bool) (m : str) :
  (forall c, p c = true -> q c = false) ->
  forallb p m = true -> filter q m = [].
Proof.
  intros Hq Hm. induction m as [| c m IH]; [reflexivity |].
  cbn [forallb] in Hm. apply andb_true_iff in Hm. destruct Hm as [Hc Hm].
  cbn [filter]. rewrite (Hq c Hc). now apply IH.
Qed.

Lemma merge_words_filter (q : char -> bool) (s : str) :
  (forall c, isspace c = true -> q c = false) ->
  filter q (merge_words s) = filter q s.
Proof.
  intros Hq.
  apply (merge_words_ind (fun s out => filter q out = filter q s)).
  - reflexivity.
  - intros c t out H. cbn [filter]. now rewrite H.
  - intros x m y more out _ Hm _ _ H.
    rewrite !filter_app, H, (filter_none q isspace m Hq Hm). reflexivity.
Qed.

(** The word merge removes white space and nothing else: the other
    characters are the same, in the same order, and the text does not
    grow. *)
Theorem merge_words_keeps (s : str) :
  filter (fun c => negb (isspace c)) (merge_words s)
    = filter (fun c => negb (isspace c)) s /\
  length (merge_words s) <= length s.
Proof.
  split.
  - apply merge_words_filter. intros c Hc. now rewrite Hc.
  - apply (merge_words_ind (fun s out => length out <= length s)).
    + reflexivity.
    + intros c t out H. cbn [length]. lia.
    + intros x m y more out _ _ _ _ H. rewrite !length_app. lia.
Qed.

(** *** The hyphen rejoin deletes a hyphen and white space *)

Lemma exec_class_fail (p : char -> bool) (r : regex)
    (k : state -> option state) (pv : option char) (s : str)
    (n : nat) (cs : list (nat * (nat * nat))) :
  match s with c :: _ => p c = false | [] => True end ->
  exec (Seq (Cls p) r) k (State pv s n cs) = None.
Proof.
  intros H. cbn [exec rest pos caps].
  destruct s as [| c t]; [reflexivity | now rewrite H].
Qed.

Lemma word_group_needs_word (pv : option char) (s : str) (n : nat)
    (cs : list (nat * (nat * nat))) :
  stops isword s = true ->
  exec (Grp 2 (Rep isword 1)) Some (State pv s n cs) = None.
Proof.
  intros H. cbn [exec prev rest pos caps].
  destruct s as [| c t]; [reflexivity |].
  cbn [stops] in H. apply negb_true_iff in H. cbn [rep]. now rewrite H.
Qed.

Lemma indent_word_fails (pv : option char) (b r : str) (n : nat)
    (cs : list (nat * (nat * nat))) :
  forallb isspace b = true -> stops isspace r = true ->
  stops isword r = true ->
  exec (Seq (Rep isspace 0) (Grp 2 (Rep isword 1))) Some
       (State pv (b ++ r) n cs) = None.
Proof.
  intros Hb Hr Hw.
  change (exec (Seq (Rep isspace 0) (Grp 2 (Rep isword 1))) Some
            (State pv (b ++ r) n cs))
    with (rep isspace (exec (Grp 2 (Rep isword 1)) Some) 0 pv n cs
            (b ++ r)).
  rewrite rep_whole_run; [| | exact Hb | exact Hr].
  - cbn [Nat.leb]. now apply word_group_needs_word.
  - intros pv' c t n' Hc. apply word_group_needs_word.
    cbn [stops]. now rewrite (space_not_word c Hc).
Qed.

Lemma line_break_fails (pv : option char) (w r : str) (n : nat)
    (cs : list (nat * (nat * nat))) :
  forallb isspace w = true -> stops isspace r = true ->
  existsb is_lf w = false \/ stops isword r = true ->
  exec (Seq (Rep isspace 0)
            (Seq (Cls is_lf)
                 (Seq (Rep isspace 0) (Grp 2 (Rep isword 1))))) Some
       (State pv (w ++ r) n cs) = None.
Proof.
  intros Hw Hr Hcase.
  change (exec (Seq (Rep isspace 0)
                    (Seq (Cls is_lf)
                         (Seq (Rep isspace 0) (Grp 2 (Rep isword 1)))))
            Some (State pv (w ++ r) n cs))
    with (rep isspace
            (exec (Seq (Cls is_lf)
                       (Seq (Rep isspace 0) (Grp 2 (Rep isword 1)))) Some)
            0 pv n cs (w ++ r)).
  apply rep_fails; [| exact Hw | exact Hr].
  intros pv' n' a' b' E. destruct b' as [| c b''].
  - cbn [app]. apply exec_class_fail.
    destruct r as [| c r']; [exact I |].
    cbn [stops] in Hr. apply negb_true_iff in Hr.
    destruct (is_lf c) eqn:Hc; [| reflexivity].
    apply lf_is_space in Hc. congruence.
  - cbn [app]. destruct (is_lf c) eqn:Hc.
    + rewrite exec_class_step by exact Hc.
      subst w. rewrite forallb_app in Hw. apply andb_true_iff in Hw.
      destruct Hw as [_ Hw]. cbn [forallb] in Hw.
      apply andb_true_iff in Hw. destruct Hw as [_ Hb].
      destruct Hcase as [Hno | Hword].
      * rewrite existsb_app in Hno. apply orb_false_iff in Hno.
        destruct Hno as [_ Hno]. cbn [existsb] in Hno.
        rewrite Hc in Hno. discriminate.
      * now apply indent_word_fails.
    + apply exec_class_fail. exact Hc.
Qed.

Lemma broken_hyphen_start (pv : option char) (u r1 : str) :
  forallb isword u = true -> stops isword r1 = true ->
  match_at broken_hyphen pv (u ++ r1)
  = if 1 <=? length u
    then match exec (Seq (Cls is_hyphen)
                      (Seq (Rep isspace 0)
                        (Seq (Cls is_lf)
                          (Seq (Rep isspace 0) (Grp 2 (Rep isword 1))))))
                    Some
                    (State (prev_after pv u) r1 (length u)
                           [(1, (0, length u))]) with
         | Some st => Some (pos st, caps st)
         | None => None
         end
    else None.
Proof.
  intros Hu Hr. unfold match_at, start.
  change (exec broken_hyphen Some (State pv (u ++ r1) 0 []))
    with (rep isword
            (fun st' =>
               exec (Seq (Cls is_hyphen)
                      (Seq (Rep isspace 0)
                        (Seq (Cls is_lf)
                          (Seq (Rep isspace 0) (Grp 2 (Rep isword 1))))))
                    Some
                    (State (prev st') (rest st') (pos st')
                           ((1, (0, pos st')) :: caps st')))
            1 pv 0 [] (u ++ r1)).
  rewrite rep_whole_run; [| | exact Hu | exact Hr].
  - cbn [prev rest pos caps Nat.add]. now destruct (1 <=? length u).
  - intros pv' c t n' Hc. cbn [prev rest pos caps].
    apply exec_class_fail. now apply word_not_hyphen.
Qed.

Lemma broken_hyphen_needs_word (pv : option char) (s : str) :
  stops isword s = true -> match_at broken_hyphen pv s = None.
Proof.
  intros H. exact (broken_hyphen_start pv [] s eq_refl H).
Qed.

Lemma broken_hyphen_shape (pv : option char) (s : str) :
  match_at broken_hyphen pv s = None \/
  exists u m v more,
    s = u ++ m ++ v ++ more /\ u <> [] /\
    (exists w, m = HYPHEN :: w /\ forallb isspace w = true /\ In LF w /\
               forallb isword u = true /\ forallb isword v = true /\
               v <> []) /\
    match_at broken_hyphen pv s
    = Some (length u + length m + length v,
            [(2, (length u + length m, length u + length m + length v));
             (1, (0, length u))]).
Proof.
  destruct (run_split isword s) as [u [r1 [E1 [Hu Hr1]]]]. subst s.
  destruct u as [| c0 u0] eqn:Eu.
  { left. now apply broken_hyphen_needs_word. }
  rewrite <- Eu in *. assert (Hu0 : u <> []) by (rewrite Eu; discriminate).
  assert (H1 : (1 <=? length u) = true)
    by (rewrite Eu; reflexivity).
  destruct r1 as [| h r2].
  { left. rewrite (broken_hyphen_start pv u [] Hu Hr1), H1.
    now rewrite exec_class_fail. }
  destruct (is_hyphen h) eqn:Hh.
  2:{ left. rewrite (broken_hyphen_start pv u _ Hu Hr1), H1.
      now rewrite exec_class_fail. }
  assert (h = HYPHEN) by (now apply N.eqb_eq in Hh). subst h.
  destruct (run_split isspace r2) as [w [r3 [E2 [Hw Hr3]]]].
  destruct (run_split isword r3) as [v [r4 [E3 [Hv Hr4]]]].
  subst r3 r2.
  destruct (existsb is_lf w) eqn:Hlf.
  - destruct v as [| d v0] eqn:Ev.
    + left. rewrite (broken_hyphen_start pv u _ Hu Hr1), H1.
      rewrite exec_class_step by exact Hh.
      rewrite line_break_fails; [reflexivity | exact Hw | exact Hr3 |].
      now right.
    + rewrite <- Ev in *.
      assert (Hv0 : v <> []) by (rewrite Ev; discriminate).
      assert (Hin : In LF w).
      { apply existsb_exists in Hlf. destruct Hlf as [c [Hc Hc']].
        apply is_lf_true in Hc'. now subst c. }
      right. exists u, (HYPHEN :: w), v, r4.
      split; [reflexivity |]. split; [exact Hu0 |]. split.
      * exists w. repeat split; assumption.
      * now apply match_broken_hyphen.
  - left. rewrite (broken_hyphen_start pv u _ Hu Hr1), H1.
    rewrite exec_class_step by exact Hh.
    rewrite line_break_fails; [reflexivity | exact Hw | exact Hr3 |].
    now left.
Qed.

(** What the hyphen rejoin does to a text: it copies characters and,
    between two runs of word characters, drops a hyphen with the white
    space after it, which holds a line feed. *)
Lemma rejoin_hyphens_ind (P : str -> str -> Prop) :
  P [] [] ->
  (forall c t out, P t out -> P (c :: t) (c :: out)) ->
  (forall u w v more out,
     forallb isspace w = true -> In LF w ->
     forallb isword u = true -> forallb isword v = true ->
     P more out -> P (u ++ (HYPHEN :: w) ++ v ++ more) (u ++ v ++ out)) ->
  forall s, P s (rejoin_hyphens s).
Proof.
  intros Hnil Hcons Hdel s. unfold rejoin_hyphens, sub.
  apply (scan_deleting broken_hyphen
           (fun u m v =>
              exists w, m = HYPHEN :: w /\ forallb isspace w = true /\
                        In LF w /\ forallb isword u = true /\
                        forallb isword v = true /\ v <> [])).
  - exact broken_hyphen_shape.
  - exact Hnil.
  - exact Hcons.
  - intros u m v more out [w [-> [Hw [Hlf [Hu [Hv _]]]]]] Hout.
    now apply Hdel.
Qed.

Lemma rejoin_hyphens_filter (q : char -> bool) (s : str) :
  (forall c, isspace c = true -> q c = false) -> q HYPHEN = false ->
  filter q (rejoin_hyphens s) = filter q s.
Proof.
  intros Hq Hh.
  apply (rejoin_hyphens_ind (fun s out => filter q out = filter q s)).
  - reflexivity.
  - intros c t out H. cbn [filter]. now rewrite H.
  - intros u w v more out Hw _ _ _ H.
    rewrite !filter_app, H. cbn [filter]. rewrite Hh.
    now rewrite (filter_none q isspace w Hq Hw).
Qed.

(** The hyphen rejoin removes hyphens and white space and nothing else:
    the other characters are the same, in the same order, and the text
    does not grow. *)
Theorem rejoin_hyphens_keeps (s : str) :
  filter (fun c => negb (isspace c) && negb (is_hyphen c))
         (rejoin_hyphens s)
    = filter (fun c => negb (isspace c) && negb (is_hyphen c)) s /\
  length (rejoin_hyphens s) <= length s.
Proof.
  split.
  - apply rejoin_hyphens_filter; [| reflexivity].
    intros c Hc. now rewrite Hc.
  - apply (rejoin_hyphens_ind (fun s out => length out <= length s)).
    + reflexivity.
    + intros c t out H. cbn [length]. lia.
    + intros u w v more out _ _ _ _ H.
      rewrite !length_app. cbn [length]. lia.
Qed.

End Deleting.
End DeleteFacts.

(** ** The hyphen rejoin, anywhere in the text *)

Module RejoinFacts.
Import Py Re Normalizer ReFacts CharFacts StrFacts ShapeFacts MergeFacts.
Import HyphenFacts CollapseFacts DeleteFacts Examples.
Local Open Scope nat_scope.

Section Anywhere.
Context {db : UnicodeDB}.

(** Where the pattern matches, the text begins with a run of word
    characters, a hyphen, white space with a line feed in it and a whole
    run of word characters. *)
Lemma broken_hyphen_form (pv : option char) (s : str) :
  match_at broken_hyphen pv s = None \/
  exists u w v more,
    s = u ++ (HYPHEN :: w) ++ v ++ more /\ u <> [] /\ v <> [] /\
    forallb isword u = true /\ forallb isword v = true /\
    forallb isspace w = true /\ In LF w /\ stops isword more = true.
Proof.
  destruct (run_split isword s) as [u [r1 [E1 [Hu Hr1]]]]. subst s.
  destruct u as [| c0 u0] eqn:Eu.
  { left. now apply broken_hyphen_needs_word. }
  rewrite <- Eu in *. assert (Hu0 : u <> []) by (rewrite Eu; discriminate).
  assert (H1 : (1 <=? length u) = true)
    by (rewrite Eu; reflexivity).
  destruct r1 as [| h r2].
  { left. rewrite (broken_hyphen_start pv u [] Hu Hr1), H1.
    now rewrite exec_class_fail. }
  destruct (is_hyphen h) eqn:Hh.
  2:{ left. rewrite (broken_hyphen_start pv u _ Hu Hr1), H1.
      now rewrite exec_class_fail. }
  assert (h = HYPHEN) by (now apply N.eqb_eq in Hh). subst h.
  destruct (run_split isspace r2) as [w [r3 [E2 [Hw Hr3]]]].
  destruct (run_split isword r3) as [v [r4 [E3 [Hv Hr4]]]].
  subst r3 r2.
  destruct (existsb is_lf w) eqn:Hlf.
  - destruct v as [| d v0] eqn:Ev.
    + left. rewrite (broken_hyphen_start pv u _ Hu Hr1), H1.
      rewrite exec_class_step by exact Hh.
      rewrite line_break_fails; [reflexivity | exact Hw | exact Hr3 |].
      now right.
    + rewrite <- Ev in *.
      assert (Hv0 : v <> []) by (rewrite Ev; discriminate).
      assert (Hin : In LF w).
      { apply existsb_exists in Hlf. destruct Hlf as [c [Hc Hc']].
        apply is_lf_true in Hc'. now subst c. }
      right. exists u, w, v, r4. now repeat split.
  - left. rewrite (broken_hyphen_start pv u _ Hu Hr1), H1.
    rewrite exec_class_step by exact Hh.
    rewrite line_break_fails; [reflexivity | exact Hw | exact Hr3 |].
    now left.
Qed.

(** *** The end of the text before the broken word *)

Lemma lstrip_spaces (a b : str) :
  forallb isspace a = true -> lstrip (a ++ b) = lstrip b.
Proof.
  induction a as [| c a IH]; [reflexivity |].
  cbn [forallb app lstrip]. intros H. apply andb_true_iff in H.
  destruct H as [Hc H]. rewrite Hc. now apply IH.
Qed.

Lemma stops_lstrip_prefix (p : char -> bool) (a b : str) :
  stops p (lstrip (a ++ b)) = true -> stops p (lstrip a) = true.
Proof.
  induction a as [| c a IH]; [reflexivity |].
  cbn [app lstrip]. destruct (isspace c); [exact IH | trivial].
Qed.

Lemma rev_rstrip (s : str) : rev (rstrip s) = lstrip (rev s).
Proof. unfold rstrip. apply rev_involutive. Qed.

(** Both conditions on the end of a text pass to what is left of it
    after any beginning. *)
Lemma boundary_tail (x y : str) :
  stops isword (rev (x ++ y)) = true ->
  stops is_hyphen (rev (rstrip (x ++ y))) = true ->
  stops isword (rev y) = true /\
  stops is_hyphen (rev (rstrip y)) = true.
Proof.
  intros A B. split; [now apply (stops_rev_tail isword x y) |].
  rewrite rev_rstrip in *. rewrite rev_app_distr in B.
  now apply (stops_lstrip_prefix is_hyphen (rev y) (rev x)).
Qed.

Lemma word_end_excluded (p x : str) :
  stops isword (rev (p ++ x)) = true -> x <> [] ->
  forallb isword x = true -> False.
Proof.
  intros A Hx Hw. rewrite rev_app_distr in A.
  destruct (rev x) as [| c l] eqn:E.
  - apply (f_equal (@rev char)) in E. rewrite rev_involutive in E.
    now apply Hx.
  - cbn [app stops] in A. rewrite forallb_forall in Hw.
    rewrite (Hw c) in A; [discriminate |].
    apply in_rev. rewrite E. now left.
Qed.

Lemma hyphen_end_excluded (p w : str) :
  stops is_hyphen (rev (rstrip (p ++ HYPHEN :: w))) = true ->
  forallb isspace w = true -> False.
Proof.
  intros B Hw. rewrite rev_rstrip, rev_app_distr in B.
  cbn [rev] in B. rewrite <- !app_assoc in B.
  assert (Hr : forallb isspace (rev w) = true).
  { apply forallb_forall. intros c Hc. rewrite forallb_forall in Hw.
    apply Hw. now apply in_rev. }
  rewrite (lstrip_spaces (rev w) _ Hr) in B.
  cbn in B. discriminate.
Qed.

(** A match that begins in the text before the broken word ends in it. *)
Lemma match_inside_prefix (pre u1 w1 v1 more1 : str) (d : char) (r : str) :
  pre <> [] ->
  stops isword (rev pre) = true ->
  stops is_hyphen (rev (rstrip pre)) = true ->
  isword d = true ->
  forallb isword u1 = true -> forallb isword v1 = true ->
  forallb isspace w1 = true ->
  pre ++ d :: r = u1 ++ (HYPHEN :: w1) ++ v1 ++ more1 ->
  exists more2,
    pre = u1 ++ (HYPHEN :: w1) ++ v1 ++ more2 /\ more1 = more2 ++ d :: r.
Proof.
  intros Hne A B Hd Hu Hv Hw E.
  apply app_eq_app in E. destruct E as [l [[E1 E2] | [E1 E2]]].
  - (* the first run ends in the text before *)
    apply app_eq_app in E2.
    destruct E2 as [l2 [[E3 E4] | [E3 E4]]].
    + (* the text before ends within the hyphen and the white space *)
      subst pre. exfalso. destruct l2 as [| e l2].
      * rewrite app_nil_r in E3. subst l.
        exact (hyphen_end_excluded u1 w1 B Hw).
      * cbn [app] in E4. injection E4 as <- _.
        assert (Hin : In d (HYPHEN :: w1))
          by (rewrite E3; apply in_or_app; right; now left).
        destruct Hin as [<- | Hin].
        -- pose proof (word_not_hyphen HYPHEN Hd) as X.
           cbv in X. discriminate X.
        -- rewrite forallb_forall in Hw. specialize (Hw d Hin).
           rewrite (word_not_space d Hd) in Hw. discriminate.
    + (* the text before goes beyond the white space *)
      subst l. apply app_eq_app in E4.
      destruct E4 as [l3 [[E5 E6] | [E5 E6]]].
      * subst pre v1. exfalso. destruct l2 as [| e l2].
        -- rewrite app_nil_r in B.
           exact (hyphen_end_excluded u1 w1 B Hw).
        -- rewrite forallb_app in Hv. apply andb_true_iff in Hv.
           rewrite app_assoc in A.
           apply (word_end_excluded _ (e :: l2) A);
             [discriminate | apply Hv].
      * subst l2 pre. exists l3. split; [| exact E6].
        now rewrite <- ?app_assoc.
  - (* the text before lies within the first run *)
    exfalso. subst u1. rewrite forallb_app in Hu.
    apply andb_true_iff in Hu.
    apply (word_end_excluded [] pre); [exact A | exact Hne | apply Hu].
Qed.

Lemma rejoin_copy (c : char) (t : str) :
  match_at broken_hyphen None (c :: t) = None ->
  rejoin_hyphens (c :: t) = c :: rejoin_hyphens t.
Proof.
  intros H. unfold rejoin_hyphens, sub. cbn [scan]. rewrite H.
  f_equal. now apply scan_blind.
Qed.

(** C10 (amended): wherever it stands in the text, a run of word
    characters ending in a hyphen is merged with the next run of word
    characters when white space with at least one line feed in it
    separates them, whatever else the white space holds (spaces before
    the line feed, a blank line after it) and whatever the word
    characters are (uppercase, lowercase, digits, underscore), provided
    the text before the first run ends neither in a word character (the
    run is whole) nor in a hyphen with or without white space after it
    (the run is not what an earlier broken word continues with); the
    hyphen and the white space go, and the text before and the text
    behind are treated on their own. *)
Theorem rejoin_hyphens_across_whitespace (pre u w v post : str) :
  stops isword (rev pre) = true ->
  stops is_hyphen (rev (rstrip pre)) = true ->
  u <> [] -> v <> [] ->
  forallb isword u = true -> forallb isword v = true ->
  forallb isspace w = true -> In LF w ->
  stops isword post = true ->
  rejoin_hyphens (pre ++ u ++ [HYPHEN] ++ w ++ v ++ post)
  = rejoin_hyphens pre ++ u ++ v ++ rejoin_hyphens post.
Proof.
  intros A B Hu0 Hv0 Hu Hv Hw Hlf Hp.
  set (rest := u ++ [HYPHEN] ++ w ++ v ++ post).
  assert (Hrest : exists d r, rest = d :: r /\ isword d = true).
  { unfold rest. destruct u as [| d u']; [congruence |].
    exists d, (u' ++ [HYPHEN] ++ w ++ v ++ post). split; [reflexivity |].
    cbn [forallb] in Hu. apply andb_true_iff in Hu. apply Hu. }
  destruct Hrest as [d [r [Er Hd]]].
  assert (Hrw : stops isword rest = false)
    by (rewrite Er; cbn [stops]; now rewrite Hd).
  remember (length pre) as n eqn:En. revert pre En A B.
  induction n as [n IH] using lt_wf_ind. intros pre En A B.
  destruct pre as [| c t].
  - cbn [app]. unfold rest.
    now rewrite (rejoin_first_broken_word u w v post).
  - destruct (broken_hyphen_form None (c :: t))
      as [Hnone | [u1 [w1 [v1 [more2 [E [Hu1 [Hv1 [Hwu [Hwv [Hsp
            [Hl1 Hm2]]]]]]]]]]]].
    + (* nothing to rejoin at the head of the text *)
      assert (Hnone' : match_at broken_hyphen None ((c :: t) ++ rest)
                       = None).
      { destruct (broken_hyphen_form None ((c :: t) ++ rest))
          as [H | [u1 [w1 [v1 [more1 [E [Hu1 [Hv1 [Hwu [Hwv [Hsp
                [Hl1 Hm1]]]]]]]]]]]]; [exact H | exfalso].
        rewrite Er in E.
        destruct (match_inside_prefix (c :: t) u1 w1 v1 more1 d r
                    ltac:(discriminate) A B Hd Hwu Hwv Hsp E)
          as [more2 [E2 E3]].
        assert (Hm2 : stops isword more2 = true).
        { destruct more2 as [| e more2]; [reflexivity |].
          subst more1. exact Hm1. }
        rewrite E2 in Hnone.
        rewrite (match_broken_hyphen None u1 w1 v1 more2
                   Hu1 Hv1 Hwu Hwv Hsp Hl1 Hm2) in Hnone.
        discriminate. }
      rewrite (rejoin_copy c t Hnone).
      change ((c :: t) ++ rest) with (c :: t ++ rest) in *.
      rewrite (rejoin_copy c (t ++ rest) Hnone').
      cbn [app]. f_equal.
      destruct (boundary_tail [c] t A B) as [A' B'].
      apply (IH (length t)); [subst n; cbn [length]; lia | reflexivity
                              | exact A' | exact B'].
    + (* a broken word at the head of the text *)
      rewrite E in A, B |- *.
      assert (Hne : more2 <> []).
      { intros ->. rewrite app_nil_r in A.
        apply (word_end_excluded (u1 ++ HYPHEN :: w1) v1);
          [now rewrite <- app_assoc | exact Hv1 | exact Hwv]. }
      change (u1 ++ (HYPHEN :: w1) ++ v1 ++ more2)
        with (u1 ++ [HYPHEN] ++ w1 ++ v1 ++ more2) in *.
      rewrite (rejoin_first_broken_word u1 w1 v1 more2)
        by assumption.
      replace ((u1 ++ [HYPHEN] ++ w1 ++ v1 ++ more2) ++ rest)
        with (u1 ++ [HYPHEN] ++ w1 ++ v1 ++ (more2 ++ rest))
        by now rewrite <- !app_assoc.
      rewrite (rejoin_first_broken_word u1 w1 v1 (more2 ++ rest));
        try assumption.
      2:{ now rewrite stops_app. }
      rewrite <- !app_assoc. f_equal. f_equal.
      assert (Hsplit : u1 ++ [HYPHEN] ++ w1 ++ v1 ++ more2
                       = (u1 ++ [HYPHEN] ++ w1 ++ v1) ++ more2)
        by now rewrite <- !app_assoc.
      rewrite Hsplit in A, B.
      destruct (boundary_tail _ more2 A B) as [A' B'].
      apply (IH (length more2)); [| reflexivity | exact A' | exact B'].
      subst n. apply (f_equal (@length char)) in E.
      rewrite E, !length_app. destruct u1; [congruence |].
      cbn [length]. lia.
Qed.

End Anywhere.

(** C10, as stated, fails: two broken words in a row; the run [b] is what
    the first one continues with, the scan has passed it when it could
    begin the second one, and its hyphen and line feed stay. *)
Lemma rejoin_hyphens_skips_continuation :
  forallb isword (lit "b") = true /\ forallb isword (lit "c") = true /\
  forallb isspace [LF] = true /\
  rejoin_hyphens (lit "a-\n" ++ lit "b" ++ [HYPHEN] ++ [LF] ++ lit "c")
    = lit "ab-\nc" /\
  clean_academic_text (lit "a-\nb-\nc") = lit "ab-\n\nc".
Proof. vm_compute. now repeat split. Qed.

Lemma rejoin_hyphens_across_whitespace_witness :
  rejoin_hyphens
    (lit "x-\ny, a well-known " ++ lit "multi" ++ [HYPHEN] ++ lit " \n\n "
       ++ lit "word" ++ lit " index")
  = rejoin_hyphens (lit "x-\ny, a well-known ")
    ++ lit "multi" ++ lit "word" ++ rejoin_hyphens (lit " index").
Proof.
  apply (rejoin_hyphens_across_whitespace (db := latin1)
           (lit "x-\ny, a well-known ") (lit "multi") (lit " \n\n ")
           (lit "word") (lit " index"));
    try discriminate; try reflexivity.
  vm_compute. tauto.
Defined.

End RejoinFacts.

(** ** The normaliser as a whole: what it keeps, when it returns nothing *)

Module KeepFacts.
Import Py Re Normalizer Effects Extractor Chunker Pipeline.
Import ReFacts CharFacts StrFacts ShapeFacts MergeFacts HyphenFacts.
Import PipelineFacts ExtractFacts CollapseFacts DeleteFacts Examples.
Local Open Scope nat_scope.

Section Lines.
Variable q : char -> bool.
Hypothesis q_space : forall c, isspace c = true -> q c = false.

Lemma q_lf : q LF = false.
Proof. now apply q_space. Qed.

Lemma lstrip_filter (s : str) : filter q (lstrip s) = filter q s.
Proof.
  induction s as [| c s IH]; [reflexivity |]. cbn [lstrip].
  destruct (isspace c) eqn:Hc; [| reflexivity].
  cbn [filter]. now rewrite (q_space c Hc).
Qed.

Lemma filter_reversed (s : str) : filter q (rev s) = rev (filter q s).
Proof.
  induction s as [| c s IH]; [reflexivity |].
  cbn [rev filter]. rewrite filter_app, IH. cbn [filter].
  destruct (q c); [reflexivity | now rewrite app_nil_r].
Qed.

Lemma strip_filter (s : str) : filter q (strip s) = filter q s.
Proof.
  unfold strip, rstrip.
  now rewrite filter_reversed, lstrip_filter, filter_reversed,
    rev_involutive, lstrip_filter.
Qed.

Lemma split_filter (s : str) : filter q (concat (split LF s)) = filter q s.
Proof.
  induction s as [| c s IH]; [reflexivity |]. cbn [split].
  destruct (N.eqb_spec c LF) as [-> | Hc].
  - cbn [concat app filter]. now rewrite q_lf.
  - destruct (split LF s) as [| piece more] eqn:E.
    + now destruct (split_not_nil LF s).
    + cbn [concat app filter] in *. now rewrite IH.
Qed.

Lemma join_filter (ls : list str) :
  filter q (join [LF; LF] ls) = filter q (concat ls).
Proof.
  induction ls as [| l ls IH]; [reflexivity |].
  destruct ls as [| l2 ls].
  - cbn [join concat]. now rewrite app_nil_r.
  - rewrite join_cons. cbn [concat] in *.
    rewrite !filter_app, IH. cbn [filter].
    rewrite q_lf, ?filter_app. reflexivity.
Qed.

Lemma kept_lines_filter (pieces : list str) :
  filter q (concat (map strip
                      (filter (fun l => truthy (strip l)) pieces)))
  = filter q (concat pieces).
Proof.
  induction pieces as [| l pieces IH]; [reflexivity |].
  cbn [filter concat]. rewrite filter_app, <- (strip_filter l).
  destruct (strip l) as [| c t] eqn:E.
  - cbn [truthy]. now rewrite IH.
  - cbn [truthy map concat]. now rewrite filter_app, IH, E.
Qed.

(** Splitting into lines, stripping them, dropping the empty ones and
    joining the rest touches white space only. *)
Lemma lines_filter (s : str) :
  filter q (join [LF; LF] (stripped_lines s)) = filter q s.
Proof.
  unfold stripped_lines.
  now rewrite join_filter, kept_lines_filter, split_filter.
Qed.

End Lines.

Lemma filter_nil_forallb (q : char -> bool) (s : str) :
  filter q s = [] -> forallb (fun c => negb (q c)) s = true.
Proof.
  induction s as [| c s IH]; [reflexivity |]. cbn [filter forallb].
  destruct (q c); [discriminate |]. intros H. now rewrite IH.
Qed.

Lemma lstrip_blank (s : str) : forallb isspace s = true -> lstrip s = [].
Proof.
  induction s as [| c s IH]; [reflexivity |]. cbn [forallb lstrip].
  intros H. apply andb_true_iff in H. destruct H as [Hc H].
  rewrite Hc. now apply IH.
Qed.

Lemma strip_blank (s : str) : forallb isspace s = true -> strip s = [].
Proof. intros H. unfold strip. now rewrite lstrip_blank. Qed.

Lemma split_in (sep : char) (s piece : str) (c : char) :
  In piece (split sep s) -> In c piece -> In c s.
Proof.
  revert piece. induction s as [| d s IH]; intros piece Hp Hc.
  - cbn in Hp. destruct Hp as [<- | []]. contradiction.
  - cbn [split] in Hp. destruct (d =? sep)%N.
    + destruct Hp as [<- | Hp]; [contradiction |]. right. now apply (IH piece).
    + destruct (split sep s) as [| p0 more].
      * destruct Hp as [<- | []]. destruct Hc as [-> | []]. now left.
      * destruct Hp as [<- | Hp].
        -- destruct Hc as [-> | Hc]; [now left |].
           right. apply (IH p0); [now left | exact Hc].
        -- right. apply (IH piece); [now right | exact Hc].
Qed.

Lemma filter_all_false {A} (f : A -> bool) (l : list A) :
  (forall x, In x l -> f x = false) -> filter f l = [].
Proof.
  induction l as [| x l IH]; intros H; [reflexivity |].
  cbn [filter]. rewrite (H x (or_introl eq_refl)).
  apply IH. intros y Hy. apply H. now right.
Qed.

Lemma stripped_lines_blank (s : str) :
  forallb isspace s = true -> stripped_lines s = [].
Proof.
  intros H. unfold stripped_lines. rewrite filter_all_false; [reflexivity |].
  intros piece Hp. rewrite strip_blank; [reflexivity |].
  apply forallb_forall. intros c Hc.
  rewrite forallb_forall in H. apply H. now apply (split_in LF s piece).
Qed.

Section Whole.
Context {db : UnicodeDB}.

Lemma clean_filter (q : char -> bool) (text : str) :
  (forall c, isspace c = true -> q c = false) -> q HYPHEN = false ->
  filter q (clean_academic_text text) = filter q text.
Proof.
  intros Hq Hh. unfold clean_academic_text.
  rewrite (lines_filter q Hq).
  rewrite (rejoin_hyphens_filter q _ Hq Hh).
  rewrite (merge_words_filter q _ Hq).
  apply collapse_newlines_filter. now apply Hq.
Qed.

(** The normaliser neither adds, drops, changes nor reorders a character
    that is not white space and not a hyphen. *)
Theorem clean_keeps (text : str) :
  filter (fun c => negb (isspace c) && negb (is_hyphen c))
         (clean_academic_text text)
  = filter (fun c => negb (isspace c) && negb (is_hyphen c)) text.
Proof.
  apply clean_filter; [| reflexivity].
  intros c Hc. now rewrite Hc.
Qed.

(** *** Texts without word characters *)

Lemma not_found_without_words (pv : option char) (s : str) :
  forallb (fun c => negb (isword c)) s = true ->
  found split_word pv s = false /\ found broken_hyphen pv s = false.
Proof.
  intros H. split.
  - rewrite <- (app_nil_r s), found_through_separator by exact H.
    cbn [found]. now rewrite split_word_needs_lower.
  - revert pv. induction s as [| c s IH]; intros pv.
    + cbn [found]. now rewrite broken_hyphen_needs_word.
    + cbn [forallb] in H. apply andb_true_iff in H. destruct H as [Hc H].
      rewrite found_cons_unmatched.
      * now apply IH.
      * apply broken_hyphen_needs_word. exact Hc.
Qed.

Lemma clean_without_words (text : str) :
  forallb (fun c => negb (isword c)) text = true ->
  clean_academic_text text
  = join [LF; LF] (stripped_lines (collapse_newlines text)).
Proof.
  intros H. unfold clean_academic_text.
  assert (Hc : forallb (fun c => negb (isword c)) (collapse_newlines text)
               = true).
  { apply forallb_forall. intros c Hin.
    rewrite forallb_forall in H. apply H.
    now apply collapse_newlines_incl. }
  destruct (not_found_without_words None _ Hc) as [H1 H2].
  assert (E1 : merge_words (collapse_newlines text) = collapse_newlines text).
  { unfold merge_words, sub. now apply scan_unmatched. }
  rewrite E1.
  assert (E2 : rejoin_hyphens (collapse_newlines text)
               = collapse_newlines text).
  { unfold rejoin_hyphens, sub. now apply scan_unmatched. }
  now rewrite E2.
Qed.

Lemma clean_blank (text : str) :
  forallb isspace text = true -> clean_academic_text text = [].
Proof.
  intros H.
  assert (H1 : forallb (fun c => negb (isword c)) text = true).
  { apply forallb_forall. intros c Hc.
    rewrite forallb_forall in H. now rewrite (space_not_word c (H c Hc)). }
  rewrite (clean_without_words text H1).
  rewrite stripped_lines_blank; [reflexivity |].
  apply forallb_forall. intros c Hc.
  rewrite forallb_forall in H. apply H.
  now apply collapse_newlines_incl.
Qed.

Lemma clean_empty_blank (text : str) :
  clean_academic_text text = [] -> forallb isspace text = true.
Proof.
  intros E.
  assert (H1 : forallb (fun c => negb (isword c)) text = true).
  { assert (K : filter (fun c => negb (isspace c) && negb (is_hyphen c))
                  (clean_academic_text text)
                = filter (fun c => negb (isspace c) && negb (is_hyphen c))
                    text).
    { apply clean_filter; [| reflexivity]. intros c Hc. now rewrite Hc. }
    rewrite E in K. cbn [filter] in K.
    symmetry in K. apply filter_nil_forallb in K.
    apply forallb_forall. intros c Hc.
    rewrite forallb_forall in K. specialize (K c Hc).
    apply negb_true_iff in K. apply andb_false_iff in K.
    destruct K as [K | K]; apply negb_false_iff in K.
    - now rewrite (space_not_word c K).
    - destruct (isword c) eqn:W; [| reflexivity].
      apply word_not_hyphen in W. congruence. }
  rewrite (clean_without_words text H1) in E.
  assert (H2 : filter (fun c => negb (isspace c)) text = []).
  { rewrite <- (collapse_newlines_filter (fun c => negb (isspace c)) text)
      by reflexivity.
    rewrite <- (lines_filter (fun c => negb (isspace c)))
      by (intros c Hc; now rewrite Hc).
    now rewrite E. }
  apply filter_nil_forallb in H2.
  apply forallb_forall. intros c Hc.
  rewrite forallb_forall in H2. specialize (H2 c Hc).
  now rewrite negb_involutive in H2.
Qed.

(** The normaliser returns the empty string for the texts made of white
    space only, and for no other text. *)
Theorem clean_empty_iff_blank (text : str) :
  clean_academic_text text = [] <-> forallb isspace text = true.
Proof.
  split; [apply clean_empty_blank | apply clean_blank].
Qed.

Context {pdf : Fitz} {tk : Tiktoken}.

(** A document that opens and whose pages hold white space only (a
    scanned paper): every page is read, the page says that no text could
    be extracted and the run stops there, without an extraction error
    and whatever the encoding name and the window size are. *)
Theorem blank_document_stops (b : list Byte.byte) (pages : list page)
    (texts : list str) (max_tokens : Z) (name : str) :
  fitz_open b = inr pages ->
  map get_text pages = map inr texts ->
  Forall (fun t => forallb isspace t = true) texts ->
  main b max_tokens name
  = (FitzOpen :: map PageText (seq 0 (length pages)) ++ [StError NoText],
     Halt).
Proof.
  intros Hopen Hpages Hblank.
  assert (E : filter truthy (map clean_academic_text texts) = []).
  { apply filter_all_false. intros c Hc. apply in_map_iff in Hc.
    destruct Hc as [t [<- Ht]]. rewrite Forall_forall in Hblank.
    now rewrite (clean_blank t (Hblank t Ht)). }
  pose proof (extract_reads b pages texts Hopen Hpages) as Hx.
  rewrite E in Hx. cbn [join] in Hx.
  exact (main_no_text b max_tokens name _ Hx).
Qed.

End Whole.

Lemma blank_document_stops_witness :
  main [Byte.x25; Byte.x20; Byte.x0a; Byte.x20] 8192 (lit "bogus")
  = (FitzOpen :: map PageText (seq 0 (length [lit " \n "]))
       ++ [StError NoText],
     Halt).
Proof.
  apply (blank_document_stops (db := latin1) (pdf := sample_fitz)
           (tk := sample_tiktoken)
           [Byte.x25; Byte.x20; Byte.x0a; Byte.x20]
           [lit " \n "] [lit " \n "] 8192 (lit "bogus")).
  - reflexivity.
  - reflexivity.
  - repeat constructor.
Defined.

End KeepFacts.

(** ** The download link *)

Module DownloadFacts.
Import Py Chunker Download ChunkerFacts.
Local Open Scope N_scope.

Ltac byte_lia := zify; Z.to_euclidean_division_equations; lia.

Ltac by_cases :=
  repeat match goal with
  | |- context [?a <? ?b] => destruct (N.ltb_spec a b)
  | |- context [?a <=? ?b] => destruct (N.leb_spec a b)
  | |- context [?a =? ?b] => destruct (N.eqb_spec a b)
  | H : context [?a <? ?b] |- _ => destruct (N.ltb_spec a b)
  | H : context [?a <=? ?b] |- _ => destruct (N.leb_spec a b)
  | H : context [?a =? ?b] |- _ => destruct (N.eqb_spec a b)
  end.

Ltac some_inj H :=
  apply (f_equal (fun o => match o with Some x => x | None => [] end)) in H;
  cbv beta iota in H.

Lemma list_ind3 {A} (P : list A -> Prop) :
  P [] -> (forall a, P [a]) -> (forall a b, P [a; b]) ->
  (forall a b c l, P l -> P (a :: b :: c :: l)) ->
  forall l, P l.
Proof.
  intros H0 H1 H2 H3 l.
  enough (H : P l /\ (forall a, P (a :: l)) /\ (forall a b, P (a :: b :: l)))
    by apply H.
  induction l as [| x l [IH0 [IH1 IH2]]].
  - repeat split; auto.
  - repeat split; auto.
Qed.

(** *** The alphabet *)

Lemma b64_index_char (i : N) : i < 64 -> b64_index (b64_char i) = i.
Proof.
  intros H. unfold b64_index, b64_char, between.
  by_cases; cbn [andb]; by_cases; try lia.
Qed.

Lemma b64_char_not_pad (i : N) : i < 64 -> (b64_char i =? PAD) = false.
Proof.
  intros H. apply N.eqb_neq. unfold b64_char, PAD. by_cases; lia.
Qed.

Lemma b64_char_symbol (i : N) : i < 64 -> b64_symbol (b64_char i) = true.
Proof.
  intros H. unfold b64_symbol, b64_char, between, PAD.
  by_cases; cbn; try reflexivity; try lia.
Qed.

(** *** Base64 *)

Lemma b64decode_encode (data : list N) :
  Forall (fun b => b < 256) data -> b64decode (b64encode data) = data.
Proof.
  induction data as [| a | a b | a b c data IH] using list_ind3; intros H.
  - reflexivity.
  - inversion H as [| ? ? Ha _]; subst.
    cbn [b64encode b64decode].
    rewrite N.eqb_refl.
    rewrite !b64_index_char by byte_lia. f_equal. byte_lia.
  - inversion H as [| ? ? Ha H']; subst. inversion H' as [| ? ? Hb _]; subst.
    cbn [b64encode b64decode].
    rewrite b64_char_not_pad by byte_lia. rewrite N.eqb_refl.
    rewrite !b64_index_char by byte_lia.
    f_equal; [byte_lia |]. f_equal. byte_lia.
  - inversion H as [| ? ? Ha H']; subst. inversion H' as [| ? ? Hb H'']; subst.
    inversion H'' as [| ? ? Hc Hd]; subst.
    cbn [b64encode b64decode].
    rewrite !b64_char_not_pad by byte_lia.
    rewrite !b64_index_char by byte_lia.
    rewrite (IH Hd).
    f_equal; [byte_lia |]. f_equal; [byte_lia |]. f_equal. byte_lia.
Qed.

Lemma b64encode_length (data : list N) :
  length (b64encode data) = (4 * ceil_div (length data) 3)%nat.
Proof.
  induction data as [| a | a b | a b c data IH] using list_ind3.
  - reflexivity.
  - reflexivity.
  - reflexivity.
  - cbn [b64encode length]. rewrite IH.
    rewrite (ceil_div_step (S (S (S (length data)))) 3) by lia.
    cbn [Nat.sub]. rewrite Nat.sub_0_r. lia.
Qed.

Lemma b64encode_symbols (data : list N) :
  Forall (fun b => b < 256) data ->
  forallb b64_symbol (b64encode data) = true.
Proof.
  induction data as [| a | a b | a b c data IH] using list_ind3; intros H.
  - reflexivity.
  - inversion H as [| ? ? Ha _]; subst.
    cbn [b64encode forallb]. rewrite !b64_char_symbol by byte_lia.
    reflexivity.
  - inversion H as [| ? ? Ha H']; subst. inversion H' as [| ? ? Hb _]; subst.
    cbn [b64encode forallb]. rewrite !b64_char_symbol by byte_lia.
    reflexivity.
  - inversion H as [| ? ? Ha H']; subst. inversion H' as [| ? ? Hb H'']; subst.
    inversion H'' as [| ? ? Hc Hd]; subst.
    cbn [b64encode forallb]. rewrite !b64_char_symbol by byte_lia.
    now rewrite (IH Hd).
Qed.

(** *** UTF-8 *)

Lemma utf8_char_cases (c : char) :
  (c < 128 /\ utf8_char c = Some [c]) \/
  (128 <= c < 2048 /\
   utf8_char c = Some [192 + c / 64; 128 + c mod 64]) \/
  (2048 <= c < 65536 /\ is_surrogate c = false /\
   utf8_char c
   = Some [224 + c / 4096; 128 + (c / 64) mod 64; 128 + c mod 64]) \/
  (65536 <= c < 1114112 /\
   utf8_char c
   = Some [240 + c / 262144; 128 + (c / 4096) mod 64;
           128 + (c / 64) mod 64; 128 + c mod 64]) \/
  ((is_surrogate c = true \/ 1114112 <= c) /\ utf8_char c = None).
Proof.
  unfold utf8_char, is_surrogate, between.
  destruct (N.ltb_spec c 128); [left; now split |].
  destruct (N.ltb_spec c 2048); [right; left; now split |].
  destruct (N.ltb_spec c 65536).
  - destruct (N.leb_spec 55296 c); destruct (N.leb_spec c 57343);
      cbn [andb];
      first [ right; right; right; right; split; [now left | reflexivity]
            | right; right; left; repeat split; (lia || reflexivity) ].
  - destruct (N.ltb_spec c 1114112).
    + right. right. right. left. now split.
    + right. right. right. right. split; [now right | reflexivity].
Qed.

Lemma utf8_char_none (c : char) :
  utf8_char c = None <-> is_surrogate c = true \/ 1114112 <= c.
Proof.
  assert (Hsur : is_surrogate c = true -> 55296 <= c <= 57343).
  { unfold is_surrogate, between. intros Hx.
    apply andb_true_iff in Hx. destruct Hx as [H1 H2].
    apply N.leb_le in H1. apply N.leb_le in H2. now split. }
  destruct (utf8_char_cases c)
    as [[Hr E] | [[Hr E] | [[Hr [Hs E]] | [[Hr E] | [Hn E]]]]];
    rewrite E; split; intros Hx; try discriminate; try reflexivity;
    try exact Hn;
    destruct Hx as [Hx | Hx]; try lia; try congruence;
    apply Hsur in Hx; lia.
Qed.

Lemma utf8_char_bytes (c : char) (bs : list N) :
  utf8_char c = Some bs ->
  Forall (fun b => b < 256) bs /\
  (1 <= length bs)%nat /\ (length bs <= 4)%nat.
Proof.
  intros Hx.
  destruct (utf8_char_cases c)
    as [[Hr E] | [[Hr E] | [[Hr [Hs E]] | [[Hr E] | [Hn E]]]]];
    rewrite E in Hx; try discriminate;
    some_inj Hx; subst bs;
    (split; [| cbn [length]; lia]);
    repeat (apply Forall_cons; [byte_lia |]); apply Forall_nil.
Qed.

Lemma decode_utf8_char (c : char) (bs more : list N) :
  utf8_char c = Some bs ->
  decode_utf8 (bs ++ more) = c :: decode_utf8 more.
Proof.
  intros Hx.
  destruct (utf8_char_cases c)
    as [[Hr E] | [[Hr E] | [[Hr [Hs E]] | [[Hr E] | [Hn E]]]]];
    rewrite E in Hx; try discriminate;
    some_inj Hx; subst bs;
    cbn [app decode_utf8].
  - destruct (N.ltb_spec c 128); [reflexivity | lia].
  - destruct (N.ltb_spec (192 + c / 64) 128); [byte_lia |].
    destruct (N.ltb_spec (192 + c / 64) 224); [| byte_lia].
    f_equal. byte_lia.
  - destruct (N.ltb_spec (224 + c / 4096) 128); [byte_lia |].
    destruct (N.ltb_spec (224 + c / 4096) 224); [byte_lia |].
    destruct (N.ltb_spec (224 + c / 4096) 240); [| byte_lia].
    f_equal. byte_lia.
  - destruct (N.ltb_spec (240 + c / 262144) 128); [byte_lia |].
    destruct (N.ltb_spec (240 + c / 262144) 224); [byte_lia |].
    destruct (N.ltb_spec (240 + c / 262144) 240); [byte_lia |].
    f_equal. byte_lia.
Qed.

Lemma encode_utf8_cons (c : char) (more : str) (data : list N) :
  encode_utf8 (c :: more) = Some data ->
  exists bs rest,
    utf8_char c = Some bs /\ encode_utf8 more = Some rest /\
    data = bs ++ rest.
Proof.
  cbn [encode_utf8].
  destruct (utf8_char c) as [bs |]; [| discriminate].
  destruct (encode_utf8 more) as [rest |]; [| discriminate].
  intros H. injection H as <-. now exists bs, rest.
Qed.

Lemma decode_encode_utf8 (text : str) (data : list N) :
  encode_utf8 text = Some data -> decode_utf8 data = text.
Proof.
  revert data. induction text as [| c text IH]; intros data H.
  - injection H as <-. reflexivity.
  - apply encode_utf8_cons in H.
    destruct H as [bs [rest [Hc [Hrest ->]]]].
    rewrite (decode_utf8_char c bs rest Hc). f_equal. now apply IH.
Qed.

Lemma encode_utf8_bytes (text : str) (data : list N) :
  encode_utf8 text = Some data ->
  Forall (fun b => b < 256) data /\
  (length text <= length data)%nat /\
  (length data <= 4 * length text)%nat.
Proof.
  revert data. induction text as [| c text IH]; intros data H.
  - injection H as <-. repeat split; [constructor | |]; cbn; lia.
  - apply encode_utf8_cons in H.
    destruct H as [bs [rest [Hc [Hrest ->]]]].
    destruct (utf8_char_bytes c bs Hc) as [Hb [H1 H4]].
    destruct (IH rest Hrest) as [Hr [Hlo Hhi]].
    split; [now apply Forall_app |].
    rewrite length_app. cbn [length]. lia.
Qed.

(** The link is the prefix followed by four base64 symbols for every
    three bytes of the UTF-8 form of the text, begun or whole; a text of
    n characters has between n and 4n bytes. *)
Theorem download_link_shape (text filename link : str) :
  create_download_link text filename = Some link ->
  exists data,
    encode_utf8 text = Some data /\
    link = link_prefix ++ b64encode data /\
    length (b64encode data) = (4 * ceil_div (length data) 3)%nat /\
    forallb b64_symbol (b64encode data) = true /\
    (length text <= length data)%nat /\
    (length data <= 4 * length text)%nat.
Proof.
  unfold create_download_link.
  destruct (encode_utf8 text) as [data |] eqn:E; [| discriminate].
  intros H. injection H as <-. exists data.
  destruct (encode_utf8_bytes text data E) as [Hb [Hlo Hhi]].
  repeat split; try assumption.
  - apply b64encode_length.
  - now apply b64encode_symbols.
Qed.

(** The link holds the whole text: two texts with the same link are the
    same text, whatever the file names. *)
Theorem download_link_injective (text1 text2 name1 name2 link : str) :
  create_download_link text1 name1 = Some link ->
  create_download_link text2 name2 = Some link ->
  text1 = text2.
Proof.
  unfold create_download_link.
  destruct (encode_utf8 text1) as [d1 |] eqn:E1; [| discriminate].
  destruct (encode_utf8 text2) as [d2 |] eqn:E2; [| discriminate].
  intros H1 H2. rewrite <- H1 in H2. some_inj H2.
  apply app_inv_head in H2.
  assert (Hd : d1 = d2).
  { rewrite <- (b64decode_encode d1), <- (b64decode_encode d2).
    - now rewrite H2.
    - apply (encode_utf8_bytes text2 d2 E2).
    - apply (encode_utf8_bytes text1 d1 E1). }
  subst d2.
  rewrite <- (decode_encode_utf8 text1 d1 E1).
  now apply decode_encode_utf8.
Qed.

Lemma encode_utf8_none (text : str) :
  encode_utf8 text = None <-> exists c, In c text /\ utf8_char c = None.
Proof.
  induction text as [| c text IH].
  - split; [discriminate | intros [c [[] _]]].
  - cbn [encode_utf8]. destruct (utf8_char c) as [bs |] eqn:Hc.
    + destruct (encode_utf8 text) as [rest |].
      * split; [discriminate |]. intros [d [[<- | Hd] Hn]]; [congruence |].
        assert (Hbad : Some rest = None) by (apply IH; now exists d).
        discriminate.
      * split; [| reflexivity]. intros _.
        destruct (proj1 IH eq_refl) as [d [Hd Hn]].
        exists d. split; [now right | exact Hn].
    + split; [| reflexivity]. intros _. exists c. split; [now left | exact Hc].
Qed.

Lemma link_fails (text filename : str) :
  Forall (fun c => c < 1114112) text ->
  (create_download_link text filename = None <->
   existsb is_surrogate text = true).
Proof.
  intros Hvalid. unfold create_download_link.
  assert (Hn : encode_utf8 text = None <-> existsb is_surrogate text = true).
  { rewrite encode_utf8_none, existsb_exists. split.
    - intros [c [Hc Hu]]. exists c. split; [exact Hc |].
      apply utf8_char_none in Hu. destruct Hu as [Hs | Hbig]; [exact Hs |].
      rewrite Forall_forall in Hvalid. specialize (Hvalid c Hc). lia.
    - intros [c [Hc Hs]]. exists c. split; [exact Hc |].
      apply utf8_char_none. now left. }
  destruct (encode_utf8 text) as [data |].
  - split; [discriminate |]. intros H. apply Hn in H. discriminate.
  - split; [| reflexivity]. intros _. now apply Hn.
Qed.

(** For a string of characters up to U+10FFFF the link fails to be made
    exactly when the text holds a surrogate. *)
Theorem download_link_fails (text filename : str) :
  Forall (fun c => c < 1114112) text ->
  (create_download_link text filename = None <->
   existsb is_surrogate text = true).
Proof.
  intros Hvalid. now apply link_fails.
Qed.

Lemma download_link_shape_witness :
  exists data,
    encode_utf8 [104; 233; 8364; 127891] = Some data /\
    link_prefix ++ b64encode [104; 195; 169; 226; 130; 172;
                              240; 159; 142; 147]
      = link_prefix ++ b64encode data /\
    length (b64encode data) = (4 * ceil_div (length data) 3)%nat /\
    forallb b64_symbol (b64encode data) = true /\
    (length [104; 233; 8364; 127891]%N <= length data)%nat /\
    (length data <= 4 * length [104; 233; 8364; 127891]%N)%nat.
Proof.
  apply (download_link_shape [104; 233; 8364; 127891] (lit "all.txt")).
  vm_compute. reflexivity.
Defined.

Lemma download_link_injective_witness : lit "abc" = lit "abc".
Proof.
  apply (download_link_injective (lit "abc") (lit "abc")
           (lit "a.txt") (lit "b.txt")
           (link_prefix ++ lit "YWJj")); vm_compute; reflexivity.
Defined.

Lemma download_link_fails_witness :
  create_download_link [97; 55357] (lit "a.txt") = None <->
  existsb is_surrogate [97; 55357] = true.
Proof.
  apply (download_link_fails [97; 55357] (lit "a.txt")).
  repeat constructor.
Defined.

End DownloadFacts.

(** ** What the page derives from the chunks *)

Module ReportFacts.
Import Py Effects Chunker Download Report.
Import StrFacts ChunkerFacts DownloadFacts Examples.
Local Open Scope nat_scope.

(** The preview is never longer than 303 characters and begins as the
    chunk does; it is longer than the chunk itself exactly when the chunk
    has 301 or 302 characters. *)
Theorem preview_bounded (chunk : str) :
  length (preview chunk) <= 303 /\
  firstn 300 (preview chunk) = firstn 300 chunk /\
  (length chunk < length (preview chunk) <-> 301 <= length chunk <= 302).
Proof.
  unfold preview. destruct (Nat.ltb_spec 300 (length chunk)) as [H | H].
  - assert (Hf : length (firstn 300 chunk) = 300)
      by (apply firstn_length_le; lia).
    assert (Hl : length (firstn 300 chunk ++ lit "...") = 303).
    { rewrite length_app, Hf. reflexivity. }
    rewrite Hl. split; [lia |]. split; [| lia].
    rewrite firstn_app, Hf, Nat.sub_diag, firstn_O, app_nil_r.
    rewrite firstn_firstn. now rewrite Nat.min_id.
  - split; [lia |]. split; [reflexivity | lia].
Qed.

(** The average shown in the summary: at most the window size, and zero
    only for a text without tokens. *)
Theorem average_within_window {tk : Tiktoken} (text : str)
    (max_tokens : Z) (name : str) (enc : encoding) (ev : list event)
    (tokens : list token) (chunks : list str) :
  get_encoding name = inr enc -> (1 <= max_tokens)%Z ->
  encode enc text = inr tokens ->
  split_text_by_tokens text max_tokens name = (ev, Ret chunks) ->
  average_tokens (length tokens) (length chunks)
    <= Z.to_nat max_tokens /\
  (average_tokens (length tokens) (length chunks) = 0 <-> tokens = []).
Proof.
  intros Henc Hm Htok Hs.
  rewrite (split_text_by_tokens_returns text max_tokens name enc tokens
             Hm Henc Htok) in Hs.
  assert (Hc : chunks = map (decode enc)
                 (token_windows tokens (Z.to_nat max_tokens)))
    by congruence.
  rewrite Hc, length_map, token_windows_length by lia.
  rewrite <- length_zero_iff_nil.
  set (T := length tokens). set (M := Z.to_nat max_tokens).
  assert (HM : 1 <= M) by (unfold M; lia).
  set (k := ceil_div T M).
  assert (Hk : M * k <= T + M - 1 /\ T + M - 1 < M * k + M).
  { unfold k, ceil_div.
    pose proof (Nat.div_mod_eq (T + M - 1) M) as E.
    pose proof (Nat.mod_upper_bound (T + M - 1) M) as U.
    lia. }
  unfold average_tokens. destruct (Nat.ltb_spec 0 k) as [Hpos | Hzero].
  - assert (HT : k <= T) by nia.
    split.
    + apply Nat.Div0.div_le_upper_bound. nia.
    + split; [| intros ->; lia].
      intros E. pose proof (Nat.div_str_pos T k) as P. lia.
  - assert (k = 0) by lia. split; [lia |]. split; [| reflexivity].
    intros _. nia.
Qed.

Lemma average_within_window_witness :
  average_tokens (length (sample_tokens (lit "hello world")))
    (length (map (decode sample_encoding)
               (token_windows (sample_tokens (lit "hello world")) 4)))
    <= Z.to_nat 4 /\
  (average_tokens (length (sample_tokens (lit "hello world")))
     (length (map (decode sample_encoding)
                (token_windows (sample_tokens (lit "hello world")) 4))) = 0
   <-> sample_tokens (lit "hello world") = []).
Proof.
  apply (average_within_window (tk := sample_tiktoken) (lit "hello world")
           4 (lit "cl100k_base") sample_encoding []).
  - reflexivity.
  - lia.
  - reflexivity.
  - reflexivity.
Defined.

(** *** The bulk download *)

Local Open Scope N_scope.

Lemma uint_chars_ascii (u : Decimal.uint) :
  Forall (fun c => c < 128) (uint_chars u).
Proof.
  induction u; cbn [uint_chars]; constructor; (lia || assumption).
Qed.

Lemma group3_forall (P : char -> Prop) (digits : str) :
  P COMMA -> Forall P digits -> Forall P (group3 digits).
Proof.
  intros Hc. induction digits as [| a | a b | a b c more IH] using list_ind3;
    intros H; try exact H.
  cbn [group3].
  inversion H as [| ? ? Ha H1]; subst.
  inversion H1 as [| ? ? Hb H2]; subst.
  inversion H2 as [| ? ? Hc' H3]; subst.
  destruct more as [| d more]; [exact H |].
  repeat (constructor; [assumption |]). now apply IH.
Qed.

Lemma part_header_ascii (i n : nat) :
  Forall (fun c => c < 128) (part_header i n).
Proof.
  unfold part_header, with_commas, str_of_nat.
  apply Forall_app. split; [vm_compute; repeat constructor |].
  apply Forall_app. split; [apply uint_chars_ascii |].
  apply Forall_app. split; [vm_compute; repeat constructor |].
  apply Forall_app. split; [| vm_compute; repeat constructor].
  apply Forall_rev, group3_forall; [unfold COMMA; lia |].
  apply Forall_rev, uint_chars_ascii.
Qed.

Lemma ascii_no_surrogate (s : str) :
  Forall (fun c => c < 128) s -> existsb is_surrogate s = false.
Proof.
  induction 1 as [| c s Hc _ IH]; [reflexivity |].
  cbn [existsb]. rewrite IH, orb_false_r.
  unfold is_surrogate, between.
  destruct (N.leb_spec 55296 c); [lia | reflexivity].
Qed.

Lemma part_text_surrogate (part : nat * nat * str) :
  existsb is_surrogate (part_text part) = existsb is_surrogate (snd part).
Proof.
  destruct part as [[i n] chunk]. cbn [part_text snd].
  rewrite existsb_app.
  now rewrite (ascii_no_surrogate _ (part_header_ascii i n)).
Qed.

Lemma part_text_valid (part : nat * nat * str) :
  Forall (fun c => c < 1114112) (snd part) ->
  Forall (fun c => c < 1114112) (part_text part).
Proof.
  destruct part as [[i n] chunk]. cbn [part_text snd]. intros H.
  apply Forall_app. split; [| exact H].
  eapply Forall_impl; [| apply (part_header_ascii i n)].
  intros c Hc. cbv beta in Hc. lia.
Qed.

Lemma all_chunks_surrogate (parts : list (nat * nat * str)) :
  existsb is_surrogate (all_chunks parts)
  = existsb (fun part => existsb is_surrogate (snd part)) parts.
Proof.
  unfold all_chunks. rewrite existsb_app.
  change (existsb is_surrogate [LF; LF]) with false. cbn [orb].
  induction parts as [| p parts IH]; [reflexivity |].
  destruct parts as [| q more].
  - cbn [map join existsb]. now rewrite part_text_surrogate, orb_false_r.
  - change (map part_text (p :: q :: more))
      with (part_text p :: part_text q :: map part_text more).
    rewrite join_cons, !existsb_app.
    change (existsb is_surrogate [LF; LF]) with false. cbn [orb].
    change (part_text q :: map part_text more)
      with (map part_text (q :: more)).
    rewrite IH, part_text_surrogate. reflexivity.
Qed.

Lemma all_chunks_valid (parts : list (nat * nat * str)) :
  Forall (fun part => Forall (fun c => c < 1114112) (snd part)) parts ->
  Forall (fun c => c < 1114112) (all_chunks parts).
Proof.
  intros H. unfold all_chunks.
  assert (Hsep : Forall (fun c => c < 1114112) [LF; LF])
    by (repeat constructor).
  apply Forall_app. split; [exact Hsep |].
  induction H as [| p parts Hp _ IH]; [constructor |].
  destruct parts as [| q more].
  - cbn [map join]. now apply part_text_valid.
  - change (map part_text (p :: q :: more))
      with (part_text p :: map part_text (q :: more)).
    change (join [LF; LF] (part_text p :: map part_text (q :: more)))
      with (part_text p ++ [LF; LF] ++ join [LF; LF]
                                         (map part_text (q :: more))).
    repeat (apply Forall_app; split); try assumption.
    now apply part_text_valid.
Qed.

(** The link of the bulk download fails to be made exactly when one of the
    chunks holds a surrogate: the headers and the separators never stand
    in its way. *)
Theorem bulk_link_fails (parts : list (nat * nat * str)) (filename : str) :
  Forall (fun part => Forall (fun c => c < 1114112) (snd part)) parts ->
  (create_download_link (all_chunks parts) filename = None <->
   existsb (fun part => existsb is_surrogate (snd part)) parts = true).
Proof.
  intros H. rewrite <- all_chunks_surrogate.
  apply link_fails. now apply all_chunks_valid.
Qed.

Lemma bulk_link_fails_witness :
  create_download_link
    (all_chunks [(1%nat, 2%nat, lit "ab"); (2%nat, 1%nat, [55357])])
    (lit "all_chunks_paper.txt") = None <->
  existsb (fun part => existsb is_surrogate (snd part))
    [(1%nat, 2%nat, lit "ab"); (2%nat, 1%nat, [55357])] = true.
Proof.
  apply (bulk_link_fails
           [(1%nat, 2%nat, lit "ab"); (2%nat, 1%nat, [55357])]
           (lit "all_chunks_paper.txt")).
  repeat constructor.
Defined.

End ReportFacts.
